(** * go-collide: 2D collision detection (GJK distance, SAT contact)

    A shallow embedding of the Go package [collide] and the properties its
    specification states about it.

    Numbers.  Go's [float64] is IEEE 754 binary64 with round-to-nearest-even;
    it is modelled by Rocq's primitive [float], which is the same format with
    the same rounding, so every arithmetic step below rounds exactly as the
    compiled Go code does on a target that does not fuse multiply-add
    (amd64).  Go's comparison [x > y] is [y <? x], [x >= y] is [y <=? x],
    [x != y] is [negb (x =? y)].

    Control.  A Go panic (an index out of range, a method call on a nil
    interface, an explicit [panic]) is the outcome [Panic]; the one unbounded
    loop of the package, the main loop of [GJK], runs on fuel and yields
    [OutOfFuel] when the fuel is used up before the loop exits.

    Library.  [math.Sincos], which [NewRotation] calls, is a parameter of the
    definitions that reach it: what is proved of them holds for whatever it
    computes. *)

From Stdlib Require Import ZArith List Bool Lia Floats.
Import ListNotations.

Set Warnings "-inexact-float".

Local Open Scope float_scope.

(** ** Outcomes of a call *)

Inductive panic : Set :=
| IndexOutOfRange
| NilDereference
| BadSimplexLength.

Inductive outcome (A : Type) : Type :=
| Ret (a : A)
| Panic (why : panic)
| OutOfFuel.

Arguments Ret {A} a.
Arguments Panic {A} why.
Arguments OutOfFuel {A}.

Definition bind {A B : Type} (c : outcome A) (k : A -> outcome B) : outcome B :=
match c with
| Ret a => k a
| Panic why => Panic why
| OutOfFuel => OutOfFuel
end.

Notation "x <- c ;; k" := (bind c (fun x => k))
  (at level 61, c at next level, right associativity).

(** ** math.go: points, rotations, transforms *)

Record Point : Set := Pt { X : float; Y : float }.

Definition Add (p q : Point) : Point := Pt (X p + X q) (Y p + Y q).
Definition Sub (p q : Point) : Point := Pt (X p - X q) (Y p - Y q).
Definition Mul (p : Point) (k : float) : Point := Pt (X p * k) (Y p * k).
Definition Div (p : Point) (k : float) : Point := Pt (X p / k) (Y p / k).
Definition Neg (p : Point) : Point := Pt (- X p) (- Y p).
Definition Length (p : Point) : float := sqrt (X p * X p + Y p * Y p).
Definition LengthSquared (p : Point) : float := X p * X p + Y p * Y p.

Definition Normalize (p : Point) : Point :=
let l := Length p in
if l =? 0 then p else Div p l.

Definition Dot (p q : Point) : float := X p * X q + Y p * Y q.
Definition Cross (p q : Point) : float := X p * Y q - Y p * X q.
Definition CrossPS (p : Point) (s : float) : Point := Pt (s * Y p) ((- s) * X p).
Definition CrossSP (s : float) (p : Point) : Point := Pt ((- s) * Y p) (s * X p).

Record Rotation : Set := Rot { Sin : float; Cos : float }.

Definition Rotation_Mul (r : Rotation) (p : Point) : Point :=
Pt (X p * Cos r - Y p * Sin r) (X p * Sin r + Y p * Cos r).

Definition Rotation_MulT (r : Rotation) (p : Point) : Point :=
Pt (X p * Cos r + Y p * Sin r) (Y p * Cos r - X p * Sin r).

Record Transform : Set := Xf { Position : Point; Rotation_of : Rotation }.

Definition Transform_Mul (t : Transform) (p : Point) : Point :=
Add (Rotation_Mul (Rotation_of t) p) (Position t).

Definition Transform_MulT (t : Transform) (p : Point) : Point :=
Rotation_MulT (Rotation_of t) (Sub p (Position t)).

(** [NewTransform(position, 0)]: [math.Sincos(0)] is [(0, 1)]. *)
Definition identity_at (position : Point) : Transform := Xf position (Rot 0 1).
Definition identity : Transform := identity_at (Pt 0 0).

(** [math.MaxFloat64] and [math.Max] of Go's standard library ([is_nan] is
    [math.IsNaN]). *)
Definition MaxFloat64 : float := 0x1.fffffffffffffp+1023.

Definition math_Max (x y : float) : float :=
if (x =? infinity) || (y =? infinity) then infinity
else if is_nan x || is_nan y then nan
else if (x =? 0) && (x =? y) then (if get_sign x then y else x)
else if y <? x then x else y.

(** ** shape.go: the [Shape] interface and its two implementations *)

Record Circle : Set := mkCircle { Center : Point; Radius : float }.

Record Polygon : Set := mkPolygon { Points : list Point; Normals : list Point }.

(** A value of interface type [Shape] holds a [*Circle], a [*Polygon], a
    value of some other type with the two methods (a type that embeds one of
    the two, for instance), or nothing at all ([nil]). *)
Record OtherShape : Type := mkOther
  { other_getSupport : Point -> outcome Z;
    other_getVertex : Z -> outcome Point }.

Inductive Shape : Type :=
| ShapeCircle (c : Circle)
| ShapePolygon (p : Polygon)
| ShapeOther (o : OtherShape)
| ShapeNil.

(** Slice indexing [s[i]] with Go's bounds check. *)
Definition index {A : Type} (s : list A) (i : Z) : outcome A :=
if (i <? 0)%Z then Panic IndexOutOfRange
else match nth_error s (Z.to_nat i) with
     | Some x => Ret x
     | None => Panic IndexOutOfRange
     end.

Definition len {A : Type} (s : list A) : Z := Z.of_nat (length s).

(** The loop of [Polygon.getSupport] from [i] on, over the points not yet
    visited. *)
Fixpoint support_scan (dir : Point) (rest : list Point) (i best : Z) (maxDist : float) : Z :=
match rest with
| [] => best
| q :: rest' =>
    let dist := Dot dir q in
    if maxDist <? dist then support_scan dir rest' (i + 1)%Z i dist
    else support_scan dir rest' (i + 1)%Z best maxDist
end.

Definition Polygon_getSupport (p : Polygon) (dir : Point) : outcome Z :=
match Points p with
| [] => Panic IndexOutOfRange
| q0 :: rest => Ret (support_scan dir rest 1%Z 0%Z (Dot dir q0))
end.

Definition getSupport (s : Shape) (dir : Point) : outcome Z :=
match s with
| ShapeCircle _ => Ret 0%Z
| ShapePolygon p => Polygon_getSupport p dir
| ShapeOther o => other_getSupport o dir
| ShapeNil => Panic NilDereference
end.

Definition getVertex (s : Shape) (i : Z) : outcome Point :=
match s with
| ShapeCircle c => Ret (Center c)
| ShapePolygon p => index (Points p) i
| ShapeOther o => other_getVertex o i
| ShapeNil => Panic NilDereference
end.

(** The loop of [NewPolygon]: the normal of the edge leaving each of [rest],
    where [first] is the vertex the last edge returns to. *)
Fixpoint edge_normals (first : Point) (rest : list Point) : list Point :=
match rest with
| [] => []
| pi :: rest' =>
    let pj := match rest' with [] => first | q :: _ => q end in
    Normalize (CrossPS (Sub pj pi) 1) :: edge_normals first rest'
end.

Definition NewPolygon (points : list Point) : Polygon :=
mkPolygon points (edge_normals (hd (Pt 0 0) points) points).

Definition Rectangle (center extents : Point) : Polygon :=
NewPolygon
  [ Add center (Pt (- X extents) (- Y extents));
    Add center (Pt (X extents) (- Y extents));
    Add center (Pt (X extents) (Y extents));
    Add center (Pt (- X extents) (Y extents)) ].

Definition Rect (x y w h : float) : Polygon :=
Rectangle (Pt x y) (Pt (w / 2) (h / 2)).

(** ** The simplex and the GJK distance algorithm *)

Record vertex : Set := mkVertex
  { v_a : Point;      (* support point on shape A *)
    v_b : Point;      (* support point on shape B *)
    v_p : Point;      (* point on the Minkowski difference (B - A) *)
    v_u : float;      (* barycentric coordinate for the closest point *)
    v_indexA : Z;
    v_indexB : Z }.

(** [count] is a [byte]; [v] is the array [[3]vertex]. *)
Record Simplex : Set := mkSimplex
  { count : Z; v0 : vertex; v1 : vertex; v2 : vertex }.

Definition zero_vertex : vertex := mkVertex (Pt 0 0) (Pt 0 0) (Pt 0 0) 0 0 0.

(** The zero value [var simplex Simplex]. *)
Definition zero_Simplex : Simplex := mkSimplex 0 zero_vertex zero_vertex zero_vertex.

Definition set_count (s : Simplex) (n : Z) : Simplex := mkSimplex n (v0 s) (v1 s) (v2 s).
Definition set_v0 (s : Simplex) (x : vertex) : Simplex := mkSimplex (count s) x (v1 s) (v2 s).
Definition set_v1 (s : Simplex) (x : vertex) : Simplex := mkSimplex (count s) (v0 s) x (v2 s).
Definition set_v2 (s : Simplex) (x : vertex) : Simplex := mkSimplex (count s) (v0 s) (v1 s) x.
Definition set_u (x : vertex) (u : float) : vertex :=
mkVertex (v_a x) (v_b x) (v_p x) u (v_indexA x) (v_indexB x).

(** [s.v[i]] and [s.v[i] = x] for a computed index [i]. *)
Definition v_get (s : Simplex) (i : Z) : outcome vertex :=
match i with
| 0%Z => Ret (v0 s)
| 1%Z => Ret (v1 s)
| 2%Z => Ret (v2 s)
| _ => Panic IndexOutOfRange
end.

Definition v_set (s : Simplex) (i : Z) (x : vertex) : outcome Simplex :=
match i with
| 0%Z => Ret (set_v0 s x)
| 1%Z => Ret (set_v1 s x)
| 2%Z => Ret (set_v2 s x)
| _ => Panic IndexOutOfRange
end.

Definition ClosestPoint (s : Simplex) : outcome Point :=
match count s with
| 1%Z => Ret (v_p (v0 s))
| 2%Z => Ret (Add (Mul (v_p (v0 s)) (v_u (v0 s))) (Mul (v_p (v1 s)) (v_u (v1 s))))
| 3%Z => Ret (Pt 0 0)
| _ => Panic BadSimplexLength
end.

Definition searchDirection (s : Simplex) : outcome Point :=
match count s with
| 1%Z => Ret (Neg (v_p (v0 s)))
| 2%Z =>
    let a := v_p (v0 s) in
    let b := v_p (v1 s) in
    let ab := Sub b a in
    let ao := Neg a in
    let sign := Cross ab ao in
    if 0 <? sign then Ret (CrossSP 1 ab) else Ret (CrossPS ab 1)
| _ => Panic BadSimplexLength
end.

Definition evolveLine (s : Simplex) : Simplex :=
let a := v0 s in
let b := v1 s in
let n := Sub (v_p b) (v_p a) in
let u := Dot (v_p b) n in
let v := Dot (Neg (v_p a)) n in
if v <=? 0 then set_v0 (set_count s 1) a
else if u <=? 0 then set_v0 (set_count s 1) b
else
  let l := LengthSquared n in
  let s := set_v0 s (set_u (v0 s) (u / l)) in
  set_v1 s (set_u (v1 s) (v / l)).

(** [evolveTriangle], statement by statement.  The Region C branch assigns
    [count] and [v[0]] and has no [return]: control continues with the area
    and the edge regions, as in the source. *)
Definition evolveTriangle (s : Simplex) : Simplex :=
let a := v0 s in
let b := v1 s in
let c := v2 s in
let ab := Sub (v_p b) (v_p a) in
let bc := Sub (v_p c) (v_p b) in
let ca := Sub (v_p a) (v_p c) in
let uAB := Dot (v_p b) ab in
let vAB := Dot (Neg (v_p a)) ab in
let uBC := Dot (v_p c) bc in
let vBC := Dot (Neg (v_p b)) bc in
let uCA := Dot (v_p a) ca in
let vCA := Dot (Neg (v_p c)) ca in
if (vAB <=? 0) && (uCA <=? 0) then set_v0 (set_count s 1) a
else if (uAB <=? 0) && (vBC <=? 0) then set_v0 (set_count s 1) b
else
  let s := if (uBC <=? 0) && (vCA <=? 0) then set_v0 (set_count s 1) c else s in
  let area := Cross (Sub (v_p b) (v_p a)) (Sub (v_p c) (v_p a)) in
  let uABC := Cross (v_p b) (v_p c) * area in
  let vABC := Cross (v_p c) (v_p a) * area in
  let wABC := Cross (v_p a) (v_p b) * area in
  if (0 <? uAB) && (0 <? vAB) && (wABC <=? 0) then
    let l := LengthSquared ab in
    set_v1 (set_v0 (set_count s 2) (set_u a (uAB / l))) (set_u b (vAB / l))
  else if (0 <? uBC) && (0 <? vBC) && (uABC <=? 0) then
    let l := LengthSquared bc in
    set_v1 (set_v0 (set_count s 2) (set_u b (uBC / l))) (set_u c (vBC / l))
  else if (0 <? uCA) && (0 <? vCA) && (vABC <=? 0) then
    let l := LengthSquared ca in
    set_v1 (set_v0 (set_count s 2) (set_u c (uCA / l))) (set_u a (vCA / l))
  else
    let d := uABC + vABC + wABC in
    let s := set_v0 s (set_u (v0 s) (uABC / d)) in
    let s := set_v1 s (set_u (v1 s) (vABC / d)) in
    set_v2 s (set_u (v2 s) (wABC / d)).

Definition evolve (s : Simplex) : outcome Simplex :=
match count s with
| 1%Z => Ret s
| 2%Z => Ret (evolveLine s)
| 3%Z => Ret (evolveTriangle s)
| _ => Panic BadSimplexLength
end.

(** The support vertex in direction [dir], as the loop body builds it. *)
Definition support_vertex (a : Shape) (xfa : Transform) (b : Shape) (xfb : Transform)
  (dir : Point) : outcome vertex :=
indexA <- getSupport a (Rotation_MulT (Rotation_of xfa) (Neg dir)) ;;
indexB <- getSupport b (Rotation_MulT (Rotation_of xfb) dir) ;;
va <- getVertex a indexA ;;
vb <- getVertex b indexB ;;
Ret (mkVertex va vb (Sub (Transform_Mul xfb vb) (Transform_Mul xfa va)) 1 indexA indexB).

(** The first [oldCount] entries of [oldIndexA], [oldIndexB]: the only ones
    the duplicate check reads, and all of them rewritten at the top of every
    iteration. *)
Definition old_indices (s : Simplex) : outcome (list (Z * Z)) :=
let pair_of x := (v_indexA x, v_indexB x) in
match count s with
| 0%Z => Ret []
| 1%Z => Ret [pair_of (v0 s)]
| 2%Z => Ret [pair_of (v0 s); pair_of (v1 s)]
| 3%Z => Ret [pair_of (v0 s); pair_of (v1 s); pair_of (v2 s)]
| _ => Panic IndexOutOfRange
end.

Definition duplicate (support : vertex) (old : list (Z * Z)) : bool :=
existsb (fun o => (v_indexA support =? fst o)%Z && (v_indexB support =? snd o)%Z) old.

(** What one turn of the main loop does with the simplex: leave the loop
    ([Done]) or go round again ([Again]). *)
Inductive turn : Set :=
| Done (s : Simplex)
| Again (s : Simplex).

Definition GJK_turn (a : Shape) (xfa : Transform) (b : Shape) (xfb : Transform)
  (s : Simplex) : outcome turn :=
old <- old_indices s ;;
s <- evolve s ;;
if (count s =? 3)%Z then Ret (Done s)
else
  dir <- searchDirection s ;;
  if LengthSquared dir =? 0 then Ret (Done s)
  else
    support <- support_vertex a xfa b xfb dir ;;
    if duplicate support old then Ret (Done s)
    else
      s' <- v_set s (count s) support ;;
      Ret (Again (set_count s' ((count s + 1) mod 256)%Z)).

Fixpoint GJK_loop (fuel : nat) (a : Shape) (xfa : Transform) (b : Shape) (xfb : Transform)
  (s : Simplex) : outcome Simplex :=
match fuel with
| O => OutOfFuel
| S fuel' =>
    t <- GJK_turn a xfa b xfb s ;;
    match t with
    | Done s' => Ret s'
    | Again s' => GJK_loop fuel' a xfa b xfb s'
    end
end.

(** The seeding of an empty simplex at the head of [GJK]. *)
Definition GJK_seed (a : Shape) (xfa : Transform) (b : Shape) (xfb : Transform)
  (s : Simplex) : outcome Simplex :=
if (count s =? 0)%Z then
  va <- getVertex a 0%Z ;;
  vb <- getVertex b 0%Z ;;
  Ret (set_v0 (set_count s 1)
         (mkVertex va vb (Sub (Transform_Mul xfb vb) (Transform_Mul xfa va)) 1 0 0))
else Ret s.

Definition GJK (fuel : nat) (s : Simplex) (a : Shape) (xfa : Transform) (b : Shape)
  (xfb : Transform) : outcome Simplex :=
s <- GJK_seed a xfa b xfb s ;;
GJK_loop fuel a xfa b xfb s.

Definition Distance (fuel : nat) (a : Shape) (xfa : Transform) (b : Shape) (xfb : Transform)
  : outcome float :=
s <- GJK fuel zero_Simplex a xfa b xfb ;;
p <- ClosestPoint s ;;
Ret (Length p).

(** ** The collision dispatcher *)

Record Collision : Set := mkCollision { Normal : Point; Depth : float }.

(** A [*Collision] is [nil] or points to a collision. *)
Definition CollideCircles (a : Circle) (xfa : Transform) (b : Circle) (xfb : Transform)
  : option Collision :=
let centerA := Add (Position xfa) (Center a) in
let centerB := Add (Position xfb) (Center b) in
let n := Sub centerB centerA in
let r := Radius a + Radius b in
let d := LengthSquared n in
if r * r <? d then None
else
  let n := if negb (d =? 0) then Div n d else Pt 1 0 in
  let d := sqrt d in
  Some (mkCollision n (d - r)).

(** The face loop of [CollidePolygonAndCircle] from index [i] on: [None] is
    the early out, [Some] the separation and face it ends with. *)
Fixpoint face_scan (a : Polygon) (center : Point) (radius : float) (rest : list Point)
  (i : Z) (separation : float) (normalIndex : Z) : outcome (option (float * Z)) :=
match rest with
| [] => Ret (Some (separation, normalIndex))
| pt :: rest' =>
    ni <- index (Normals a) i ;;
    let s := Dot ni (Sub center pt) in
    if radius <? s then Ret None
    else if separation <? s then face_scan a center radius rest' (i + 1)%Z s i
    else face_scan a center radius rest' (i + 1)%Z separation normalIndex
end.

Definition CollidePolygonAndCircle (a : Polygon) (xfa : Transform) (b : Circle)
  (xfb : Transform) : outcome (option Collision) :=
let center := Transform_MulT xfa (Add (Center b) (Position xfb)) in
found <- face_scan a center (Radius b) (Points a) 0%Z (- MaxFloat64) 0%Z ;;
match found with
| None => Ret None
| Some (separation, normalIndex) =>
    let i := normalIndex in
    let j := (i + 1)%Z in
    let j := if (j =? len (Points a))%Z then 0%Z else j in
    v1 <- index (Points a) i ;;
    v2 <- index (Points a) j ;;
    if separation =? 0 then
      nn <- index (Normals a) normalIndex ;;
      Ret (Some (mkCollision (Neg (Rotation_Mul (Rotation_of xfa) nn)) (Radius b)))
    else
      let u1 := Dot (Sub center v1) (Sub v2 v1) in
      let u2 := Dot (Sub center v2) (Sub v1 v2) in
      if u1 <=? 0 then
        let d := Sub center v1 in
        if Radius b * Radius b <? Dot d d then Ret None
        else
          let n := Sub v1 center in
          let n := Normalize (Rotation_Mul (Rotation_of xfa) n) in
          Ret (Some (mkCollision n (Radius b - separation)))
      else if u2 <=? 0 then
        let n := Sub center v2 in
        if Radius b * Radius b <? Dot n n then Ret None
        else
          let n := Normalize (Rotation_Mul (Rotation_of xfa) n) in
          Ret (Some (mkCollision n (Radius b - separation)))
      else
        n <- index (Normals a) normalIndex ;;
        let face := Mul (Add v1 v2) 0.5 in
        if Radius b <? Dot (Sub center face) n then Ret None
        else
          let n := Rotation_Mul (Rotation_of xfa) n in
          Ret (Some (mkCollision n (Radius b - separation)))
end.

Definition flip_normal (c : option Collision) : option Collision :=
match c with
| Some c => Some (mkCollision (Neg (Normal c)) (Depth c))
| None => None
end.

Definition CollideCircleAndPolygon (a : Circle) (xfa : Transform) (b : Polygon)
  (xfb : Transform) : outcome (option Collision) :=
collision <- CollidePolygonAndCircle b xfb a xfa ;;
Ret (flip_normal collision).

(** The inner loop of [findMaxSeparation]: the least [Dot(n, b_j - v)]. *)
Fixpoint deepest (n v : Point) (rest : list Point) (d : float) : float :=
match rest with
| [] => d
| q :: rest' =>
    let dist := Dot n (Sub q v) in
    if dist <? d then deepest n v rest' dist else deepest n v rest' d
end.

(** Its outer loop from index [i] on. *)
Fixpoint separation_scan (a : Polygon) (xfa : Transform) (b : Polygon) (xfb : Transform)
  (rest : list Point) (i bestIndex : Z) (maxSeparation : float) : outcome (Z * float) :=
match rest with
| [] => Ret (bestIndex, maxSeparation)
| pt :: rest' =>
    n <- index (Normals a) i ;;
    let n := Rotation_Mul (Rotation_of xfa) n in
    let n := Rotation_MulT (Rotation_of xfb) n in
    let v := Transform_Mul xfa pt in
    let v := Transform_MulT xfb v in
    let d := deepest n v (Points b) MaxFloat64 in
    if maxSeparation <? d then separation_scan a xfa b xfb rest' (i + 1)%Z i d
    else separation_scan a xfa b xfb rest' (i + 1)%Z bestIndex maxSeparation
end.

Definition findMaxSeparation (a : Polygon) (xfa : Transform) (b : Polygon) (xfb : Transform)
  : outcome (Z * float) :=
separation_scan a xfa b xfb (Points a) 0%Z 0%Z (- MaxFloat64).

(** The loop of [findIncidentEdge] over [b.Normals] from index [i] on. *)
Fixpoint incident_scan (normal : Point) (rest : list Point) (i best : Z) (minDot : float) : Z :=
match rest with
| [] => best
| ni :: rest' =>
    let dot := Dot normal ni in
    if dot <? minDot then incident_scan normal rest' (i + 1)%Z i dot
    else incident_scan normal rest' (i + 1)%Z best minDot
end.

Definition findIncidentEdge (a : Polygon) (xfa : Transform) (b : Polygon) (xfb : Transform)
  (edge : Z) : outcome (list Point) :=
normal <- index (Normals a) edge ;;
let normal := Rotation_Mul (Rotation_of xfa) normal in
let normal := Rotation_MulT (Rotation_of xfb) normal in
let i := incident_scan normal (Normals b) 0%Z 0%Z MaxFloat64 in
let j := (i + 1)%Z in
let j := if (j =? len (Points b))%Z then 0%Z else j in
pi <- index (Points b) i ;;
pj <- index (Points b) j ;;
Ret [Transform_Mul xfb pi; Transform_Mul xfb pj].

(** [out[sp] = x] on the array [var out [2]Point], with its bounds check. *)
Definition out_set (out : Point * Point) (sp : Z) (x : Point) : outcome (Point * Point) :=
match sp with
| 0%Z => Ret (x, snd out)
| 1%Z => Ret (fst out, x)
| _ => Panic IndexOutOfRange
end.

(** [clip] returns [sp] and leaves its result in the caller's slice: the
    pair is the count and the slice after the call. *)
Definition clip (n : Point) (c : float) (edge : list Point) : outcome (Z * list Point) :=
let sp := 0%Z in
let out := (nth 0 edge (Pt 0 0), nth 1 edge (Pt 0 0)) in
e0 <- index edge 0%Z ;;
e1 <- index edge 1%Z ;;
let d1 := Dot n e0 - c in
let d2 := Dot n e1 - c in
st <- (if d1 <=? 0 then out' <- out_set out sp e0 ;; Ret (out', (sp + 1)%Z)
       else Ret (out, sp)) ;;
st <- (let '(out, sp) := st in
       if d2 <=? 0 then out' <- out_set out sp e1 ;; Ret (out', (sp + 1)%Z)
       else Ret (out, sp)) ;;
st <- (let '(out, sp) := st in
       if d1 * d2 <? 0 then
         let alpha := d1 / (d1 - d2) in
         out' <- out_set out sp (Add e0 (Mul (Sub e1 e0) alpha)) ;;
         Ret (out', (sp + 1)%Z)
       else Ret (out, sp)) ;;
let '(out, sp) := st in
Ret (sp, fst out :: snd out :: skipn 2 edge).

(** [CollidePolygons] from the choice of the reference polygon on: [a] is
    the reference polygon with its transform, [b] the incident one, [edge]
    the reference edge and [flip] tells whether the two were swapped. *)
Definition clip_incident (a : Polygon) (xfa : Transform) (b : Polygon) (xfb : Transform)
  (edge : Z) (flip : bool) : outcome (option Collision) :=
incidentEdge <- findIncidentEdge a xfa b xfb edge ;;
let i := edge in
let j := (i + 1)%Z in
let j := if (j =? len (Points a))%Z then 0%Z else j in
v1 <- index (Points a) i ;;
v2 <- index (Points a) j ;;
let tangent := Normalize (Sub v2 v1) in
let tangent := Rotation_Mul (Rotation_of xfa) tangent in
let normal := CrossPS tangent 1 in
let v1 := Transform_Mul xfa v1 in
let v2 := Transform_Mul xfa v2 in
let refC := Dot normal v1 in
let negSide := - Dot tangent v1 in
let posSide := Dot tangent v2 in
c1 <- clip (Neg tangent) negSide incidentEdge ;;
let '(n1, incidentEdge) := c1 in
if (n1 <? 2)%Z then Ret None
else
  c2 <- clip tangent posSide incidentEdge ;;
  let '(n2, incidentEdge) := c2 in
  if (n2 <? 2)%Z then Ret None
  else
    i0 <- index incidentEdge 0%Z ;;
    let overlap := 0 in
    let separation0 := Dot normal i0 - refC in
    let overlap := if separation0 <=? 0 then - separation0 else overlap in
    i1 <- index incidentEdge 1%Z ;;
    let separation1 := Dot normal i1 - refC in
    let overlap := if separation1 <=? 0 then math_Max overlap (- separation1) else overlap in
    let normal := if flip then Neg normal else normal in
    if overlap =? 0 then Ret None
    else Ret (Some (mkCollision normal overlap)).

Definition CollidePolygons (a : Polygon) (xfa : Transform) (b : Polygon) (xfb : Transform)
  : outcome (option Collision) :=
sepA <- findMaxSeparation a xfa b xfb ;;
let '(edgeA, separationA) := sepA in
if 0 <=? separationA then Ret None
else
  sepB <- findMaxSeparation b xfb a xfa ;;
  let '(edgeB, separationB) := sepB in
  if 0 <=? separationB then Ret None
  else if separationA <? separationB then clip_incident b xfb a xfa edgeB true
  else clip_incident a xfa b xfb edgeA false.

(** The type switch of [Collide]: a pair with no case returns [nil]. *)
Definition Collide (a : Shape) (xfa : Transform) (b : Shape) (xfb : Transform)
  : outcome (option Collision) :=
match a with
| ShapeCircle ca =>
    match b with
    | ShapeCircle cb => Ret (CollideCircles ca xfa cb xfb)
    | ShapePolygon pb => CollideCircleAndPolygon ca xfa pb xfb
    | _ => Ret None
    end
| ShapePolygon pa =>
    match b with
    | ShapeCircle cb => CollidePolygonAndCircle pa xfa cb xfb
    | ShapePolygon pb => CollidePolygons pa xfa pb xfb
    | _ => Ret None
    end
| _ => Ret None
end.

(** ** math.go: the remaining operations *)

Definition IsZero (p : Point) : bool := (X p =? 0) && (Y p =? 0).

Record Sweep : Set := mkSweep { P0 : Point; P1 : Point; R0 : float; R1 : float }.

(** [math.Sincos] is a function of the Go standard library; the development
    holds for whatever it computes. *)
Section Trigonometry.

Variable math_Sincos : float -> float * float.

Definition NewRotation (theta : float) : Rotation :=
let '(sin, cos) := math_Sincos theta in Rot sin cos.

Definition NewTransform (position : Point) (rotation : float) : Transform :=
Xf position (NewRotation rotation).

Definition GetTransform (s : Sweep) (t : float) : Transform :=
NewTransform (Add (Mul (P0 s) (1 - t)) (Mul (P1 s) t)) (R0 s * (1 - t) + R1 s * t).

End Trigonometry.

Definition Advance (s : Sweep) (t : float) : Sweep :=
mkSweep (Add (Mul (P0 s) (1 - t)) (Mul (P1 s) t)) (P1 s) (R0 s * (1 - t) + R1 s * t) (R1 s).

(** ** The simplex cache *)

(** An array [[3]int]. *)
Definition int3 : Set := (Z * Z * Z)%type.

Definition int3_get (a : int3) (i : Z) : outcome Z :=
let '(x0, x1, x2) := a in
match i with
| 0%Z => Ret x0
| 1%Z => Ret x1
| 2%Z => Ret x2
| _ => Panic IndexOutOfRange
end.

Definition int3_set (a : int3) (i : Z) (x : Z) : outcome int3 :=
let '(x0, x1, x2) := a in
match i with
| 0%Z => Ret (x, x1, x2)
| 1%Z => Ret (x0, x, x2)
| 2%Z => Ret (x0, x1, x)
| _ => Panic IndexOutOfRange
end.

Record SimplexCache : Set := mkSimplexCache
  { metric : float;   (* length or area *)
    c_count : Z;      (* a byte *)
    c_indexA : int3;
    c_indexB : int3 }.

(** The zero value [&SimplexCache{}]. *)
Definition zero_SimplexCache : SimplexCache :=
mkSimplexCache 0 0 (0, 0, 0)%Z (0, 0, 0)%Z.

Definition Metric (s : Simplex) : outcome float :=
match count s with
| 1%Z => Ret 0
| 2%Z => Ret (Length (Sub (v_p (v0 s)) (v_p (v1 s))))
| 3%Z =>
    let a := v0 s in
    let b := v1 s in
    let c := v2 s in
    Ret (Cross (Sub (v_p b) (v_p a)) (Sub (v_p c) (v_p a)))
| _ => Panic BadSimplexLength
end.

(** The loop [for i := byte(0); i < s.count; i++] of [ReadCache], [todo]
    iterations from [i] on ([s.count] does not change in it). *)
Fixpoint read_vertices (todo : nat) (i : Z) (s : Simplex) (cache : SimplexCache)
  (a : Shape) (xfa : Transform) (b : Shape) (xfb : Transform) : outcome Simplex :=
match todo with
| O => Ret s
| S todo' =>
    v <- v_get s i ;;
    indexA <- int3_get (c_indexA cache) i ;;
    indexB <- int3_get (c_indexB cache) i ;;
    va <- getVertex a indexA ;;
    vb <- getVertex b indexB ;;
    let pa := Transform_Mul xfa va in
    let pb := Transform_Mul xfb vb in
    s <- v_set s i (mkVertex va vb (Sub pb pa) (v_u v) indexA indexB) ;;
    read_vertices todo' (i + 1)%Z s cache a xfa b xfb
end.

Definition ReadCache (s : Simplex) (cache : SimplexCache)
  (a : Shape) (xfa : Transform) (b : Shape) (xfb : Transform) : outcome Simplex :=
let s := set_count s (c_count cache) in
s <- read_vertices (Z.to_nat (count s)) 0%Z s cache a xfa b xfb ;;
if (1 <? count s)%Z then
  let mOld := metric cache in
  mNew <- Metric s ;;
  if (mNew <? 0.5 * mOld) || (2 * mOld <? mNew) || (mNew <? 0.0001) then Ret (set_count s 0)
  else Ret s
else Ret s.

(** The loop of [WriteCache], [todo] iterations from [i] on. *)
Fixpoint write_indices (todo : nat) (i : Z) (s : Simplex) (cache : SimplexCache)
  : outcome SimplexCache :=
match todo with
| O => Ret cache
| S todo' =>
    v <- v_get s i ;;
    ia <- int3_set (c_indexA cache) i (v_indexA v) ;;
    ib <- int3_set (c_indexB cache) i (v_indexB v) ;;
    write_indices todo' (i + 1)%Z s (mkSimplexCache (metric cache) (c_count cache) ia ib)
end.

Definition WriteCache (s : Simplex) (cache : SimplexCache) : outcome SimplexCache :=
m <- Metric s ;;
let cache := mkSimplexCache m (count s) (c_indexA cache) (c_indexB cache) in
write_indices (Z.to_nat (count s)) 0%Z s cache.

Definition WitnessPoints (s : Simplex) : outcome (Point * Point) :=
match count s with
| 1%Z => Ret (v_a (v0 s), v_b (v1 s))
| 2%Z =>
    Ret (Add (Mul (v_a (v0 s)) (v_u (v0 s))) (Mul (v_a (v1 s)) (v_u (v1 s))),
         Add (Mul (v_b (v0 s)) (v_u (v0 s))) (Mul (v_b (v1 s)) (v_u (v1 s))))
| 3%Z =>
    let p := Add (Add (Mul (v_a (v0 s)) (v_u (v0 s))) (Mul (v_a (v1 s)) (v_u (v1 s))))
                 (Mul (v_a (v2 s)) (v_u (v2 s))) in
    Ret (p, p)
| _ => Panic BadSimplexLength
end.

(** ** toi.go: the separation function and the time of impact *)

Inductive axis : Set :=
| axisPoints
| axisFaceA
| axisFaceB.

Record separation : Type := mkSeparation
  { kind : axis;
    shapeA : Shape;     (* proxy for shape A *)
    shapeB : Shape;     (* proxy for shape B *)
    s_axis : Point;     (* separating axis *)
    local : Point }.    (* local point *)

Definition newSeparation (shapeA shapeB : Shape) : separation :=
mkSeparation axisPoints shapeA shapeB (Pt 0 0) (Pt 0 0).

Definition init (s : separation) (cache : SimplexCache) (xfa xfb : Transform)
  : outcome separation :=
let '(indexA0, indexA1, _) := c_indexA cache in
let '(indexB0, indexB1, _) := c_indexB cache in
if (c_count cache =? 1)%Z then
  pointA <- getVertex (shapeA s) indexA0 ;;
  let pointA := Transform_Mul xfa pointA in
  pointB <- getVertex (shapeB s) indexB0 ;;
  let pointB := Transform_Mul xfb pointB in
  Ret (mkSeparation axisPoints (shapeA s) (shapeB s) (Normalize (Sub pointB pointA)) (local s))
else if (indexA0 =? indexA1)%Z then
  pointB1 <- getVertex (shapeB s) indexB0 ;;
  pointB2 <- getVertex (shapeB s) indexB1 ;;
  let axis := CrossPS (Normalize (Sub pointB2 pointB1)) 1 in
  let local := Mul (Add pointB1 pointB2) 0.5 in
  let pointB := Transform_Mul xfb local in
  pointA <- getVertex (shapeA s) indexA0 ;;
  let pointA := Transform_Mul xfa pointA in
  let normal := Rotation_Mul (Rotation_of xfb) axis in
  let dist := Dot (Sub pointA pointB) normal in
  let axis := if dist <? 0 then Neg axis else axis in
  Ret (mkSeparation axisFaceB (shapeA s) (shapeB s) axis local)
else
  pointA1 <- getVertex (shapeA s) indexA0 ;;
  pointA2 <- getVertex (shapeA s) indexA1 ;;
  let axis := CrossPS (Normalize (Sub pointA2 pointA1)) 1 in
  let local := Mul (Add pointA1 pointA2) 0.5 in
  let pointA := Transform_Mul xfa local in
  pointB <- getVertex (shapeB s) indexB0 ;;
  let pointB := Transform_Mul xfb pointB in
  let normal := Rotation_Mul (Rotation_of xfa) axis in
  let dist := Dot (Sub pointB pointA) normal in
  let axis := if dist <? 0 then Neg axis else axis in
  Ret (mkSeparation axisFaceA (shapeA s) (shapeB s) axis local).

Definition MinSeparation (s : separation) (xfa xfb : Transform) : outcome (Z * Z * float) :=
match kind s with
| axisPoints =>
    let axisA := Rotation_MulT (Rotation_of xfa) (s_axis s) in
    let axisB := Rotation_MulT (Rotation_of xfb) (Neg (s_axis s)) in
    indexA <- getSupport (shapeA s) axisA ;;
    pointA <- getVertex (shapeA s) indexA ;;
    let pointA := Transform_Mul xfa pointA in
    indexB <- getSupport (shapeB s) axisB ;;
    pointB <- getVertex (shapeB s) indexB ;;
    let pointB := Transform_Mul xfb pointB in
    Ret (indexA, indexB, Dot (Sub pointB pointA) (s_axis s))
| axisFaceA =>
    let normal := Rotation_Mul (Rotation_of xfa) (s_axis s) in
    let axisB := Rotation_MulT (Rotation_of xfb) (Neg normal) in
    indexB <- getSupport (shapeB s) axisB ;;
    pointB <- getVertex (shapeB s) indexB ;;
    let pointB := Transform_Mul xfb pointB in
    let pointA := Transform_Mul xfa (local s) in
    Ret ((-1)%Z, indexB, Dot (Sub pointB pointA) normal)
| axisFaceB =>
    let normal := Rotation_Mul (Rotation_of xfb) (s_axis s) in
    let axisA := Rotation_MulT (Rotation_of xfa) (Neg normal) in
    indexA <- getSupport (shapeA s) axisA ;;
    pointA <- getVertex (shapeA s) indexA ;;
    let pointA := Transform_Mul xfa pointA in
    let pointB := Transform_Mul xfb (local s) in
    Ret (indexA, (-1)%Z, Dot (Sub pointA pointB) normal)
end.

Definition Evaluate (s : separation) (indexA : Z) (xfa : Transform) (indexB : Z)
  (xfb : Transform) : outcome float :=
match kind s with
| axisPoints =>
    va <- getVertex (shapeA s) indexA ;;
    let a := Transform_Mul xfa va in
    vb <- getVertex (shapeB s) indexB ;;
    let b := Transform_Mul xfb vb in
    Ret (Dot (Sub b a) (s_axis s))
| axisFaceA =>
    let normal := Rotation_Mul (Rotation_of xfa) (s_axis s) in
    let a := Transform_Mul xfa (local s) in
    vb <- getVertex (shapeB s) indexB ;;
    let b := Transform_Mul xfb vb in
    Ret (Dot (Sub b a) normal)
| axisFaceB =>
    let normal := Rotation_Mul (Rotation_of xfb) (s_axis s) in
    va <- getVertex (shapeA s) indexA ;;
    let a := Transform_Mul xfa va in
    let b := Transform_Mul xfb (local s) in
    Ret (Dot (Sub a b) normal)
end.

(** The constants of [TimeOfImpact]: [target], [tolerance] and the constant
    expressions [target+tolerance], [target-tolerance], each rounded once. *)
Definition target : float := 0.01.
Definition tolerance : float := 0.00125.
Definition target_plus_tolerance : float := 0.01125.
Definition target_minus_tolerance : float := 0.00875.

(** How the loop that resolves the deepest point leaves the outer loop. *)
Inductive resolution : Set :=
| Separated             (* return 1.0 *)
| Stop                  (* break loop *)
| Next (t1 : float).    (* on to the next iteration of the outer loop: with
                           t1 = t2 after a break, with t1 as it was when the
                           20 iterations are used up *)

Section TimeOfImpact.

Variable math_Sincos : float -> float * float.

(** The root finder, [todo] iterations from [j] on: [Some t] when it breaks
    with [t2 = t], [None] when it runs to its end. *)
Fixpoint root_finder (todo : nat) (j : Z) (fcn : separation) (indexA indexB : Z)
  (sweepA sweepB : Sweep) (a1 a2 s1 s2 : float) : outcome (option float) :=
match todo with
| O => Ret None
| S todo' =>
    let t := if negb (Z.land j 1 =? 0)%Z
             then a1 + (target - s1) * (a2 - a1) / (s2 - s1)
             else 0.5 * (a1 + a2) in
    let xfa := GetTransform math_Sincos sweepA t in
    let xfb := GetTransform math_Sincos sweepB t in
    s <- Evaluate fcn indexA xfa indexB xfb ;;
    if abs (s - target) <? tolerance then Ret (Some t)
    else
      let '(a1, a2, s1, s2) := if target <? s then (t, a2, s, s2) else (a1, t, s1, s) in
      root_finder todo' (j + 1)%Z fcn indexA indexB sweepA sweepB a1 a2 s1 s2
end.

(** The loop that resolves the deepest point, [todo] iterations. *)
Fixpoint resolve (todo : nat) (fcn : separation) (sweepA sweepB : Sweep) (t1 t2 : float)
  : outcome resolution :=
match todo with
| O => Ret (Next t1)
| S todo' =>
    let xfa := GetTransform math_Sincos sweepA t2 in
    let xfb := GetTransform math_Sincos sweepB t2 in
    m <- MinSeparation fcn xfa xfb ;;
    let '(indexA, indexB, s2) := m in
    if target_plus_tolerance <? s2 then Ret Separated
    else if target_minus_tolerance <? s2 then Ret (Next t2)
    else
      let xfa := GetTransform math_Sincos sweepA t1 in
      let xfb := GetTransform math_Sincos sweepB t1 in
      s1 <- Evaluate fcn indexA xfa indexB xfb ;;
      if s1 <? target_minus_tolerance then Ret Stop
      else if s1 <=? target_plus_tolerance then Ret Stop
      else
        r <- root_finder 50 0%Z fcn indexA indexB sweepA sweepB t1 t2 s1 s2 ;;
        let t2 := match r with
                  | Some t => t
                  | None => t2
                  end in
        resolve todo' fcn sweepA sweepB t1 t2
end.

(** The outer loop, [todo] iterations; the result is the value returned and
    the simplex the caller's pointer is left with. *)
Fixpoint toi_loop (todo : nat) (fuel : nat) (simplex : Simplex) (cache : SimplexCache)
  (a : Shape) (sweepA : Sweep) (b : Shape) (sweepB : Sweep) (t1 : float)
  : outcome (float * Simplex) :=
match todo with
| O => Ret (t1, simplex)
| S todo' =>
    let xfa := GetTransform math_Sincos sweepA t1 in
    let xfb := GetTransform math_Sincos sweepB t1 in
    simplex <- ReadCache simplex cache a xfa b xfb ;;
    simplex <- GJK fuel simplex a xfa b xfb ;;
    cache <- WriteCache simplex cache ;;
    p <- ClosestPoint simplex ;;
    let distance := Length p in
    if distance <=? 0 then Ret (0, simplex)
    else if distance <? target_plus_tolerance then Ret (t1, simplex)
    else
      fcn <- init (newSeparation a b) cache xfa xfb ;;
      r <- resolve 20 fcn sweepA sweepB t1 1 ;;
      match r with
      | Separated => Ret (1, simplex)
      | Stop => Ret (t1, simplex)
      | Next t1 => toi_loop todo' fuel simplex cache a sweepA b sweepB t1
      end
end.

Definition TimeOfImpact (fuel : nat) (simplex : Simplex) (a : Shape) (sweepA : Sweep)
  (b : Shape) (sweepB : Sweep) : outcome (float * Simplex) :=
toi_loop 100 fuel simplex zero_SimplexCache a sweepA b sweepB 0.

End TimeOfImpact.

(** ** Inputs and comparisons the statements below use *)

(** [|a - b| <= eps], as a test written in Go would compute it. *)
Definition within (eps a b : float) : bool := abs (a - b) <=? eps.

(** The two values are the same number (either zero for the other), or both
    are NaN. *)
Definition same (x y : float) : bool := (x =? y) || (is_nan x && is_nan y).

Definition is_builtin (s : Shape) : bool :=
match s with
| ShapeCircle _ | ShapePolygon _ => true
| _ => false
end.

Definition unit_circle (x y : float) : Shape := ShapeCircle (mkCircle (Pt x y) 1).

(** A simplex whose three Minkowski points are [pa], [pb], [pc], each fresh
    from the support step ([u = 1]). *)
Definition fresh_vertex (p : Point) (ia ib : Z) : vertex := mkVertex (Pt 0 0) p p 1 ia ib.

Definition triangle_simplex (pa pb pc : Point) : Simplex :=
mkSimplex 3 (fresh_vertex pa 0 0) (fresh_vertex pb 0 1) (fresh_vertex pc 0 2).

(** The outcome of the first [n] turns of the main loop from [s]: [Again s']
    when the loop is still running after them, with [s'] at its head. *)
Fixpoint GJK_after (n : nat) (a : Shape) (xfa : Transform) (b : Shape) (xfb : Transform)
  (s : Simplex) : outcome turn :=
match n with
| O => Ret (Again s)
| S n' =>
    t <- GJK_turn a xfa b xfb s ;;
    match t with
    | Done s' => Ret (Done s')
    | Again s' => GJK_after n' a xfa b xfb s'
    end
end.

(** The exact value of a finite float is [m * 2^e]; [scaled base x] is the
    integer [x / 2^base] when that is an integer. *)
Definition scaled (base : Z) (x : float) : option Z :=
match Prim2SF x with
| S754_zero _ => Some 0%Z
| S754_finite s m e =>
    if (base <=? e)%Z then Some ((if s then Z.neg m else Z.pos m) * 2 ^ (e - base))%Z
    else None
| _ => None
end.

(** The sign of the turn a -> b -> c, computed exactly: [Some Gt] is the
    turn of [Rectangle]'s corners, the order [NewPolygon] expects. *)
Definition exact_turn (a b c : Point) : option comparison :=
let base := (-1074)%Z in
match scaled base (X a), scaled base (Y a), scaled base (X b), scaled base (Y b),
      scaled base (X c), scaled base (Y c) with
| Some ax, Some ay, Some bx, Some by_, Some cx, Some cy =>
    Some (((bx - ax) * (cy - by_) - (by_ - ay) * (cx - bx)) ?= 0)%Z
| _, _, _, _, _, _ => None
end.

(** Every corner of the closed polygon [pts] turns the way [Rectangle]'s
    corners do: the polygon is strictly convex and listed in the order the
    constructor expects. *)
Fixpoint turns_from (first second : Point) (pts : list Point) : bool :=
match pts with
| a :: ((b :: rest') as rest) =>
    let c := match rest' with
             | c :: _ => c
             | [] => first
             end in
    match exact_turn a b c with
    | Some Gt => turns_from first second rest
    | _ => false
    end
| [a] =>
    match exact_turn a first second with
    | Some Gt => true
    | _ => false
    end
| [] => true
end.

Definition strictly_convex (pts : list Point) : bool :=
match pts with
| first :: second :: _ :: _ => turns_from first second pts
| _ => false
end.

(** A thin quadrilateral: four points that the decimal literals put on the
    line through the origin with slope 1/3 and that binary64 rounds to a
    strictly convex polygon that passes within 1e-16 of the origin. *)
Definition needle_points : list Point :=
[ Pt 3.3 1.1; Pt (-2.1) (-0.7); Pt (-0.9) (-0.3); Pt 1.2 0.4 ].

Definition needle : Shape := ShapePolygon (NewPolygon needle_points).

Definition well_formed (s : Shape) : bool :=
match s with
| ShapeCircle _ => true
| ShapePolygon p => (length (Normals p) =? length (Points p))%nat
| _ => false
end.

Definition disc (r : float) : Shape := ShapeCircle (mkCircle (Pt 0 0) r).

Definition box (x y : float) : Shape := ShapePolygon (Rect x y 2 2).

(** A triangle whose apex (0.5, 0) is inside [box 0 0]. *)
Definition wedge : Shape := ShapePolygon (NewPolygon [ Pt 0.5 0; Pt 2 (-1); Pt 2 1 ]).

(** ** Relations between the runs of a call and of the call with its
    arguments swapped *)

(** Two binary64 values that are the same number: equal, or both a zero. *)
Definition sf_same (x y : spec_float) : Prop :=
x = y \/ ((exists s, x = S754_zero s) /\ (exists t, y = S754_zero t)).

(** [eqv x y]: the floats are the same number (or both NaN); [opv x y]: each
    is the other negated. *)
Definition eqv (x y : float) : Prop := sf_same (Prim2SF x) (Prim2SF y).
Definition opv (x y : float) : Prop := sf_same (Prim2SF x) (SFopp (Prim2SF y)).

Definition peq (p q : Point) : Prop := eqv (X p) (X q) /\ eqv (Y p) (Y q).
Definition pop (p q : Point) : Prop := opv (X p) (X q) /\ opv (Y p) (Y q).

(** The two calls end the same way: both return, with related results, or
    both panic for the same reason, or both run out of fuel. *)
Definition both {A : Type} (R : A -> A -> Prop) (r r' : outcome A) : Prop :=
match r, r' with
| Ret x, Ret x' => R x x'
| Panic w, Panic w' => w = w'
| OutOfFuel, OutOfFuel => True
| _, _ => False
end.

(** A call that returns, or panics on an index. *)
Definition index_panic_only {A : Type} (c : outcome A) : Prop :=
match c with
| Ret _ => True
| Panic why => why = IndexOutOfRange
| OutOfFuel => False
end.

(** A simplex vertex of [GJK(a, xfa, b, xfb)] and the one [GJK(b, xfb, a, xfa)]
    holds in its place: the roles of the two shapes are exchanged and the
    Minkowski point is the opposite one.  The weight [u] is left out: a
    weight is read only from a simplex of two vertices that [evolve] has
    just written, which [weights_agree] covers. *)
Definition mirror_v (x x' : vertex) : Prop :=
v_a x = v_b x' /\ v_b x = v_a x' /\ pop (v_p x) (v_p x')
/\ v_indexA x = v_indexB x' /\ v_indexB x = v_indexA x'.

Definition mirror_s (s s' : Simplex) : Prop :=
count s = count s' /\ mirror_v (v0 s) (v0 s') /\ mirror_v (v1 s) (v1 s')
/\ mirror_v (v2 s) (v2 s').

Definition weights_agree (s s' : Simplex) : Prop :=
count s = 2%Z ->
eqv (v_u (v0 s)) (v_u (v0 s')) /\ eqv (v_u (v1 s)) (v_u (v1 s')).

Definition mirror_turn (t t' : turn) : Prop :=
match t, t' with
| Done s, Done s' => mirror_s s s' /\ weights_agree s s'
| Again s, Again s' => mirror_s s s'
| _, _ => False
end.

(** The pairs on which [Collide] makes a choice that does not commute with
    swapping its arguments: two circles whose computed squared centre
    distance is zero (the normal is then the fixed (1, 0)), and two polygons
    whose maximal separations are both negative with neither greater than the
    other (each call then takes its own first argument as the reference
    polygon). *)
Definition arbitrary_choice (a : Shape) (xfa : Transform) (b : Shape) (xfb : Transform) : bool :=
match a, b with
| ShapeCircle ca, ShapeCircle cb =>
    LengthSquared (Sub (Add (Position xfb) (Center cb)) (Add (Position xfa) (Center ca))) =? 0
| ShapePolygon pa, ShapePolygon pb =>
    match findMaxSeparation pa xfa pb xfb, findMaxSeparation pb xfb pa xfa with
    | Ret (_, separationA), Ret (_, separationB) =>
        negb (0 <=? separationA) && negb (0 <=? separationB)
        && negb (separationA <? separationB) && negb (separationB <? separationA)
    | _, _ => false
    end
| _, _ => false
end.

(** Both absent, or both present with the same depth and opposite normals. *)
Definition mirrored (c c' : option Collision) : Prop :=
match c, c' with
| None, None => True
| Some c, Some c' =>
    Depth c = Depth c'
    /\ same (X (Normal c)) (- X (Normal c')) = true
    /\ same (Y (Normal c)) (- Y (Normal c')) = true
| _, _ => False
end.

(** What the specification states of two results: both absent, or both
    present with equal depths and normals that are negatives of each other
    within [eps]. *)
Definition symmetric_within (eps : float) (c c' : option Collision) : bool :=
match c, c' with
| None, None => true
| Some c, Some c' =>
    (Depth c =? Depth c')
    && within eps (X (Normal c)) (- X (Normal c'))
    && within eps (Y (Normal c)) (- Y (Normal c'))
| _, _ => false
end.

(** What holds of the two results of a pair: exact mirror images when the
    pair is not tied; in a tie, symmetric within 1e-6, as the specification
    states it. *)
Definition symmetric_as (tied : bool) (c c' : option Collision) : Prop :=
if tied then symmetric_within 1e-6 c c' = true else mirrored c c'.

Definition panic_eqb (w w' : panic) : bool :=
match w, w' with
| IndexOutOfRange, IndexOutOfRange
| NilDereference, NilDereference
| BadSimplexLength, BadSimplexLength => true
| _, _ => false
end.

(** Two circles whose computed squared centre distance is zero: [Collide]
    gives both calls the fixed normal (1, 0). *)
Definition coincident_centres (a : Shape) (xfa : Transform) (b : Shape) (xfb : Transform)
  : bool :=
match a, b with
| ShapeCircle ca, ShapeCircle cb =>
    LengthSquared (Sub (Add (Position xfb) (Center cb)) (Add (Position xfa) (Center ca))) =? 0
| _, _ => false
end.

(** Two polygons in a tie: both maximal separations are negative and
    neither is greater than the other. *)
Definition tie (separationA separationB : float) : bool :=
negb (0 <=? separationA) && negb (0 <=? separationB)
&& negb (separationA <? separationB) && negb (separationB <? separationA).

(** In a tie each call of [CollidePolygons] keeps its own first argument as
    the reference polygon: one call returns the contact of A's reference edge
    against B, the other the contact of B's reference edge against A, neither
    flipped.  [tie_breaks_symmetry] holds when the two polygons are in a tie
    and these two contacts are not symmetric (the two reference edges do not
    face each other, for instance). *)
Definition tie_breaks_symmetry (a : Shape) (xfa : Transform) (b : Shape) (xfb : Transform)
  : bool :=
match a, b with
| ShapePolygon pa, ShapePolygon pb =>
    match findMaxSeparation pa xfa pb xfb, findMaxSeparation pb xfb pa xfa with
    | Ret (edgeA, separationA), Ret (edgeB, separationB) =>
        tie separationA separationB
        && negb match clip_incident pa xfa pb xfb edgeA false,
                      clip_incident pb xfb pa xfa edgeB false with
                | Ret c, Ret c' => symmetric_within 1e-6 c c'
                | Panic w, Panic w' => panic_eqb w w'
                | _, _ => false
                end
    | _, _ => false
    end
| _, _ => false
end.

(** A unit square centred at (x, y). *)
Definition unit_square (x y : float) : Shape := ShapePolygon (Rect x y 1 1).

(** ** Notions the further properties use *)

(** A shape with a vertex to offer: a circle, or a polygon with at least one
    point. *)
Definition populated (s : Shape) : bool :=
match s with
| ShapeCircle _ => true
| ShapePolygon p => (0 <? len (Points p))%Z
| _ => false
end.

(** A simplex vertex that holds a pair of support points of [a] and [b]:
    the two vertices at its indices, and their difference after the
    transforms. *)
Definition vertex_consistent (a : Shape) (xfa : Transform) (b : Shape) (xfb : Transform)
  (x : vertex) : Prop :=
getVertex a (v_indexA x) = Ret (v_a x)
/\ getVertex b (v_indexB x) = Ret (v_b x)
/\ v_p x = Sub (Transform_Mul xfb (v_b x)) (Transform_Mul xfa (v_a x)).

(** The vertices in use, the first [count] of them, are consistent. *)
Definition consistent (a : Shape) (xfa : Transform) (b : Shape) (xfb : Transform)
  (s : Simplex) : Prop :=
((1 <= count s)%Z -> vertex_consistent a xfa b xfb (v0 s))
/\ ((2 <= count s)%Z -> vertex_consistent a xfa b xfb (v1 s))
/\ ((3 <= count s)%Z -> vertex_consistent a xfa b xfb (v2 s)).

(** The body of the outer loop of [findMaxSeparation] for the edge of [a]
    with normal [n] that leaves the vertex [v]: the least distance of a point
    of [b] from that edge's line. *)
Definition edge_separation (xfa : Transform) (b : Polygon) (xfb : Transform) (n v : Point)
  : float :=
deepest (Rotation_MulT (Rotation_of xfb) (Rotation_Mul (Rotation_of xfa) n))
        (Transform_MulT xfb (Transform_Mul xfa v)) (Points b) MaxFloat64.

(** The test of [ReadCache] that resets the simplex, for the old and the new
    metric. *)
Definition flushes (mOld mNew : float) : bool :=
(mNew <? 0.5 * mOld) || (2 * mOld <? mNew) || (mNew <? 0.0001).

(** A cache whose entries in use are indices of vertices of [a] and [b]. *)
Definition cache_valid (a b : Shape) (cache : SimplexCache) : Prop :=
(0 <= c_count cache <= 3)%Z
/\ forall i, (0 <= i < c_count cache)%Z ->
     exists ia ib va vb,
       int3_get (c_indexA cache) i = Ret ia /\ int3_get (c_indexB cache) i = Ret ib
       /\ getVertex a ia = Ret va /\ getVertex b ib = Ret vb.

(** The simplex [GJK] leaves for [box 0 0] and the unit circle at (3, 0.5):
    the box's right edge against the circle's centre. *)
Definition edge_simplex : Simplex :=
mkSimplex 2 (mkVertex (Pt 1 1) (Pt 3 0.5) (Pt 2 (-0.5)) 0.75 2 0)
            (mkVertex (Pt 1 (-1)) (Pt 3 0.5) (Pt 2 1.5) 0.25 1 0)
            zero_vertex.

(** A stand-in for [math.Sincos] that agrees with it at 0, [Sincos(0)] being
    (0, 1): the only angle the sweeps [still] and [slide], which do not
    rotate, ask for at a finite time. *)
Definition Sincos_unrotated (theta : float) : float * float := (0, 1).

Definition still (p : Point) : Sweep := mkSweep p p 0 0.
Definition slide (p q : Point) : Sweep := mkSweep p q 0 0.

(** A key that orders the binary64 values as [SFcompare] does, triples
    compared lexicographically; NaN has none. *)
Definition SFkey (x : spec_float) : option (Z * Z * Z) :=
match x with
| S754_nan => None
| S754_zero _ => Some (0, 0, 0)%Z
| S754_infinity s => Some (if s then (-2) else 2, 0, 0)%Z
| S754_finite s m e => Some (if s then (-1, - e, Z.neg m) else (1, e, Z.pos m))%Z
end.

Definition key_compare (a b : Z * Z * Z) : comparison :=
let '(a1, a2, a3) := a in
let '(b1, b2, b3) := b in
match (a1 ?= b1)%Z with
| Eq => match (a2 ?= b2)%Z with
        | Eq => (a3 ?= b3)%Z
        | c => c
        end
| c => c
end.

Definition key_lt (a b : Z * Z * Z) : Prop :=
let '(a1, a2, a3) := a in
let '(b1, b2, b3) := b in
(a1 < b1 \/ (a1 = b1 /\ (a2 < b2 \/ (a2 = b2 /\ a3 < b3))))%Z.

(** The key of a float: [None] for NaN. *)
Definition fkey (x : float) : option (Z * Z * Z) := SFkey (Prim2SF x).

(** NaN or an infinity. *)
Definition sf_unbounded (x : spec_float) : Prop :=
match x with
| S754_nan | S754_infinity _ => True
| _ => False
end.

Definition unbounded (x : float) : Prop := sf_unbounded (Prim2SF x).

Definition punbounded (p : Point) : Prop := unbounded (X p) /\ unbounded (Y p).

(** ** Binary64 facts the proofs need *)

Lemma SFleb_zero_inv : forall x,
  SFleb x (S754_zero false) = true ->
  (exists s, x = S754_zero s) \/ x = S754_infinity true \/
  (exists m e, x = S754_finite true m e).
Proof.
  intros [s | s | | s m e]; cbn; try discriminate.
  - left; eauto.
  - destruct s; try discriminate; auto.
  - destruct s; try discriminate; right; right; eauto.
Qed.

Lemma binary_round_aux_sign : forall s m e l,
  let r := binary_round_aux prec emax s m e l in
  r = S754_zero s \/ r = S754_infinity s \/ r = S754_nan \/
  (exists m' e', r = S754_finite s m' e').
Proof.
  intros s m e l. unfold binary_round_aux.
  destruct (shr_fexp prec emax m e l) as [mrs' e'].
  destruct (shr_fexp prec emax _ e' loc_Exact) as [mrs'' e''].
  destruct (shr_m mrs'') as [ | q | q ]; cbn zeta.
  - auto.
  - destruct (Z.leb e'' (Z.sub emax prec)); eauto 6.
  - auto.
Qed.

Lemma SFltb_nonneg_zero : forall r s,
  r = S754_zero s \/ r = S754_infinity false \/ r = S754_nan \/
  (exists m e, r = S754_finite false m e) ->
  SFltb r (S754_zero false) = false.
Proof.
  intros r s [-> | [-> | [-> | (m & e & ->)]]]; reflexivity.
Qed.

(** The product of two floats that are [<= 0] is never [< 0]. *)
Lemma mul_nonpos_nonpos : forall d1 d2 : float,
  (d1 <=? 0) = true -> (d2 <=? 0) = true -> (d1 * d2 <? 0) = false.
Proof.
  intros d1 d2. rewrite !leb_spec, ltb_spec, mul_spec.
  change (Prim2SF 0) with (S754_zero false).
  intros H1 H2.
  apply SFleb_zero_inv in H1. apply SFleb_zero_inv in H2.
  unfold SF64mul.
  destruct H1 as [(s1 & ->) | [-> | (m1 & e1 & ->)]];
    destruct H2 as [(s2 & ->) | [-> | (m2 & e2 & ->)]]; try reflexivity.
  - cbn. apply SFltb_nonneg_zero with (s := false).
    pose proof (binary_round_aux_sign false (Zpos (Pos.mul m1 m2)) (Z.add e1 e2) loc_Exact) as H.
    cbn zeta in H. tauto.
Qed.

Lemma sf_same_refl : forall x, sf_same x x.
Proof. now left. Qed.

Lemma sf_same_sym : forall x y, sf_same x y -> sf_same y x.
Proof. intros x y [-> | [H1 H2]]; [ now left | now right ]. Qed.

Lemma sf_same_trans : forall x y z, sf_same x y -> sf_same y z -> sf_same x z.
Proof.
  intros x y z [-> | [H1 H2]] [<- | [H3 H4]];
    try (now left); try (now right); right; split; assumption.
Qed.

Lemma sf_same_zero : forall s t, sf_same (S754_zero s) (S754_zero t).
Proof. intros; right; split; eauto. Qed.

Ltac sf_cases H :=
  destruct H as [ H | [ [? H] [? ?] ] ]; subst.

Lemma SFopp_same : forall x y, sf_same x y -> sf_same (SFopp x) (SFopp y).
Proof. intros x y H; sf_cases H; [ apply sf_same_refl | apply sf_same_zero ]. Qed.

Lemma SFopp_involutive : forall x, SFopp (SFopp x) = x.
Proof. intros [ s | s | | s m e ]; cbn; now rewrite ?negb_involutive. Qed.

Lemma binary_round_aux_opp : forall s m e l,
  binary_round_aux prec emax (negb s) m e l = SFopp (binary_round_aux prec emax s m e l).
Proof.
  intros s m e l. unfold binary_round_aux.
  destruct (shr_fexp prec emax m e l) as [mrs' e'].
  destruct (shr_fexp prec emax _ e' loc_Exact) as [mrs'' e''].
  destruct (shr_m mrs'') as [ | q | q ]; cbn zeta; try reflexivity.
  destruct (Z.leb e'' (Z.sub emax prec)); reflexivity.
Qed.

Lemma binary_round_opp : forall s m e,
  binary_round prec emax (negb s) m e = SFopp (binary_round prec emax s m e).
Proof.
  intros s m e. unfold binary_round.
  destruct (shl_align m e _) as [mz ez]. apply binary_round_aux_opp.
Qed.

Lemma binary_normalize_opp : forall z e,
  sf_same (binary_normalize prec emax (Z.opp z) e false)
          (SFopp (binary_normalize prec emax z e false)).
Proof.
  intros [ | p | p ] e; cbn.
  - apply sf_same_zero.
  - left. apply (binary_round_opp false).
  - left. rewrite <- (binary_round_opp true). reflexivity.
Qed.

Lemma cond_Zopp_negb : forall s z, cond_Zopp (negb s) z = Z.opp (cond_Zopp s z).
Proof. intros [|] z; cbn; lia. Qed.

(** multiplication *)
Lemma SFmul_opp_l : forall x y, SFmul prec emax (SFopp x) y = SFopp (SFmul prec emax x y).
Proof.
  intros [ sx | sx | | sx mx ex ] [ sy | sy | | sy my ey ]; cbn;
    rewrite <- ?negb_xorb_l; try reflexivity.
  apply binary_round_aux_opp.
Qed.

Lemma SFmul_opp_r : forall x y, SFmul prec emax x (SFopp y) = SFopp (SFmul prec emax x y).
Proof.
  intros [ sx | sx | | sx mx ex ] [ sy | sy | | sy my ey ]; cbn;
    rewrite <- ?negb_xorb_r; try reflexivity.
  apply binary_round_aux_opp.
Qed.

Lemma SFmul_same : forall x x' y y', sf_same x x' -> sf_same y y' ->
  sf_same (SFmul prec emax x y) (SFmul prec emax x' y').
Proof.
  intros x x' y y' Hx Hy; sf_cases Hx; sf_cases Hy.
  - apply sf_same_refl.
  - destruct x' as [ s | s | | s m e ]; cbn; try apply sf_same_zero; apply sf_same_refl.
  - destruct y' as [ s | s | | s m e ]; cbn; try apply sf_same_zero; apply sf_same_refl.
  - cbn. apply sf_same_zero.
Qed.

(** addition *)
Lemma SFadd_comm : forall x y, SFadd prec emax x y = SFadd prec emax y x.
Proof.
  intros [ sx | sx | | sx mx ex ] [ sy | sy | | sy my ey ]; cbn; try reflexivity.
  - destruct sx, sy; reflexivity.
  - destruct sx, sy; reflexivity.
  - rewrite (Z.min_comm ey ex). f_equal. apply Z.add_comm.
Qed.

Lemma SFadd_opp : forall x y,
  sf_same (SFadd prec emax (SFopp x) (SFopp y)) (SFopp (SFadd prec emax x y)).
Proof.
  intros [ sx | sx | | sx mx ex ] [ sy | sy | | sy my ey ]; cbn;
    try apply sf_same_refl.
  - destruct sx, sy; cbn; apply sf_same_zero.
  - destruct sx, sy; cbn; apply sf_same_refl.
  - rewrite !cond_Zopp_negb, <- Z.opp_add_distr. apply binary_normalize_opp.
Qed.

Lemma SFadd_same : forall x x' y y', sf_same x x' -> sf_same y y' ->
  sf_same (SFadd prec emax x y) (SFadd prec emax x' y').
Proof.
  intros x x' y y' [ -> | [ [s ->] [t ->] ] ] [ -> | [ [s' ->] [t' ->] ] ].
  - apply sf_same_refl.
  - destruct x' as [ sx | sx | | sx m e ]; cbn; try apply sf_same_refl.
    destruct sx, s', t'; apply sf_same_zero.
  - destruct y' as [ sy | sy | | sy m e ]; cbn; try apply sf_same_refl.
    destruct sy, s, t; apply sf_same_zero.
  - destruct s, t, s', t'; apply sf_same_zero.
Qed.

Lemma SFsub_add : forall x y, SFsub prec emax x y = SFadd prec emax x (SFopp y).
Proof.
  intros [ sx | sx | | sx mx ex ] [ sy | sy | | sy my ey ]; cbn; try reflexivity.
  - destruct sx, sy; reflexivity.
  - destruct sx, sy; reflexivity.
  - rewrite cond_Zopp_negb. reflexivity.
Qed.

(** division *)
Lemma SFdiv_opp_l : forall x y, SFdiv prec emax (SFopp x) y = SFopp (SFdiv prec emax x y).
Proof.
  intros [ sx | sx | | sx mx ex ] [ sy | sy | | sy my ey ]; cbn;
    rewrite <- ?negb_xorb_l; try reflexivity.
  destruct (SFdiv_core_binary prec emax (Z.pos mx) ex (Z.pos my) ey) as [[mz ez] lz].
  apply binary_round_aux_opp.
Qed.

Lemma SFdiv_same_l : forall x x' y, sf_same x x' ->
  sf_same (SFdiv prec emax x y) (SFdiv prec emax x' y).
Proof.
  intros x x' y Hx; sf_cases Hx; [ apply sf_same_refl | ].
  destruct y as [ s | s | | s m e ]; cbn; try apply sf_same_zero; apply sf_same_refl.
Qed.

(** comparison *)
Lemma SFcompare_same : forall x x' y y', sf_same x x' -> sf_same y y' ->
  SFcompare x y = SFcompare x' y'.
Proof.
  intros x x' y y' [ -> | [ [s ->] [t ->] ] ] [ -> | [ [s' ->] [t' ->] ] ];
    try reflexivity;
    try (destruct x' as [ sx | sx | | sx m e ]; reflexivity);
    destruct y' as [ sy | sy | | sy m e ]; reflexivity.
Qed.

Lemma SFcompare_refl : forall x, x <> S754_nan -> SFcompare x x = Some Eq.
Proof.
  intros [ s | s | | s m e ] H; cbn; try reflexivity; try congruence.
  - destruct s; reflexivity.
  - rewrite Z.compare_refl, Pos.compare_cont_refl. destruct s; reflexivity.
Qed.

Lemma SFcompare_Eq_same : forall x y, SFcompare x y = Some Eq -> sf_same x y.
Proof.
  intros [ sx | sx | | sx mx ex ] [ sy | sy | | sy my ey ]; cbn; intros H;
    try discriminate H; try (destruct sx; discriminate H); try (destruct sy; discriminate H).
  - apply sf_same_zero.
  - destruct sx, sy; try discriminate H; apply sf_same_refl.
  - destruct sx, sy; try discriminate H;
      destruct (Z.compare ex ey) eqn:He; try discriminate H;
      destruct (Pos.compare_cont Eq mx my) eqn:Hm; try discriminate H;
      apply Z.compare_eq in He; apply Pos.compare_eq in Hm; subst;
      apply sf_same_refl.
Qed.

Lemma eqv_refl : forall x, eqv x x.
Proof. intros; apply sf_same_refl. Qed.

Lemma eqv_sym : forall x y, eqv x y -> eqv y x.
Proof. intros x y; apply sf_same_sym. Qed.

Lemma eqv_trans : forall x y z, eqv x y -> eqv y z -> eqv x z.
Proof. intros x y z; apply sf_same_trans. Qed.

Lemma opv_sym : forall x y, opv x y -> opv y x.
Proof.
  unfold opv; intros x y H. apply SFopp_same in H.
  rewrite SFopp_involutive in H. now apply sf_same_sym.
Qed.

Lemma opv_opp_r : forall x y, opv x y <-> eqv x (- y).
Proof. intros; unfold opv, eqv; now rewrite opp_spec. Qed.

Lemma opv_opp_l : forall x y, opv x y -> eqv (- x) y.
Proof.
  intros x y H. apply opv_sym in H. apply eqv_sym. now apply opv_opp_r.
Qed.

Lemma eqv_opp : forall x y, eqv x y -> eqv (- x) (- y).
Proof. unfold eqv; intros x y H; rewrite !opp_spec; now apply SFopp_same. Qed.

Lemma opv_opp : forall x y, opv x y -> opv (- x) (- y).
Proof.
  unfold opv; intros x y H; rewrite !opp_spec; now apply SFopp_same.
Qed.

Lemma eqv_opp_opv : forall x y, eqv x y -> opv (- x) y.
Proof. unfold eqv, opv; intros x y H; rewrite opp_spec; now apply SFopp_same. Qed.

Lemma mul_eqv : forall a a' b b', eqv a a' -> eqv b b' -> eqv (a * b) (a' * b').
Proof. unfold eqv; intros; rewrite !mul_spec; now apply SFmul_same. Qed.

Lemma mul_opv_l : forall a a' b b', opv a a' -> eqv b b' -> opv (a * b) (a' * b').
Proof.
  unfold eqv, opv; intros a a' b b' Ha Hb; rewrite !mul_spec.
  unfold SF64mul. rewrite <- SFmul_opp_l. now apply SFmul_same.
Qed.

Lemma mul_opv_r : forall a a' b b', eqv a a' -> opv b b' -> opv (a * b) (a' * b').
Proof.
  unfold eqv, opv; intros a a' b b' Ha Hb; rewrite !mul_spec.
  unfold SF64mul. rewrite <- SFmul_opp_r. now apply SFmul_same.
Qed.

Lemma mul_opv_opv : forall a a' b b', opv a a' -> opv b b' -> eqv (a * b) (a' * b').
Proof.
  unfold eqv, opv; intros a a' b b' Ha Hb; rewrite !mul_spec. unfold SF64mul.
  rewrite <- (SFopp_involutive (SFmul prec emax (Prim2SF a') (Prim2SF b'))).
  rewrite <- SFmul_opp_l, <- SFmul_opp_r. now apply SFmul_same.
Qed.

Lemma add_eqv : forall a a' b b', eqv a a' -> eqv b b' -> eqv (a + b) (a' + b').
Proof. unfold eqv; intros; rewrite !add_spec; now apply SFadd_same. Qed.

Lemma add_opv : forall a a' b b', opv a a' -> opv b b' -> opv (a + b) (a' + b').
Proof.
  unfold opv; intros a a' b b' Ha Hb; rewrite !add_spec. unfold SF64add.
  eapply sf_same_trans; [ | apply SFadd_opp ]. now apply SFadd_same.
Qed.

Lemma sub_eqv : forall a a' b b', eqv a a' -> eqv b b' -> eqv (a - b) (a' - b').
Proof.
  unfold eqv; intros; rewrite !sub_spec. unfold SF64sub. rewrite !SFsub_add.
  apply SFadd_same; [ assumption | now apply SFopp_same ].
Qed.

Lemma sub_opv : forall a a' b b', opv a a' -> opv b b' -> opv (a - b) (a' - b').
Proof.
  unfold opv; intros a a' b b' Ha Hb; rewrite !sub_spec. unfold SF64sub.
  rewrite !SFsub_add.
  eapply sf_same_trans; [ | apply SFadd_opp ].
  apply SFadd_same; [ assumption | now apply SFopp_same ].
Qed.

(** [a - b] and [b - a] are opposite values. *)
Lemma sub_swap : forall a a' b b', eqv a a' -> eqv b b' -> opv (a - b) (b' - a').
Proof.
  unfold eqv, opv; intros a a' b b' Ha Hb; rewrite !sub_spec. unfold SF64sub.
  rewrite !SFsub_add.
  eapply sf_same_trans; [ | apply SFadd_opp ].
  rewrite SFopp_involutive, SFadd_comm.
  apply SFadd_same; [ now apply SFopp_same | assumption ].
Qed.

Lemma div_eqv_l : forall a a' l, eqv a a' -> eqv (a / l) (a' / l).
Proof. unfold eqv; intros; rewrite !div_spec; now apply SFdiv_same_l. Qed.

Lemma div_opv_l : forall a a' l, opv a a' -> opv (a / l) (a' / l).
Proof.
  unfold opv; intros a a' l Ha; rewrite !div_spec. unfold SF64div.
  rewrite <- SFdiv_opp_l. now apply SFdiv_same_l.
Qed.

Lemma ltb_eqv : forall a a' b b', eqv a a' -> eqv b b' -> (a <? b) = (a' <? b').
Proof.
  unfold eqv; intros a a' b b' Ha Hb; rewrite !ltb_spec. unfold SFltb.
  now rewrite (SFcompare_same _ _ _ _ Ha Hb).
Qed.

Lemma leb_eqv : forall a a' b b', eqv a a' -> eqv b b' -> (a <=? b) = (a' <=? b').
Proof.
  unfold eqv; intros a a' b b' Ha Hb; rewrite !leb_spec. unfold SFleb.
  now rewrite (SFcompare_same _ _ _ _ Ha Hb).
Qed.

Lemma eqb_eqv : forall a a' b b', eqv a a' -> eqv b b' -> (a =? b) = (a' =? b').
Proof.
  unfold eqv; intros a a' b b' Ha Hb; rewrite !eqb_spec. unfold SFeqb.
  now rewrite (SFcompare_same _ _ _ _ Ha Hb).
Qed.

(** The square of a float does not see its sign. *)
Lemma sq_eqv : forall a a', eqv a a' -> a * a = a' * a'.
Proof.
  unfold eqv; intros a a' [ H | [ [s H] [t H'] ] ]; apply Prim2SF_inj; rewrite !mul_spec.
  - now rewrite H.
  - rewrite H, H'. cbn. now destruct s, t.
Qed.

Lemma sq_opv : forall a a', opv a a' -> a * a = a' * a'.
Proof.
  intros a a' H. apply opv_opp_r in H. rewrite (sq_eqv _ _ H).
  apply Prim2SF_inj. rewrite !mul_spec, !opp_spec. unfold SF64mul.
  now rewrite SFmul_opp_l, SFmul_opp_r, SFopp_involutive.
Qed.

Lemma add_comm : forall a b : float, a + b = b + a.
Proof.
  intros a b. apply Prim2SF_inj. rewrite !add_spec. apply SFadd_comm.
Qed.

Lemma same_spec : forall x y, same x y = true <-> eqv x y.
Proof.
  intros x y. unfold same, is_nan, eqv. rewrite !eqb_spec. unfold SFeqb. split.
  - intros H. apply orb_true_iff in H as [ H | H ].
    + destruct (SFcompare (Prim2SF x) (Prim2SF y)) as [ [ | | ] | ] eqn:Hc;
        try discriminate H. now apply SFcompare_Eq_same.
    + apply andb_true_iff in H as [ Hx Hy ].
      destruct (Prim2SF x) as [ s | s | | s m e ] eqn:Ex;
        try (rewrite SFcompare_refl in Hx by discriminate; discriminate Hx).
      destruct (Prim2SF y) as [ s | s | | s m e ] eqn:Ey;
        try (rewrite SFcompare_refl in Hy by discriminate; discriminate Hy).
      apply sf_same_refl.
  - intros [ H | [ [s H] [t H'] ] ].
    + rewrite H. destruct (Prim2SF y) as [ s | s | | s m e ] eqn:Ey;
        try (rewrite SFcompare_refl by discriminate; reflexivity).
      reflexivity.
    + rewrite H, H'. reflexivity.
Qed.

Create HintDb f64 discriminated.
#[local] Hint Resolve eqv_refl mul_eqv mul_opv_l mul_opv_r mul_opv_opv add_eqv add_opv
  sub_eqv sub_opv eqv_opp opv_opp eqv_opp_opv opv_opp_l : f64.

Lemma SFcompare_antisym : forall x y,
  SFcompare y x = option_map CompOpp (SFcompare x y).
Proof.
  intros [ sx | sx | | sx mx ex ] [ sy | sy | | sy my ey ]; cbn; try reflexivity;
    try (destruct sx; reflexivity); try (destruct sy; reflexivity);
    try (destruct sx, sy; reflexivity).
  change (Pos.compare_cont Eq my mx) with (Pos.compare my mx).
  change (Pos.compare_cont Eq mx my) with (Pos.compare mx my).
  rewrite (Z.compare_antisym ex ey), (Pos.compare_antisym mx my).
  destruct sx, sy; try reflexivity;
    destruct (Z.compare ex ey); cbn; try reflexivity;
    destruct (Pos.compare mx my); reflexivity.
Qed.

Lemma ltb_asym : forall a b : float, (a <? b) = true -> (b <? a) = false.
Proof.
  intros a b. rewrite !ltb_spec. unfold SFltb. rewrite (SFcompare_antisym (Prim2SF a)).
  destruct (SFcompare (Prim2SF a) (Prim2SF b)) as [ [ | | ] | ]; cbn; congruence.
Qed.

(** ** C1 *)



(** ** C2 *)

(** C2 at the failing input: for unit circles centred at (0,0) and (1.5,0)
    under identity transforms, where n = (1.5, 0) and |n| = 1.5, [Collide]
    returns depth |n| - r = -0.5 and the normal n / |n|^2 = (2/3, 0), which
    is not the unit vector n / |n| = (1, 0): the division by [d] comes before
    [d = math.Sqrt(d)]. *)
Theorem C2_normal_divided_by_squared_length :
  Collide (unit_circle 0 0) identity (unit_circle 1.5 0) identity
  = Ret (Some (mkCollision (Pt (1.5 / (1.5 * 1.5)) 0) (-0.5)))
  /\ within 1e-4 (1.5 / (1.5 * 1.5)) 1 = false.
Proof. split; vm_compute; reflexivity. Qed.

(** ** C4 *)

Lemma GJK_loop_after : forall k n a xfa b xfb s s',
  GJK_after k a xfa b xfb s = Ret (Again s') ->
  GJK_loop (k + n) a xfa b xfb s = GJK_loop n a xfa b xfb s'.
Proof.
  induction k as [ | k IH ]; intros n a xfa b xfb s s' H; cbn in H |- *.
  - now inversion H.
  - destruct (GJK_turn a xfa b xfb s) as [ [ s1 | s1 ] | why | ]; cbn in H |- *;
      try discriminate H.
    now apply IH.
Qed.

Lemma GJK_loop_starved : forall k n a xfa b xfb s s',
  GJK_after k a xfa b xfb s = Ret (Again s') ->
  (n <= k)%nat ->
  GJK_loop n a xfa b xfb s = OutOfFuel.
Proof.
  induction k as [ | k IH ]; intros n a xfa b xfb s s' H Hn.
  - replace n with O by lia. reflexivity.
  - destruct n as [ | n ]; [ reflexivity | ].
    cbn in H |- *.
    destruct (GJK_turn a xfa b xfb s) as [ [ s1 | s1 ] | why | ]; cbn in H |- *;
      try discriminate H.
    apply IH with (s' := s'); [ assumption | lia ].
Qed.

(** A simplex that the loop reaches again after [period] turns keeps the
    loop running on any amount of fuel. *)
Lemma GJK_loop_cycle : forall period a xfa b xfb s,
  GJK_after (S period) a xfa b xfb s = Ret (Again s) ->
  forall n, GJK_loop n a xfa b xfb s = OutOfFuel.
Proof.
  intros period a xfa b xfb s Hcycle n.
  induction n as [ n IH ] using (well_founded_induction lt_wf).
  destruct (Nat.le_gt_cases n (S period)) as [ Hle | Hgt ].
  - now apply GJK_loop_starved with (k := S period) (s' := s).
  - replace n with (S period + (n - S period))%nat by lia.
    rewrite GJK_loop_after with (s' := s) by assumption.
    apply IH. lia.
Qed.

Lemma GJK_loop_reaches_cycle : forall k period a xfa b xfb s s',
  GJK_after k a xfa b xfb s = Ret (Again s') ->
  GJK_after (S period) a xfa b xfb s' = Ret (Again s') ->
  forall n, GJK_loop n a xfa b xfb s = OutOfFuel.
Proof.
  intros k period a xfa b xfb s s' Hreach Hcycle n.
  destruct (Nat.le_gt_cases n k) as [ Hle | Hgt ].
  - now apply GJK_loop_starved with (k := k) (s' := s').
  - replace n with (k + (n - k))%nat by lia.
    rewrite GJK_loop_after with (s' := s') by assumption.
    now apply GJK_loop_cycle with (period := period).
Qed.

(** The needle is a well-formed polygon: strictly convex, its vertices in
    the order the constructor expects, with as many normals as points. *)
Lemma needle_well_formed :
  strictly_convex needle_points = true
  /\ (forall p, needle = ShapePolygon p -> length (Normals p) = length (Points p)).
Proof.
  split; [ vm_compute; reflexivity | ].
  intros p H; injection H as <-; reflexivity.
Qed.

(** C4 at the failing input: for the unit circle at the origin and the
    needle, under identity transforms, the main loop of GJK never exits: three
    turns after the seed the simplex is a triangle that the loop reaches again
    every four turns, each turn adding a support vertex that is not among the
    three of the turn before.  [GJK], and with it [Distance], is out of fuel
    on every amount of fuel. *)
Theorem C4_GJK_does_not_terminate : forall fuel,
  GJK fuel zero_Simplex (unit_circle 0 0) identity needle identity = OutOfFuel
  /\ Distance fuel (unit_circle 0 0) identity needle identity = OutOfFuel.
Proof.
  intros fuel.
  assert (H : GJK fuel zero_Simplex (unit_circle 0 0) identity needle identity = OutOfFuel).
  { unfold GJK.
    destruct (GJK_seed (unit_circle 0 0) identity needle identity zero_Simplex)
      as [ s0 | why | ] eqn:Hseed; try (vm_compute in Hseed; discriminate Hseed).
    cbn [bind].
    destruct (GJK_after 3 (unit_circle 0 0) identity needle identity s0)
      as [ [ s1 | s1 ] | why | ] eqn:Hreach;
      try (vm_compute in Hseed; injection Hseed as <-; vm_compute in Hreach;
           discriminate Hreach).
    apply GJK_loop_reaches_cycle with (k := 3%nat) (period := 3%nat) (s' := s1);
      [ assumption | ].
    vm_compute in Hseed. injection Hseed as <-.
    vm_compute in Hreach. injection Hreach as <-.
    vm_compute. reflexivity. }
  split; [ exact H | ].
  unfold Distance. rewrite H. reflexivity.
Qed.

(** ** C5 *)

(** C5 at the failing input: the simplex with Minkowski points A = (-1,1),
    B = (1,1), C = (0,1) has uBC <= 0 and vCA <= 0, yet [evolveTriangle]
    returns count = 2 with v[0] = A and v[1] = B (weights 1/2 each): after
    the Region C assignment control falls through to the Region AB test,
    which holds here (the area is zero). *)
Theorem C5_region_C_falls_through :
  let pa := Pt (-1) 1 in
  let pb := Pt 1 1 in
  let pc := Pt 0 1 in
  (Dot pc (Sub pc pb) <=? 0) = true
  /\ (Dot (Neg pc) (Sub pa pc) <=? 0) = true
  /\ evolveTriangle (triangle_simplex pa pb pc)
     = mkSimplex 2 (set_u (fresh_vertex pa 0 0) 0.5) (set_u (fresh_vertex pb 0 1) 0.5)
         (fresh_vertex pc 0 2).
Proof. repeat split; vm_compute; reflexivity. Qed.

(** The same fall-through on a proper triangle, A = (3,1), B = (1,3),
    C = (1,1), with the origin in C's vertex region: count becomes 1 and
    v[0] holds C's points, but the Region ABC tail then overwrites the three
    weights, so v[0] is not the former vertex C (its u is -1/2, not 1) and
    v[1], v[2] are modified too. *)
Lemma evolveTriangle_region_C_overwrites_weights :
  let pa := Pt 3 1 in
  let pb := Pt 1 3 in
  let pc := Pt 1 1 in
  (Dot pc (Sub pc pb) <=? 0) = true
  /\ (Dot (Neg pc) (Sub pa pc) <=? 0) = true
  /\ evolveTriangle (triangle_simplex pa pb pc)
     = mkSimplex 1 (set_u (fresh_vertex pc 0 2) (-0.5)) (set_u (fresh_vertex pb 0 1) (-0.5))
         (set_u (fresh_vertex pc 0 2) 2).
Proof. repeat split; vm_compute; reflexivity. Qed.

(** ** C6 *)

(** *** Points that are the same, points that are opposite *)

Lemma peq_refl : forall p, peq p p.
Proof. intros p; split; apply eqv_refl. Qed.

Lemma pop_sym : forall p q, pop p q -> pop q p.
Proof. intros p q [H1 H2]; split; now apply opv_sym. Qed.

Lemma Neg_pop : forall p q, pop p q -> pop (Neg p) (Neg q).
Proof. intros p q [H1 H2]; split; cbn; auto with f64. Qed.

Lemma Neg_pop_peq : forall p q, pop p q -> peq (Neg p) q.
Proof. intros p q [H1 H2]; split; cbn; auto with f64. Qed.

Lemma pop_peq_Neg : forall p q, pop p q -> peq p (Neg q).
Proof. intros p q [H1 H2]; split; cbn; now apply opv_opp_r. Qed.

Lemma Sub_pop : forall p p' q q', pop p p' -> pop q q' -> pop (Sub p q) (Sub p' q').
Proof. intros p p' q q' [H1 H2] [H3 H4]; split; cbn; auto with f64. Qed.

Lemma Sub_swap : forall p q, pop (Sub p q) (Sub q p).
Proof. intros p q; split; cbn; apply sub_swap; apply eqv_refl. Qed.

Lemma Add_pop : forall p p' q q', pop p p' -> pop q q' -> pop (Add p q) (Add p' q').
Proof. intros p p' q q' [H1 H2] [H3 H4]; split; cbn; auto with f64. Qed.

Lemma Mul_pop : forall p p' k k', pop p p' -> eqv k k' -> pop (Mul p k) (Mul p' k').
Proof. intros p p' k k' [H1 H2] H3; split; cbn; auto with f64. Qed.

Lemma Dot_pop : forall p p' q q', pop p p' -> pop q q' -> eqv (Dot p q) (Dot p' q').
Proof. intros p p' q q' [H1 H2] [H3 H4]; unfold Dot; auto with f64. Qed.

Lemma Dot_peq : forall p p' q q', peq p p' -> peq q q' -> eqv (Dot p q) (Dot p' q').
Proof. intros p p' q q' [H1 H2] [H3 H4]; unfold Dot; auto with f64. Qed.

Lemma Cross_pop : forall p p' q q', pop p p' -> pop q q' -> eqv (Cross p q) (Cross p' q').
Proof. intros p p' q q' [H1 H2] [H3 H4]; unfold Cross; auto with f64. Qed.

Lemma CrossSP_pop : forall s p p', pop p p' -> pop (CrossSP s p) (CrossSP s p').
Proof. intros s p p' [H1 H2]; split; cbn; auto with f64. Qed.

Lemma CrossPS_pop : forall s p p', pop p p' -> pop (CrossPS p s) (CrossPS p' s).
Proof. intros s p p' [H1 H2]; split; cbn; auto with f64. Qed.

Lemma LengthSquared_pop : forall p p', pop p p' -> LengthSquared p = LengthSquared p'.
Proof.
  intros p p' [H1 H2]; unfold LengthSquared.
  now rewrite (sq_opv _ _ H1), (sq_opv _ _ H2).
Qed.

Lemma Length_pop : forall p p', pop p p' -> Length p = Length p'.
Proof.
  intros p p' H. unfold Length. change (X p * X p + Y p * Y p) with (LengthSquared p).
  change (X p' * X p' + Y p' * Y p') with (LengthSquared p').
  now rewrite (LengthSquared_pop _ _ H).
Qed.

Lemma Rotation_MulT_peq : forall r p p', peq p p' ->
  peq (Rotation_MulT r p) (Rotation_MulT r p').
Proof. intros r p p' [H1 H2]; split; cbn; auto with f64. Qed.

(** *** The support query does not see the sign of a zero *)

Lemma support_scan_peq : forall rest d d' i best m m',
  peq d d' -> eqv m m' ->
  support_scan d rest i best m = support_scan d' rest i best m'.
Proof.
  induction rest as [ | q rest IH ]; intros d d' i best m m' Hd Hm; cbn [support_scan];
    [ reflexivity | ].
  assert (Hq : eqv (Dot d q) (Dot d' q)) by (apply Dot_peq; [ assumption | apply peq_refl ]).
  rewrite (ltb_eqv _ _ _ _ Hm Hq).
  destruct (m' <? Dot d' q); now apply IH.
Qed.

Lemma getSupport_peq : forall s d d', is_builtin s = true -> peq d d' ->
  getSupport s d = getSupport s d'.
Proof.
  intros [ c | p | o | ] d d' Hs Hd; try discriminate Hs; cbn [getSupport]; [ reflexivity | ].
  unfold Polygon_getSupport. destruct (Points p) as [ | q0 rest ]; [ reflexivity | ].
  f_equal. apply support_scan_peq; [ assumption | ].
  apply Dot_peq; [ assumption | apply peq_refl ].
Qed.

Lemma index_panic_only_index : forall (A : Type) (s : list A) i, index_panic_only (index s i).
Proof.
  intros A s i. unfold index. destruct (i <? 0)%Z; cbn; [ reflexivity | ].
  destruct (nth_error s (Z.to_nat i)); cbn; auto.
Qed.

Lemma getSupport_builtin : forall s d, is_builtin s = true -> index_panic_only (getSupport s d).
Proof.
  intros [ c | p | o | ] d Hs; try discriminate Hs; cbn; [ exact I | ].
  unfold Polygon_getSupport. destruct (Points p); cbn; auto.
Qed.

Lemma getVertex_builtin : forall s i, is_builtin s = true -> index_panic_only (getVertex s i).
Proof.
  intros [ c | p | o | ] i Hs; try discriminate Hs; cbn; [ exact I | ].
  apply index_panic_only_index.
Qed.

(** *** The simplex of the call with the arguments swapped *)

Lemma mirror_v_set_u : forall x x' u u', mirror_v x x' -> mirror_v (set_u x u) (set_u x' u').
Proof. intros x x' u u' H; exact H. Qed.

Lemma mirror_p : forall x x', mirror_v x x' -> pop (v_p x) (v_p x').
Proof. intros x x' H; apply H. Qed.

#[local] Hint Resolve mirror_p mirror_v_set_u Sub_pop Neg_pop Dot_pop Cross_pop : f64.

Ltac mirror_goal :=
  repeat match goal with
         | |- _ /\ _ => split
         | |- mirror_s _ _ => unfold mirror_s; cbn [count v0 v1 v2 set_count set_v0 set_v1 set_v2]
         | |- weights_agree _ _ =>
             unfold weights_agree; cbn [count v0 v1 v2 set_count set_v0 set_v1 set_v2 set_u v_u];
             intros ?
         end;
  try solve [ assumption | reflexivity | discriminate | congruence
            | apply mirror_v_set_u; assumption
            | apply div_eqv_l; auto 6 with f64 ].

Lemma evolveLine_mirror : forall s s', mirror_s s s' ->
  mirror_s (evolveLine s) (evolveLine s') /\ weights_agree (evolveLine s) (evolveLine s').
Proof.
  intros s s' (Hc & H0 & H1 & H2). unfold evolveLine. cbv zeta.
  assert (Hn : pop (Sub (v_p (v1 s)) (v_p (v0 s))) (Sub (v_p (v1 s')) (v_p (v0 s'))))
    by auto with f64.
  assert (Hu : eqv (Dot (v_p (v1 s)) (Sub (v_p (v1 s)) (v_p (v0 s))))
                   (Dot (v_p (v1 s')) (Sub (v_p (v1 s')) (v_p (v0 s')))))
    by auto with f64.
  assert (Hv : eqv (Dot (Neg (v_p (v0 s))) (Sub (v_p (v1 s)) (v_p (v0 s))))
                   (Dot (Neg (v_p (v0 s'))) (Sub (v_p (v1 s')) (v_p (v0 s')))))
    by auto 6 with f64.
  rewrite (leb_eqv _ _ 0 0 Hv (eqv_refl 0)), (leb_eqv _ _ 0 0 Hu (eqv_refl 0)).
  rewrite (LengthSquared_pop _ _ Hn).
  destruct (Dot (Neg (v_p (v0 s'))) _ <=? 0); [ mirror_goal | ].
  destruct (Dot (v_p (v1 s')) _ <=? 0); mirror_goal.
Qed.

Lemma evolveTriangle_mirror : forall s s', mirror_s s s' -> count s = 3%Z ->
  mirror_s (evolveTriangle s) (evolveTriangle s')
  /\ weights_agree (evolveTriangle s) (evolveTriangle s').
Proof.
  intros s s' (Hc & H0 & H1 & H2) H3. unfold evolveTriangle. cbv zeta.
  pose proof (mirror_p _ _ H0) as Pa.
  pose proof (mirror_p _ _ H1) as Pb.
  pose proof (mirror_p _ _ H2) as Pc.
  set (pa := v_p (v0 s)) in *. set (pb := v_p (v1 s)) in *. set (pc := v_p (v2 s)) in *.
  set (pa' := v_p (v0 s')) in *. set (pb' := v_p (v1 s')) in *. set (pc' := v_p (v2 s')) in *.
  assert (Hab : pop (Sub pb pa) (Sub pb' pa')) by auto with f64.
  assert (Hbc : pop (Sub pc pb) (Sub pc' pb')) by auto with f64.
  assert (Hca : pop (Sub pa pc) (Sub pa' pc')) by auto with f64.
  assert (Hac : pop (Sub pc pa) (Sub pc' pa')) by auto with f64.
  assert (HuAB : eqv (Dot pb (Sub pb pa)) (Dot pb' (Sub pb' pa'))) by auto with f64.
  assert (HvAB : eqv (Dot (Neg pa) (Sub pb pa)) (Dot (Neg pa') (Sub pb' pa'))) by auto with f64.
  assert (HuBC : eqv (Dot pc (Sub pc pb)) (Dot pc' (Sub pc' pb'))) by auto with f64.
  assert (HvBC : eqv (Dot (Neg pb) (Sub pc pb)) (Dot (Neg pb') (Sub pc' pb'))) by auto with f64.
  assert (HuCA : eqv (Dot pa (Sub pa pc)) (Dot pa' (Sub pa' pc'))) by auto with f64.
  assert (HvCA : eqv (Dot (Neg pc) (Sub pa pc)) (Dot (Neg pc') (Sub pa' pc'))) by auto with f64.
  assert (Harea : eqv (Cross (Sub pb pa) (Sub pc pa)) (Cross (Sub pb' pa') (Sub pc' pa')))
    by auto with f64.
  assert (HuABC : eqv (Cross pb pc * Cross (Sub pb pa) (Sub pc pa))
                      (Cross pb' pc' * Cross (Sub pb' pa') (Sub pc' pa')))
    by auto with f64.
  assert (HvABC : eqv (Cross pc pa * Cross (Sub pb pa) (Sub pc pa))
                      (Cross pc' pa' * Cross (Sub pb' pa') (Sub pc' pa')))
    by auto with f64.
  assert (HwABC : eqv (Cross pa pb * Cross (Sub pb pa) (Sub pc pa))
                      (Cross pa' pb' * Cross (Sub pb' pa') (Sub pc' pa')))
    by auto with f64.
  rewrite (leb_eqv _ _ 0 0 HvAB (eqv_refl 0)), (leb_eqv _ _ 0 0 HuCA (eqv_refl 0)),
    (leb_eqv _ _ 0 0 HuAB (eqv_refl 0)), (leb_eqv _ _ 0 0 HvBC (eqv_refl 0)),
    (leb_eqv _ _ 0 0 HuBC (eqv_refl 0)), (leb_eqv _ _ 0 0 HvCA (eqv_refl 0)),
    (leb_eqv _ _ 0 0 HuABC (eqv_refl 0)), (leb_eqv _ _ 0 0 HvABC (eqv_refl 0)),
    (leb_eqv _ _ 0 0 HwABC (eqv_refl 0)),
    (ltb_eqv 0 0 _ _ (eqv_refl 0) HuAB), (ltb_eqv 0 0 _ _ (eqv_refl 0) HvAB),
    (ltb_eqv 0 0 _ _ (eqv_refl 0) HuBC), (ltb_eqv 0 0 _ _ (eqv_refl 0) HvBC),
    (ltb_eqv 0 0 _ _ (eqv_refl 0) HuCA), (ltb_eqv 0 0 _ _ (eqv_refl 0) HvCA).
  rewrite (LengthSquared_pop _ _ Hab), (LengthSquared_pop _ _ Hbc), (LengthSquared_pop _ _ Hca).
  destruct ((Dot (Neg pa') (Sub pb' pa') <=? 0) && (Dot pa' (Sub pa' pc') <=? 0));
    [ mirror_goal | ].
  destruct ((Dot pb' (Sub pb' pa') <=? 0) && (Dot (Neg pb') (Sub pc' pb') <=? 0));
    [ mirror_goal | ].
  destruct ((0 <? Dot pb' (Sub pb' pa')) && (0 <? Dot (Neg pa') (Sub pb' pa'))
            && (Cross pa' pb' * Cross (Sub pb' pa') (Sub pc' pa') <=? 0));
    [ destruct ((Dot pc' (Sub pc' pb') <=? 0) && (Dot (Neg pc') (Sub pa' pc') <=? 0));
      mirror_goal | ].
  destruct ((0 <? Dot pc' (Sub pc' pb')) && (0 <? Dot (Neg pb') (Sub pc' pb'))
            && (Cross pb' pc' * Cross (Sub pb' pa') (Sub pc' pa') <=? 0));
    [ destruct ((Dot pc' (Sub pc' pb') <=? 0) && (Dot (Neg pc') (Sub pa' pc') <=? 0));
      mirror_goal | ].
  destruct ((0 <? Dot pa' (Sub pa' pc')) && (0 <? Dot (Neg pc') (Sub pa' pc'))
            && (Cross pc' pa' * Cross (Sub pb' pa') (Sub pc' pa') <=? 0));
    [ destruct ((Dot pc' (Sub pc' pb') <=? 0) && (Dot (Neg pc') (Sub pa' pc') <=? 0));
      mirror_goal | ].
  destruct ((Dot pc' (Sub pc' pb') <=? 0) && (Dot (Neg pc') (Sub pa' pc') <=? 0));
    mirror_goal.
Qed.

Ltac by_count s :=
  destruct (count s) as [ | [ [ ? | ? | ] | [ ? | ? | ] | ] | ? ] eqn:?.

Lemma evolve_mirror : forall s s', mirror_s s s' ->
  both (fun t t' => mirror_s t t' /\ weights_agree t t') (evolve s) (evolve s').
Proof.
  intros s s' H. pose proof H as (Hc & _). unfold evolve. rewrite <- Hc.
  by_count s; cbn [both]; try reflexivity.
  - now apply evolveTriangle_mirror.
  - now apply evolveLine_mirror.
  - split; [ assumption | ]. unfold weights_agree. congruence.
Qed.

Lemma searchDirection_mirror : forall s s', mirror_s s s' ->
  both pop (searchDirection s) (searchDirection s').
Proof.
  intros s s' (Hc & H0 & H1 & H2). unfold searchDirection. rewrite <- Hc.
  by_count s; cbn [both]; try reflexivity.
  - cbv zeta.
    assert (Hab : pop (Sub (v_p (v1 s)) (v_p (v0 s))) (Sub (v_p (v1 s')) (v_p (v0 s'))))
      by auto with f64.
    assert (Hsign : eqv (Cross (Sub (v_p (v1 s)) (v_p (v0 s))) (Neg (v_p (v0 s))))
                        (Cross (Sub (v_p (v1 s')) (v_p (v0 s'))) (Neg (v_p (v0 s')))))
      by auto with f64.
    rewrite (ltb_eqv 0 0 _ _ (eqv_refl 0) Hsign).
    destruct (0 <? Cross _ _); cbn [both];
      [ now apply CrossSP_pop | now apply CrossPS_pop ].
  - auto with f64.
Qed.

Lemma support_vertex_mirror : forall a xfa b xfb d d',
  is_builtin a = true -> is_builtin b = true -> pop d d' ->
  both mirror_v (support_vertex a xfa b xfb d) (support_vertex b xfb a xfa d').
Proof.
  intros a xfa b xfb d d' Ha Hb Hd. unfold support_vertex.
  rewrite (getSupport_peq b (Rotation_MulT (Rotation_of xfb) (Neg d'))
             (Rotation_MulT (Rotation_of xfb) d) Hb)
    by (apply Rotation_MulT_peq, Neg_pop_peq, pop_sym, Hd).
  rewrite (getSupport_peq a (Rotation_MulT (Rotation_of xfa) d')
             (Rotation_MulT (Rotation_of xfa) (Neg d)) Ha)
    by (apply Rotation_MulT_peq, pop_peq_Neg, pop_sym, Hd).
  pose proof (getSupport_builtin a (Rotation_MulT (Rotation_of xfa) (Neg d)) Ha) as PA.
  pose proof (getSupport_builtin b (Rotation_MulT (Rotation_of xfb) d) Hb) as PB.
  destruct (getSupport a _) as [ iA | wA | ]; destruct (getSupport b _) as [ iB | wB | ];
    cbn in PA, PB; subst; try contradiction; cbn [bind both]; try reflexivity.
  pose proof (getVertex_builtin a iA Ha) as QA.
  pose proof (getVertex_builtin b iB Hb) as QB.
  destruct (getVertex a iA) as [ va | wA | ]; destruct (getVertex b iB) as [ vb | wB | ];
    cbn in QA, QB; subst; try contradiction; cbn [bind both]; try reflexivity.
  repeat split; cbn; apply sub_swap; apply eqv_refl.
Qed.

Lemma old_indices_mirror : forall s s', mirror_s s s' ->
  both (fun old old' => forall x x', mirror_v x x' -> duplicate x old = duplicate x' old')
       (old_indices s) (old_indices s').
Proof.
  intros s s' (Hc & H0 & H1 & H2). unfold old_indices. rewrite <- Hc.
  destruct H0 as (_ & _ & _ & A0 & B0).
  destruct H1 as (_ & _ & _ & A1 & B1).
  destruct H2 as (_ & _ & _ & A2 & B2).
  by_count s; cbn [both]; try reflexivity;
    intros x x' (_ & _ & _ & Ax & Bx); unfold duplicate; cbn [existsb fst snd];
    rewrite ?Ax, ?Bx, ?A0, ?B0, ?A1, ?B1, ?A2, ?B2;
    rewrite ?(andb_comm (v_indexB x' =? _)%Z); reflexivity.
Qed.

Lemma GJK_turn_mirror : forall a xfa b xfb s s',
  is_builtin a = true -> is_builtin b = true -> mirror_s s s' ->
  both mirror_turn (GJK_turn a xfa b xfb s) (GJK_turn b xfb a xfa s').
Proof.
  intros a xfa b xfb s s' Ha Hb H. unfold GJK_turn.
  pose proof (old_indices_mirror s s' H) as Hold.
  destruct (old_indices s) as [ old | w | ]; destruct (old_indices s') as [ old' | w' | ];
    cbn [both] in Hold; try contradiction; cbn [bind both]; try assumption.
  pose proof (evolve_mirror s s' H) as Hev.
  destruct (evolve s) as [ t | w | ]; destruct (evolve s') as [ t' | w' | ];
    cbn [both] in Hev; try contradiction; cbn [bind both]; try assumption.
  destruct Hev as (Ht & Hw). pose proof Ht as (Hc & H0 & H1 & H2). rewrite <- Hc.
  destruct (count t =? 3)%Z; [ cbn [both mirror_turn]; auto | ].
  pose proof (searchDirection_mirror t t' Ht) as Hdir.
  destruct (searchDirection t) as [ d | w | ]; destruct (searchDirection t') as [ d' | w' | ];
    cbn [both] in Hdir; try contradiction; cbn [bind both]; try assumption.
  rewrite (LengthSquared_pop _ _ Hdir).
  destruct (LengthSquared d' =? 0); [ cbn [both mirror_turn]; auto | ].
  pose proof (support_vertex_mirror a xfa b xfb d d' Ha Hb Hdir) as Hsup.
  destruct (support_vertex a xfa b xfb d) as [ x | w | ];
    destruct (support_vertex b xfb a xfa d') as [ x' | w' | ];
    cbn [both] in Hsup; try contradiction; cbn [bind both]; try assumption.
  rewrite (Hold x x' Hsup).
  destruct (duplicate x' old'); [ cbn [both mirror_turn]; auto | ].
  unfold v_set.
  destruct (count t) as [ | [ [ ? | ? | ] | [ ? | ? | ] | ] | ? ]; cbn [bind both]; try reflexivity;
    cbn [mirror_turn]; unfold mirror_s;
    cbn [count v0 v1 v2 set_count set_v0 set_v1 set_v2]; auto.
Qed.

Lemma GJK_loop_mirror : forall fuel a xfa b xfb s s',
  is_builtin a = true -> is_builtin b = true -> mirror_s s s' ->
  both (fun t t' => mirror_s t t' /\ weights_agree t t')
       (GJK_loop fuel a xfa b xfb s) (GJK_loop fuel b xfb a xfa s').
Proof.
  induction fuel as [ | fuel IH ]; intros a xfa b xfb s s' Ha Hb H; cbn [GJK_loop];
    [ exact I | ].
  pose proof (GJK_turn_mirror a xfa b xfb s s' Ha Hb H) as Hturn.
  destruct (GJK_turn a xfa b xfb s) as [ [ t | t ] | w | ];
    destruct (GJK_turn b xfb a xfa s') as [ [ t' | t' ] | w' | ];
    cbn [both mirror_turn] in Hturn; try contradiction; cbn [bind both]; try assumption.
  now apply IH.
Qed.

Lemma opv_zero : opv 0 0.
Proof. apply opv_opp_r, same_spec. reflexivity. Qed.

Lemma mirror_zero_Simplex : mirror_s zero_Simplex zero_Simplex.
Proof.
  assert (H : mirror_v zero_vertex zero_vertex).
  { repeat split; cbn; apply opv_zero. }
  repeat split; cbn; try assumption; apply opv_zero.
Qed.

Lemma GJK_seed_mirror : forall a xfa b xfb s s',
  is_builtin a = true -> is_builtin b = true -> mirror_s s s' ->
  both mirror_s (GJK_seed a xfa b xfb s) (GJK_seed b xfb a xfa s').
Proof.
  intros a xfa b xfb s s' Ha Hb H. pose proof H as (Hc & H0 & H1 & H2).
  unfold GJK_seed. rewrite <- Hc.
  destruct (count s =? 0)%Z; [ | exact H ].
  pose proof (getVertex_builtin a 0%Z Ha) as QA.
  pose proof (getVertex_builtin b 0%Z Hb) as QB.
  destruct (getVertex a 0%Z) as [ va | wA | ]; destruct (getVertex b 0%Z) as [ vb | wB | ];
    cbn in QA, QB; subst; try contradiction; cbn [bind both]; try reflexivity.
  unfold mirror_s; cbn [count v0 v1 v2 set_count set_v0].
  split; [ reflexivity | ]. split; [ | split; assumption ].
  repeat split; cbn; apply sub_swap; apply eqv_refl.
Qed.

Lemma GJK_mirror : forall fuel a xfa b xfb s s',
  is_builtin a = true -> is_builtin b = true -> mirror_s s s' ->
  both (fun t t' => mirror_s t t' /\ weights_agree t t')
       (GJK fuel s a xfa b xfb) (GJK fuel s' b xfb a xfa).
Proof.
  intros fuel a xfa b xfb s s' Ha Hb H. unfold GJK.
  pose proof (GJK_seed_mirror a xfa b xfb s s' Ha Hb H) as Hseed.
  destruct (GJK_seed a xfa b xfb s) as [ t | w | ];
    destruct (GJK_seed b xfb a xfa s') as [ t' | w' | ];
    cbn [both] in Hseed; try contradiction; cbn [bind both]; try assumption.
  now apply GJK_loop_mirror.
Qed.

Lemma ClosestPoint_mirror : forall s s', mirror_s s s' -> weights_agree s s' ->
  both pop (ClosestPoint s) (ClosestPoint s').
Proof.
  intros s s' (Hc & H0 & H1 & H2) Hw. unfold ClosestPoint. rewrite <- Hc.
  unfold weights_agree in Hw.
  by_count s; cbn [both]; try reflexivity.
  - split; cbn; apply opv_zero.
  - destruct (Hw eq_refl) as (Hu0 & Hu1).
    apply Add_pop; apply Mul_pop; auto with f64.
  - auto with f64.
Qed.

Lemma both_eq : forall (A : Type) (r r' : outcome A), both eq r r' -> r = r'.
Proof.
  intros A [ x | w | ] [ x' | w' | ] H; cbn in H; try contradiction; congruence.
Qed.

(** C6: for all shapes A, B that are circles or polygons and all transforms,
    [Distance(A, xfA, B, xfB)] and [Distance(B, xfB, A, xfA)] end the same way
    and, when they return, return the same float (so the two distances differ
    by 0, which is within 1e-6): the second call runs the first one's
    iterations on the opposite Minkowski points. *)
Theorem C6_Distance_symmetric : forall fuel a xfa b xfb,
  is_builtin a = true -> is_builtin b = true ->
  Distance fuel a xfa b xfb = Distance fuel b xfb a xfa.
Proof.
  intros fuel a xfa b xfb Ha Hb. apply both_eq. unfold Distance.
  pose proof (GJK_mirror fuel a xfa b xfb _ _ Ha Hb mirror_zero_Simplex) as H.
  destruct (GJK fuel zero_Simplex a xfa b xfb) as [ t | w | ];
    destruct (GJK fuel zero_Simplex b xfb a xfa) as [ t' | w' | ];
    cbn [both] in H; try contradiction; cbn [bind both]; try assumption.
  destruct H as (Ht & Hw).
  pose proof (ClosestPoint_mirror t t' Ht Hw) as Hp.
  destruct (ClosestPoint t) as [ p | w | ]; destruct (ClosestPoint t') as [ p' | w' | ];
    cbn [both] in Hp; try contradiction; cbn [bind both]; try assumption.
  now apply Length_pop.
Qed.

Lemma C6_Distance_symmetric_witness :
  Distance 10 (box 0 0) identity (unit_circle 3 0) identity
  = Distance 10 (unit_circle 3 0) identity (box 0 0) identity.
Proof.
  apply (C6_Distance_symmetric 10 (box 0 0) identity (unit_circle 3 0) identity);
    reflexivity.
Defined.

(** ** C7 *)


Lemma same_opp_self : forall x, same (- x) (- x) = true.
Proof. intros x. apply same_spec, eqv_refl. Qed.

Lemma pop_same : forall p q, pop p q ->
  same (X p) (- X q) = true /\ same (Y p) (- Y q) = true.
Proof. intros p q [H1 H2]; split; apply same_spec; now apply opv_opp_r. Qed.

Lemma mirrored_flip_l : forall c, mirrored (flip_normal c) c.
Proof.
  intros [ c | ]; cbn; [ | exact I ].
  repeat split; apply same_spec, eqv_refl.
Qed.

Lemma mirrored_flip_r : forall c, mirrored c (flip_normal c).
Proof.
  intros [ c | ]; cbn; [ | exact I ].
  repeat split; apply same_spec; apply eqv_sym, opv_opp_l, opv_opp_r, eqv_refl.
Qed.

Lemma CollideCircles_mirrored : forall a xfa b xfb,
  arbitrary_choice (ShapeCircle a) xfa (ShapeCircle b) xfb = false ->
  mirrored (CollideCircles a xfa b xfb) (CollideCircles b xfb a xfa).
Proof.
  intros a xfa b xfb Hd. cbn [arbitrary_choice] in Hd. unfold CollideCircles. cbv zeta.
  set (cA := Add (Position xfa) (Center a)) in *.
  set (cB := Add (Position xfb) (Center b)) in *.
  pose proof (Sub_swap cB cA) as Hn.
  rewrite <- (LengthSquared_pop _ _ Hn).
  rewrite (add_comm (Radius b) (Radius a)).
  rewrite Hd. cbn [negb].
  destruct (_ <? LengthSquared (Sub cB cA)); cbn [mirrored]; [ exact I | ].
  split; [ reflexivity | ].
  apply pop_same. destruct Hn as [H1 H2]. split; cbn; now apply div_opv_l.
Qed.

Lemma index_of_nat : forall (A : Type) (s : list A) (n : nat),
  (n < length s)%nat -> exists x, index s (Z.of_nat n) = Ret x.
Proof.
  intros A s n H. unfold index.
  destruct (Z.of_nat n <? 0)%Z eqn:E; [ apply Z.ltb_lt in E; lia | ].
  rewrite Nat2Z.id.
  destruct (nth_error s n) as [ x | ] eqn:En; [ eauto | ].
  apply nth_error_None in En. lia.
Qed.

Lemma separation_scan_returns : forall rest a xfa b xfb (n : nat) bestIndex maxSeparation,
  (n + length rest <= length (Normals a))%nat ->
  exists r, separation_scan a xfa b xfb rest (Z.of_nat n) bestIndex maxSeparation = Ret r.
Proof.
  induction rest as [ | pt rest IH ]; intros a xfa b xfb n bestIndex maxSeparation H;
    cbn [separation_scan]; [ eauto | ].
  cbn [length] in H.
  destruct (index_of_nat _ (Normals a) n) as [ ni Hni ]; [ lia | ].
  rewrite Hni. cbn [bind]. cbv zeta.
  replace (Z.of_nat n + 1)%Z with (Z.of_nat (S n)) by lia.
  destruct (maxSeparation <? _); apply IH; lia.
Qed.

Lemma findMaxSeparation_returns : forall a xfa b xfb,
  well_formed (ShapePolygon a) = true ->
  exists edge separation, findMaxSeparation a xfa b xfb = Ret (edge, separation).
Proof.
  intros a xfa b xfb H. cbn in H. apply Nat.eqb_eq in H.
  destruct (separation_scan_returns (Points a) a xfa b xfb 0 0%Z (- MaxFloat64)) as [ [e s] Hr ];
    [ lia | ].
  exists e, s. exact Hr.
Qed.

Ltac innermost_bind :=
  match goal with
  | |- context [ bind ?c _ ] =>
      lazymatch c with
      | context [ bind ] => fail
      | _ => destruct c as [ ? | ? | ]; cbn [bind]; try reflexivity
      end
  end.

(** With [flip] set, [clip_incident] returns the same contact with the
    normal negated. *)
Lemma clip_incident_flip : forall a xfa b xfb edge,
  clip_incident a xfa b xfb edge true
  = (c <- clip_incident a xfa b xfb edge false ;; Ret (flip_normal c)).
Proof.
  intros a xfa b xfb edge. unfold clip_incident. cbv zeta.
  do 4 innermost_bind.
  match goal with p : (Z * list Point)%type |- _ => destruct p as [ n1 e1 ] end.
  destruct (n1 <? 2)%Z; [ reflexivity | ].
  innermost_bind.
  match goal with p : (Z * list Point)%type |- _ => destruct p as [ n2 e2 ] end.
  destruct (n2 <? 2)%Z; [ reflexivity | ].
  do 2 innermost_bind.
  match goal with |- context [ if ?c =? 0 then _ else _ ] => destruct (c =? 0) end;
    reflexivity.
Qed.

Lemma CollidePolygons_mirrored : forall a xfa b xfb,
  well_formed (ShapePolygon a) = true -> well_formed (ShapePolygon b) = true ->
  arbitrary_choice (ShapePolygon a) xfa (ShapePolygon b) xfb = false ->
  both mirrored (CollidePolygons a xfa b xfb) (CollidePolygons b xfb a xfa).
Proof.
  intros a xfa b xfb Ha Hb Hc. cbn [arbitrary_choice] in Hc. unfold CollidePolygons.
  destruct (findMaxSeparation_returns a xfa b xfb Ha) as (eA & sA & EA).
  destruct (findMaxSeparation_returns b xfb a xfa Hb) as (eB & sB & EB).
  rewrite EA, EB in Hc |- *. cbn [bind].
  destruct (0 <=? sA) eqn:PA; destruct (0 <=? sB) eqn:PB; cbn [both mirrored negb andb] in *;
    try exact I.
  destruct (sA <? sB) eqn:LAB.
  - rewrite (ltb_asym _ _ LAB). rewrite clip_incident_flip.
    destruct (clip_incident b xfb a xfa eB false) as [ c | w | ]; cbn [bind both];
      [ apply mirrored_flip_l | reflexivity | exact I ].
  - destruct (sB <? sA) eqn:LBA; [ | discriminate Hc ].
    rewrite clip_incident_flip.
    destruct (clip_incident a xfa b xfb eA false) as [ c | w | ]; cbn [bind both];
      [ apply mirrored_flip_r | reflexivity | exact I ].
Qed.

(** Outside the pairs of [arbitrary_choice] the two calls return exact mirror
    images: two circles with distinct centres, a circle and a polygon, and
    two polygons of which one has the greater maximal separation (both calls
    then take that one as the reference polygon, one of them flipping the
    normal). *)
Lemma Collide_mirrored_without_choice : forall a xfa b xfb,
  well_formed a = true -> well_formed b = true ->
  arbitrary_choice a xfa b xfb = false ->
  both mirrored (Collide a xfa b xfb) (Collide b xfb a xfa).
Proof.
  intros [ ca | pa | oa | ] xfa [ cb | pb | ob | ] xfb Ha Hb Hc; try discriminate Ha;
    try discriminate Hb; cbn [Collide].
  - cbn [both]. now apply CollideCircles_mirrored.
  - unfold CollideCircleAndPolygon.
    destruct (CollidePolygonAndCircle pb xfb ca xfa) as [ c | w | ]; cbn [bind both];
      [ apply mirrored_flip_l | reflexivity | exact I ].
  - unfold CollideCircleAndPolygon.
    destruct (CollidePolygonAndCircle pa xfa cb xfb) as [ c | w | ]; cbn [bind both];
      [ apply mirrored_flip_r | reflexivity | exact I ].
  - now apply CollidePolygons_mirrored.
Qed.

Lemma panic_eqb_eq : forall w w', panic_eqb w w' = true -> w = w'.
Proof. intros [ | | ] [ | | ]; cbn; congruence. Qed.

(** In a tie each call returns the contact of its own first argument's
    reference edge, not flipped. *)
Lemma CollidePolygons_tie : forall a xfa b xfb edgeA separationA edgeB separationB,
  findMaxSeparation a xfa b xfb = Ret (edgeA, separationA) ->
  findMaxSeparation b xfb a xfa = Ret (edgeB, separationB) ->
  tie separationA separationB = true ->
  CollidePolygons a xfa b xfb = clip_incident a xfa b xfb edgeA false
  /\ CollidePolygons b xfb a xfa = clip_incident b xfb a xfa edgeB false.
Proof.
  intros a xfa b xfb edgeA sA edgeB sB EA EB Ht. unfold tie in Ht.
  apply andb_true_iff in Ht as [ Ht LBA ]. apply andb_true_iff in Ht as [ Ht LAB ].
  apply andb_true_iff in Ht as [ PA PB ].
  apply negb_true_iff in PA, PB, LAB, LBA.
  unfold CollidePolygons. rewrite EA, EB. cbn [bind]. now rewrite PA, PB, LAB, LBA.
Qed.

(** No square is below zero. *)
Lemma square_not_below_zero : forall r d : float, (d =? 0) = true -> (r * r <? d) = false.
Proof.
  intros r d. rewrite eqb_spec, ltb_spec, mul_spec.
  change (Prim2SF 0) with (S754_zero false). unfold SF64mul.
  destruct (Prim2SF d) as [ t | [ | ] | | [ | ] md ed ]; cbn; try discriminate. intros _.
  destruct (Prim2SF r) as [ s | s | | s m e ]; cbn; try reflexivity.
  - now rewrite xorb_nilpotent.
  - rewrite xorb_nilpotent.
    pose proof (binary_round_aux_sign false (Zpos (Pos.mul m m)) (Z.add e e) loc_Exact) as H.
    cbn zeta in H.
    destruct H as [ -> | [ -> | [ -> | (m' & e' & ->) ] ] ]; reflexivity.
Qed.

(** The two exceptions give up nothing the code does not force: on every
    pair they name, the two calls return results that are not symmetric as
    the specification states it. *)
Lemma Collide_choices_break_symmetry : forall a xfa b xfb,
  coincident_centres a xfa b xfb = true \/ tie_breaks_symmetry a xfa b xfb = true ->
  match Collide a xfa b xfb, Collide b xfb a xfa with
  | Ret c, Ret c' => symmetric_within 1e-6 c c' = false
  | Panic w, Panic w' => panic_eqb w w' = false
  | _, _ => True
  end.
Proof.
  intros [ ca | pa | oa | ] xfa [ cb | pb | ob | ] xfb [ H | H ]; try discriminate H;
    cbn [Collide].
  - cbn [coincident_centres] in H. unfold CollideCircles. cbv zeta.
    set (cA := Add (Position xfa) (Center ca)) in *.
    set (cB := Add (Position xfb) (Center cb)) in *.
    rewrite <- (LengthSquared_pop _ _ (Sub_swap cB cA)). rewrite H. cbn [negb].
    rewrite (add_comm (Radius cb) (Radius ca)).
    rewrite (square_not_below_zero _ _ H). cbn [symmetric_within Normal X].
    change (within 1e-6 1 (- (1))) with false. rewrite andb_false_r. reflexivity.
  - cbn [tie_breaks_symmetry] in H.
    destruct (findMaxSeparation pa xfa pb xfb) as [ [ edgeA sA ] | | ] eqn:EA;
      try discriminate H.
    destruct (findMaxSeparation pb xfb pa xfa) as [ [ edgeB sB ] | | ] eqn:EB;
      try discriminate H.
    apply andb_true_iff in H as [ Ht H ]. apply negb_true_iff in H.
    destruct (CollidePolygons_tie pa xfa pb xfb edgeA sA edgeB sB EA EB Ht) as [ -> -> ].
    destruct (clip_incident pa xfa pb xfb edgeA false) as [ c | w | ];
      destruct (clip_incident pb xfb pa xfa edgeB false) as [ c' | w' | ];
      try exact I; exact H.
Qed.

(** The exceptions on the inputs above.  The unit squares at (0,0) and
    (0.5,0) and the boxes at (0,0) and (1.5,1.2) are in a tie that does not
    break the symmetry: the two reference edges face each other and the two
    calls return mirror images.  The boxes at (0,0) and (1.5,1.5) are in a tie
    that does: each box has two edges at the maximal separation, and the two
    calls settle on edges that do not face each other. *)
Lemma tie_examples :
  arbitrary_choice (unit_square 0 0) identity (unit_square 0.5 0) identity = true
  /\ tie_breaks_symmetry (unit_square 0 0) identity (unit_square 0.5 0) identity = false
  /\ Collide (unit_square 0 0) identity (unit_square 0.5 0) identity
     = Ret (Some (mkCollision (Pt 1 (-0)) 0.5))
  /\ Collide (unit_square 0.5 0) identity (unit_square 0 0) identity
     = Ret (Some (mkCollision (Pt (-1) (-0)) 0.5))
  /\ arbitrary_choice (box 0 0) identity (box 1.5 1.2) identity = true
  /\ tie_breaks_symmetry (box 0 0) identity (box 1.5 1.2) identity = false
  /\ tie_breaks_symmetry (box 0 0) identity (box 1.5 1.5) identity = true
  /\ coincident_centres (disc 1) identity (disc 2) identity = true.
Proof. repeat split; vm_compute; reflexivity. Qed.



(** ** C8 *)

Lemma clip_conditions_exclusive : forall d1 d2 : float,
  (d1 <=? 0) && (d2 <=? 0) && (d1 * d2 <? 0) = false.
Proof.
  intros d1 d2.
  destruct (d1 <=? 0) eqn:H1; [ | reflexivity ].
  destruct (d2 <=? 0) eqn:H2; [ | reflexivity ].
  cbn. now apply mul_nonpos_nonpos.
Qed.

(** C8: in [clip], for every plane (n, c) and every two-point segment, the
    three write conditions never hold together, so every write to the
    two-element array is in bounds (the call does not panic), the returned
    count is 0, 1 or 2, and the segment still has two points. *)
Theorem C8_clip_in_bounds : forall (n : Point) (c : float) (e0 e1 : Point),
  let d1 := Dot n e0 - c in
  let d2 := Dot n e1 - c in
  (d1 <=? 0) && (d2 <=? 0) && (d1 * d2 <? 0) = false
  /\ exists sp o0 o1, clip n c [e0; e1] = Ret (sp, [o0; o1]) /\ (0 <= sp <= 2)%Z.
Proof.
  intros n c e0 e1 d1 d2. split; [ apply clip_conditions_exclusive | ].
  pose proof (clip_conditions_exclusive d1 d2) as Hex.
  unfold clip.
  change (index [e0; e1] 0%Z) with (Ret e0).
  change (index [e0; e1] 1%Z) with (Ret e1).
  cbn [bind nth]. fold d1 d2.
  destruct (d1 <=? 0) eqn:H1; destruct (d2 <=? 0) eqn:H2;
    destruct (d1 * d2 <? 0) eqn:H3; try discriminate Hex;
    cbn [bind out_set fst snd skipn Z.add Pos.add];
    do 3 eexists; (split; [ reflexivity | lia ]).
Qed.

(** ** C9 *)

(** C9: when either argument of [Collide] holds neither a circle nor a
    polygon, [Collide] returns no collision, whatever the other shape and
    the transforms are. *)
Theorem C9_unknown_shape_no_collision : forall (a b : Shape) (xfa xfb : Transform),
  is_builtin a = false \/ is_builtin b = false ->
  Collide a xfa b xfb = Ret None.
Proof.
  intros a b xfa xfb [H | H].
  - destruct a; try discriminate H; reflexivity.
  - destruct b; try discriminate H; destruct a; reflexivity.
Qed.

Lemma C9_unknown_shape_witness :
  Collide ShapeNil identity (unit_circle 0 0) identity = Ret None.
Proof.
  apply (C9_unknown_shape_no_collision ShapeNil (unit_circle 0 0) identity identity).
  left; reflexivity.
Defined.

(** ** Further properties of the package *)

(** *** The order of binary64 *)

Lemma SFcompare_key : forall x y,
  SFcompare x y = match SFkey x, SFkey y with
                  | Some a, Some b => Some (key_compare a b)
                  | _, _ => None
                  end.
Proof.
  intros [ sx | sx | | sx mx ex ] [ sy | sy | | sy my ey ]; cbn; try reflexivity;
    try (destruct sx; reflexivity); try (destruct sy; reflexivity);
    try (destruct sx, sy; reflexivity).
  change (Pos.compare_cont Eq mx my) with (Pos.compare mx my).
  destruct sx, sy; cbn; try reflexivity.
  all: try (rewrite Z.compare_opp, (Z.compare_antisym ex ey)).
  all: destruct (Z.compare ex ey); reflexivity.
Qed.

Lemma key_compare_Lt : forall a b, key_compare a b = Lt <-> key_lt a b.
Proof.
  intros [[a1 a2] a3] [[b1 b2] b3]; cbn.
  destruct (Z.compare_spec a1 b1); destruct (Z.compare_spec a2 b2);
    destruct (Z.compare_spec a3 b3); split; intros; try discriminate; try reflexivity; lia.
Qed.

Lemma key_compare_Eq : forall a b, key_compare a b = Eq <-> a = b.
Proof.
  intros [[a1 a2] a3] [[b1 b2] b3]; cbn.
  destruct (Z.compare_spec a1 b1); destruct (Z.compare_spec a2 b2);
    destruct (Z.compare_spec a3 b3); split; intros H'; try discriminate; try reflexivity;
    try (injection H' as ? ? ?; lia); subst; reflexivity.
Qed.

Lemma key_lt_trans : forall a b c, key_lt a b -> key_lt b c -> key_lt a c.
Proof. intros [[a1 a2] a3] [[b1 b2] b3] [[c1 c2] c3]; cbn; lia. Qed.

Lemma key_total : forall a b, key_lt a b \/ a = b \/ key_lt b a.
Proof.
  intros [[a1 a2] a3] [[b1 b2] b3]; cbn.
  destruct (Z.lt_total a1 b1) as [ | [ | ] ]; destruct (Z.lt_total a2 b2) as [ | [ | ] ];
    destruct (Z.lt_total a3 b3) as [ | [ | ] ]; subst; auto; try (left; lia); right; right; lia.
Qed.

Lemma ltb_key : forall x y : float,
  (x <? y) = true <-> exists a b, fkey x = Some a /\ fkey y = Some b /\ key_lt a b.
Proof.
  intros x y. rewrite ltb_spec. unfold SFltb, fkey. rewrite SFcompare_key.
  destruct (SFkey (Prim2SF x)) as [ a | ], (SFkey (Prim2SF y)) as [ b | ].
  - split.
    + intros H. exists a, b. repeat split. apply key_compare_Lt.
      destruct (key_compare a b); congruence.
    + intros (a' & b' & Ha & Hb & Hlt). injection Ha as <-. injection Hb as <-.
      apply key_compare_Lt in Hlt. now rewrite Hlt.
  - split; [ discriminate | intros (a' & b' & Ha & Hb & Hlt); discriminate ].
  - split; [ discriminate | intros (a' & b' & Ha & Hb & Hlt); discriminate ].
  - split; [ discriminate | intros (a' & b' & Ha & Hb & Hlt); discriminate ].
Qed.

Lemma leb_key : forall x y : float,
  (x <=? y) = true <-> exists a b, fkey x = Some a /\ fkey y = Some b /\ (key_lt a b \/ a = b).
Proof.
  intros x y. rewrite leb_spec. unfold SFleb, fkey. rewrite SFcompare_key.
  destruct (SFkey (Prim2SF x)) as [ a | ], (SFkey (Prim2SF y)) as [ b | ].
  - split.
    + intros H. exists a, b. repeat split.
      destruct (key_compare a b) eqn:E; try discriminate H.
      * right. now apply key_compare_Eq.
      * left. now apply key_compare_Lt.
    + intros (a' & b' & Ha & Hb & Hle). injection Ha as <-. injection Hb as <-.
      destruct Hle as [ Hlt | Heq ].
      * apply key_compare_Lt in Hlt. now rewrite Hlt.
      * apply key_compare_Eq in Heq. now rewrite Heq.
  - split; [ discriminate | intros (a' & b' & Ha & Hb & Hlt); discriminate ].
  - split; [ discriminate | intros (a' & b' & Ha & Hb & Hlt); discriminate ].
  - split; [ discriminate | intros (a' & b' & Ha & Hb & Hlt); discriminate ].
Qed.

Lemma ltb_trans : forall x y z : float, (x <? y) = true -> (y <? z) = true -> (x <? z) = true.
Proof.
  intros x y z H1 H2. apply ltb_key in H1 as (a & b & Ha & Hb & H1).
  apply ltb_key in H2 as (b' & c & Hb' & Hc & H2).
  rewrite Hb in Hb'. injection Hb' as <-.
  apply ltb_key. exists a, c. repeat split; try assumption. eapply key_lt_trans; eassumption.
Qed.

(** [y] is not beaten by [z] when a smaller [x] was not. *)
Lemma not_ltb_raise : forall x y z : float,
  (x <? y) = true -> (x <? z) = false -> (y <? z) = false.
Proof.
  intros x y z H1 H2. destruct (y <? z) eqn:E; [ | reflexivity ].
  rewrite (ltb_trans _ _ _ H1 E) in H2. discriminate H2.
Qed.

Lemma not_ltb_lower : forall x y z : float,
  (y <? x) = true -> (z <? x) = false -> (z <? y) = false.
Proof.
  intros x y z H1 H2. destruct (z <? y) eqn:E; [ | reflexivity ].
  rewrite (ltb_trans _ _ _ E H1) in H2. discriminate H2.
Qed.

(** *** shape.go *)

Lemma edge_normals_length : forall first rest, length (edge_normals first rest) = length rest.
Proof.
  intros first rest. induction rest as [ | pi rest IH ]; cbn [edge_normals length];
    [ reflexivity | now rewrite IH ].
Qed.

(** X1: [NewPolygon] keeps the points it is given and builds one normal for
    each of them: every polygon it returns (so every [Rectangle] and [Rect])
    is well formed, which [Collide] relies on when it reads [Normals] at the
    index of a point. *)
Theorem NewPolygon_one_normal_per_point : forall points,
  Points (NewPolygon points) = points
  /\ length (Normals (NewPolygon points)) = length points
  /\ well_formed (ShapePolygon (NewPolygon points)) = true.
Proof.
  intros points. unfold NewPolygon. cbn [Points Normals well_formed].
  rewrite edge_normals_length. repeat split. apply Nat.eqb_refl.
Qed.

(** The scan of [getSupport] returns [best] or an index it visits. *)
Lemma support_scan_range : forall dir rest i best maxDist,
  (0 <= best < i)%Z ->
  (0 <= support_scan dir rest i best maxDist < i + len rest)%Z.
Proof.
  intros dir rest. unfold len.
  induction rest as [ | q rest IH ]; intros i best maxDist H; cbn [support_scan length].
  - lia.
  - cbv zeta. destruct (maxDist <? Dot dir q).
    + specialize (IH (i + 1)%Z i (Dot dir q)). lia.
    + specialize (IH (i + 1)%Z best maxDist). lia.
Qed.

Lemma index_in_range : forall (A : Type) (s : list A) (i : Z),
  (0 <= i < len s)%Z -> exists x, index s i = Ret x.
Proof.
  intros A s i H. unfold len in H.
  destruct (index_of_nat A s (Z.to_nat i)) as [ x Hx ]; [ lia | ].
  rewrite Z2Nat.id in Hx by lia. eauto.
Qed.

Lemma Polygon_getSupport_range : forall p dir,
  (0 < len (Points p))%Z ->
  exists i, Polygon_getSupport p dir = Ret i /\ (0 <= i < len (Points p))%Z.
Proof.
  intros p dir H. unfold Polygon_getSupport.
  destruct (Points p) as [ | q0 rest ]; [ cbn in H; lia | ].
  eexists; split; [ reflexivity | ].
  pose proof (support_scan_range dir rest 1 0 (Dot dir q0)) as R.
  unfold len in *. cbn [length]. lia.
Qed.

(** X2: on a polygon with at least one point, [getSupport] returns, for
    every direction, the index of one of the polygon's points, so [getVertex]
    accepts it. *)
Theorem getSupport_index_is_valid : forall p dir,
  (0 < len (Points p))%Z ->
  exists i q, getSupport (ShapePolygon p) dir = Ret i
    /\ (0 <= i < len (Points p))%Z
    /\ getVertex (ShapePolygon p) i = Ret q.
Proof.
  intros p dir H. cbn [getSupport getVertex].
  destruct (Polygon_getSupport_range p dir H) as (i & Hi & R).
  destruct (index_in_range _ (Points p) i R) as (q & Hq).
  exists i, q. auto.
Qed.

Lemma getSupport_index_is_valid_witness :
  exists i q, getSupport (box 0 0) (Pt 1 1) = Ret i
    /\ (0 <= i < len (Points (Rect 0 0 2 2)))%Z
    /\ getVertex (box 0 0) i = Ret q.
Proof.
  apply (getSupport_index_is_valid (Rect 0 0 2 2) (Pt 1 1)). reflexivity.
Defined.

(** On a polygon without points [getSupport] panics. *)
Lemma getSupport_empty_polygon_panics : forall normals dir,
  getSupport (ShapePolygon (mkPolygon [] normals)) dir = Panic IndexOutOfRange.
Proof. reflexivity. Qed.

(** The scan keeps a vertex that none of the visited ones beats. *)
Lemma support_scan_maximal : forall dir rest seen i best maxDist,
  (forall q, In q seen -> (maxDist <? Dot dir q) = false) ->
  nth_error (seen ++ rest) (Z.to_nat best) = Some (nth (Z.to_nat best) (seen ++ rest) (Pt 0 0)) ->
  maxDist = Dot dir (nth (Z.to_nat best) (seen ++ rest) (Pt 0 0)) ->
  i = len seen -> (0 <= best < i)%Z ->
  let r := support_scan dir rest i best maxDist in
  forall q, In q (seen ++ rest) ->
    (Dot dir (nth (Z.to_nat r) (seen ++ rest) (Pt 0 0)) <? Dot dir q) = false.
Proof.
  intros dir rest. induction rest as [ | p rest IH ];
    intros seen i best maxDist Hseen Hnth Hmax Hi Hb; cbn [support_scan]; cbv zeta.
  - intros q Hq. rewrite app_nil_r in *. rewrite <- Hmax. now apply Hseen.
  - assert (Eapp : seen ++ p :: rest = (seen ++ [p]) ++ rest) by now rewrite <- app_assoc.
    assert (Hlen : len (seen ++ [p]) = (i + 1)%Z).
    { unfold len in *. rewrite length_app. cbn [length]. lia. }
    assert (Hp : nth (Z.to_nat i) (seen ++ p :: rest) (Pt 0 0) = p).
    { rewrite app_nth2; unfold len in Hi; [ | lia ].
      replace (Z.to_nat i - length seen)%nat with O by lia. reflexivity. }
    destruct (maxDist <? Dot dir p) eqn:E.
    + rewrite Eapp. apply IH; rewrite <- ?Eapp; try lia.
      * intros q Hq. apply in_app_or in Hq as [ Hq | [ <- | [] ] ].
        -- eapply not_ltb_raise; [ exact E | now apply Hseen ].
        -- destruct (Dot dir p <? Dot dir p) eqn:E'; [ | reflexivity ].
           now rewrite (ltb_asym _ _ E') in E'.
      * apply nth_error_nth'. rewrite length_app. cbn [length]. unfold len in Hi. lia.
      * now rewrite Hp.
    + rewrite Eapp. apply IH; rewrite <- ?Eapp; try lia.
      * intros q Hq. apply in_app_or in Hq as [ Hq | [ <- | [] ] ]; [ now apply Hseen | exact E ].
      * exact Hnth.
      * exact Hmax.
Qed.

(** X3: the vertex [getSupport] returns is a furthest one along [dir]: no
    point of the polygon has a greater dot product with [dir] (in binary64,
    NaN products included: a comparison with NaN is false). *)
Theorem getSupport_is_furthest : forall p dir i,
  getSupport (ShapePolygon p) dir = Ret i ->
  exists v, getVertex (ShapePolygon p) i = Ret v
    /\ forall q, In q (Points p) -> (Dot dir v <? Dot dir q) = false.
Proof.
  intros p dir i H. cbn [getSupport getVertex] in *.
  assert (Hne : (0 < len (Points p))%Z).
  { unfold Polygon_getSupport in H. destruct (Points p); [ discriminate H | ].
    unfold len; cbn [length]; lia. }
  destruct (Polygon_getSupport_range p dir Hne) as (i' & Hi' & R).
  rewrite H in Hi'. injection Hi' as <-.
  unfold Polygon_getSupport in H. destruct (Points p) as [ | q0 rest ] eqn:EP; [ discriminate H | ].
  injection H as H.
  pose proof (support_scan_maximal dir rest [q0] 1 0 (Dot dir q0)) as M.
  cbv zeta in M. rewrite H in M. cbn [app] in M.
  exists (nth (Z.to_nat i) (q0 :: rest) (Pt 0 0)). split.
  - unfold index. destruct (i <? 0)%Z eqn:E; [ apply Z.ltb_lt in E; lia | ].
    rewrite (nth_error_nth' (q0 :: rest) (Pt 0 0)); [ reflexivity | unfold len in R; lia ].
  - apply M; try reflexivity; try lia.
    intros q [ <- | [] ].
    destruct (Dot dir q0 <? Dot dir q0) eqn:E'; [ | reflexivity ].
    now rewrite (ltb_asym _ _ E') in E'.
Qed.

Lemma getSupport_is_furthest_witness :
  exists v, getVertex (box 0 0) 2%Z = Ret v
    /\ forall q, In q (Points (Rect 0 0 2 2)) -> (Dot (Pt 1 1) v <? Dot (Pt 1 1) q) = false.
Proof.
  apply (getSupport_is_furthest (Rect 0 0 2 2) (Pt 1 1) 2%Z). reflexivity.
Defined.

(** *** GJK and Distance *)

(** X4: for two circles [Distance] is the length of the difference of the
    transformed centres, whatever the radii: GJK sees a circle as its centre.
    One turn of the main loop is enough. *)
Theorem Distance_of_circles_ignores_radii : forall fuel ca xfa cb xfb,
  Distance (S fuel) (ShapeCircle ca) xfa (ShapeCircle cb) xfb
  = Ret (Length (Sub (Transform_Mul xfb (Center cb)) (Transform_Mul xfa (Center ca)))).
Proof.
  intros fuel ca xfa cb xfb. unfold Distance, GJK. cbn [GJK_seed count zero_Simplex Z.eqb getVertex bind].
  cbn [GJK_loop]. unfold GJK_turn.
  cbn [old_indices evolve set_v0 set_count count v0 v1 v2 bind Z.eqb Pos.eqb searchDirection v_p].
  destruct (LengthSquared _ =? 0); reflexivity.
Qed.

(** X5: after [GJK] on two circles from an empty simplex, [WitnessPoints]
    returns A's centre and the point (0, 0): with one vertex it reads the
    witness on B from [v[1]], which the run never wrote, not from [v[0]]. *)
Theorem WitnessPoints_of_circles : forall fuel ca xfa cb xfb,
  (s <- GJK (S fuel) zero_Simplex (ShapeCircle ca) xfa (ShapeCircle cb) xfb ;; WitnessPoints s)
  = Ret (Center ca, Pt 0 0).
Proof.
  intros fuel ca xfa cb xfb. unfold GJK. cbn [GJK_seed count zero_Simplex Z.eqb getVertex bind].
  cbn [GJK_loop]. unfold GJK_turn.
  cbn [old_indices evolve set_v0 set_count count v0 v1 v2 bind Z.eqb Pos.eqb searchDirection v_p].
  destruct (LengthSquared _ =? 0); reflexivity.
Qed.

Lemma evolveLine_keeps : forall a xfa b xfb s,
  count s = 2%Z -> consistent a xfa b xfb s ->
  let s' := evolveLine s in
  (1 <= count s' <= 2)%Z /\ consistent a xfa b xfb s'.
Proof.
  intros a xfa b xfb s Hc (H0 & H1 & H2). cbv zeta. unfold evolveLine. cbv zeta.
  specialize (H0 ltac:(lia)). specialize (H1 ltac:(lia)).
  destruct (_ <=? 0); [ | destruct (_ <=? 0) ];
    cbn [count set_count set_v0 set_v1 v0 v1 v2]; unfold consistent;
    cbn [count set_count set_v0 set_v1 v0 v1 v2];
    (split; [ lia | ]); repeat split; intros; try lia; try apply H0; try apply H1.
Qed.

Lemma evolveTriangle_keeps : forall a xfa b xfb s,
  count s = 3%Z -> consistent a xfa b xfb s ->
  let s' := evolveTriangle s in
  (1 <= count s' <= 3)%Z /\ consistent a xfa b xfb s'.
Proof.
  intros a xfa b xfb s Hc (H0 & H1 & H2). cbv zeta. unfold evolveTriangle. cbv zeta.
  specialize (H0 ltac:(lia)). specialize (H1 ltac:(lia)). specialize (H2 ltac:(lia)).
  repeat match goal with
         | |- context [ if ?c then _ else _ ] => destruct c
         end;
    cbn [count set_count set_v0 set_v1 set_v2 v0 v1 v2]; unfold consistent;
    cbn [count set_count set_v0 set_v1 set_v2 v0 v1 v2];
    (split; [ lia | ]); repeat split; intros; try lia;
    try apply H0; try apply H1; try apply H2.
Qed.

Lemma evolve_keeps : forall a xfa b xfb s,
  (1 <= count s <= 3)%Z -> consistent a xfa b xfb s ->
  exists s', evolve s = Ret s' /\ (1 <= count s' <= 3)%Z /\ (count s' <= count s)%Z
             /\ consistent a xfa b xfb s'.
Proof.
  intros a xfa b xfb s Hc H. unfold evolve.
  assert (E : count s = 1%Z \/ count s = 2%Z \/ count s = 3%Z) by lia.
  destruct E as [ E | [ E | E ] ]; rewrite E.
  - exists s. split; [ reflexivity | ]. split; [ lia | ]. split; [ lia | exact H ].
  - destruct (evolveLine_keeps a xfa b xfb s E H) as [ R C ].
    eexists; split; [ reflexivity | ]. split; [ lia | ]. split; [ lia | exact C ].
  - destruct (evolveTriangle_keeps a xfa b xfb s E H) as [ R C ].
    eexists; split; [ reflexivity | ]. split; [ lia | ]. split; [ lia | exact C ].
Qed.

Lemma support_vertex_consistent : forall a xfa b xfb dir x,
  support_vertex a xfa b xfb dir = Ret x -> vertex_consistent a xfa b xfb x.
Proof.
  intros a xfa b xfb dir x. unfold support_vertex.
  destruct (getSupport a _) as [ ia | | ]; cbn [bind]; try discriminate.
  destruct (getSupport b _) as [ ib | | ]; cbn [bind]; try discriminate.
  destruct (getVertex a ia) as [ va | | ] eqn:Ea; cbn [bind]; try discriminate.
  destruct (getVertex b ib) as [ vb | | ] eqn:Eb; cbn [bind]; try discriminate.
  intros H; injection H as <-. repeat split; assumption.
Qed.

Lemma populated_getSupport : forall s dir,
  populated s = true -> exists i v, getSupport s dir = Ret i /\ getVertex s i = Ret v.
Proof.
  intros [ c | p | o | ] dir H; try discriminate H; cbn [populated] in H.
  - exists 0%Z, (Center c). split; reflexivity.
  - apply Z.ltb_lt in H.
    destruct (Polygon_getSupport_range p dir H) as (i & Hi & R).
    destruct (index_in_range _ (Points p) i R) as (q & Hq).
    exists i, q. split; assumption.
Qed.

Lemma populated_first_vertex : forall s,
  populated s = true -> exists v, getVertex s 0%Z = Ret v.
Proof.
  intros [ c | p | o | ] H; try discriminate H; cbn [populated] in H.
  - eexists; reflexivity.
  - apply Z.ltb_lt in H. apply index_in_range. lia.
Qed.

Lemma support_vertex_returns : forall a xfa b xfb dir,
  populated a = true -> populated b = true ->
  exists x, support_vertex a xfa b xfb dir = Ret x.
Proof.
  intros a xfa b xfb dir Ha Hb. unfold support_vertex.
  destruct (populated_getSupport a (Rotation_MulT (Rotation_of xfa) (Neg dir)) Ha)
    as (ia & va & Eia & Eva).
  destruct (populated_getSupport b (Rotation_MulT (Rotation_of xfb) dir) Hb)
    as (ib & vb & Eib & Evb).
  rewrite Eia, Eib. cbn [bind]. rewrite Eva, Evb. cbn [bind]. eauto.
Qed.

(** One turn of the main loop from a simplex of one to three consistent
    vertices: what a turn that returns leaves, and that it returns when both
    shapes have a vertex to offer. *)
Lemma GJK_turn_keeps : forall a xfa b xfb s,
  (1 <= count s <= 3)%Z -> consistent a xfa b xfb s ->
  (forall t, GJK_turn a xfa b xfb s = Ret t ->
     match t with
     | Done s' => (1 <= count s' <= 3)%Z /\ consistent a xfa b xfb s'
     | Again s' => (2 <= count s' <= 3)%Z /\ consistent a xfa b xfb s'
     end)
  /\ (populated a = true -> populated b = true -> exists t, GJK_turn a xfa b xfb s = Ret t).
Proof.
  intros a xfa b xfb s Hc H. unfold GJK_turn.
  assert (Eold : exists old, old_indices s = Ret old).
  { unfold old_indices.
    assert (E : count s = 1%Z \/ count s = 2%Z \/ count s = 3%Z) by lia.
    destruct E as [ E | [ E | E ] ]; rewrite E; eauto. }
  destruct Eold as [ old -> ]. cbn [bind].
  destruct (evolve_keeps a xfa b xfb s Hc H) as (s1 & -> & R1 & _ & C1). cbn [bind].
  destruct (count s1 =? 3)%Z eqn:E3.
  { split; [ intros t Ht; injection Ht as <-; auto | eauto ]. }
  apply Z.eqb_neq in E3.
  assert (Edir : exists dir, searchDirection s1 = Ret dir).
  { unfold searchDirection.
    assert (E : count s1 = 1%Z \/ count s1 = 2%Z) by lia.
    destruct E as [ E | E ]; rewrite E; [ eauto | ].
    cbv zeta. destruct (0 <? _); eauto. }
  destruct Edir as [ dir -> ]. cbn [bind].
  destruct (LengthSquared dir =? 0).
  { split; [ intros t Ht; injection Ht as <-; auto | eauto ]. }
  assert (E : count s1 = 1%Z \/ count s1 = 2%Z) by lia.
  split.
  - intros t Ht.
    destruct (support_vertex a xfa b xfb dir) as [ x | | ] eqn:Es; cbn [bind] in Ht;
      try discriminate Ht.
    pose proof (support_vertex_consistent _ _ _ _ _ _ Es) as Cx.
    destruct (duplicate x old); [ injection Ht as <-; auto | ].
    destruct C1 as (C0 & C1 & C2).
    destruct E as [ E | E ]; rewrite E in Ht; cbn [v_set bind] in Ht; injection Ht as <-;
      unfold consistent; cbn [count set_count set_v0 set_v1 set_v2 v0 v1 v2];
      try change (2 mod 256)%Z with 2%Z; try change (3 mod 256)%Z with 3%Z;
      (split; [ lia | ]); repeat split; intros; try lia;
      try (apply C0; lia); try (apply C1; lia); apply Cx.
  - intros Ha Hb.
    destruct (support_vertex_returns a xfa b xfb dir Ha Hb) as [ x -> ]. cbn [bind].
    destruct (duplicate x old); [ eauto | ].
    destruct E as [ E | E ]; rewrite E; cbn [v_set bind]; eauto.
Qed.

Lemma GJK_loop_keeps : forall fuel a xfa b xfb s,
  (1 <= count s <= 3)%Z -> consistent a xfa b xfb s ->
  (forall s', GJK_loop fuel a xfa b xfb s = Ret s' ->
     (1 <= count s' <= 3)%Z /\ consistent a xfa b xfb s')
  /\ (populated a = true -> populated b = true ->
      (exists s', GJK_loop fuel a xfa b xfb s = Ret s')
      \/ GJK_loop fuel a xfa b xfb s = OutOfFuel).
Proof.
  induction fuel as [ | fuel IH ]; intros a xfa b xfb s Hc H; cbn [GJK_loop].
  - split; [ discriminate | auto ].
  - destruct (GJK_turn_keeps a xfa b xfb s Hc H) as [ K R ].
    split.
    + intros s' Hs'.
      destruct (GJK_turn a xfa b xfb s) as [ [ s1 | s1 ] | | ]; cbn [bind] in Hs';
        try discriminate Hs'.
      * injection Hs' as <-. now apply (K (Done s1)).
      * destruct (K (Again s1) eq_refl) as [ R1 C1 ].
        apply (IH a xfa b xfb s1); [ lia | assumption | assumption ].
    + intros Ha Hb. destruct (R Ha Hb) as [ [ s1 | s1 ] Ht ]; rewrite Ht in K |- *; cbn [bind].
      * left; eauto.
      * destruct (K (Again s1) eq_refl) as [ R1 C1 ].
        apply (IH a xfa b xfb s1); [ lia | assumption | assumption | assumption ].
Qed.

Lemma GJK_seed_keeps : forall a xfa b xfb s,
  (0 <= count s <= 3)%Z -> consistent a xfa b xfb s ->
  (forall s', GJK_seed a xfa b xfb s = Ret s' ->
     (1 <= count s' <= 3)%Z /\ consistent a xfa b xfb s')
  /\ (populated a = true -> populated b = true -> exists s', GJK_seed a xfa b xfb s = Ret s').
Proof.
  intros a xfa b xfb s Hc H. unfold GJK_seed.
  destruct (count s =? 0)%Z eqn:E0.
  - split.
    + intros s'.
      destruct (getVertex a 0%Z) as [ va | | ] eqn:Ea; cbn [bind]; try discriminate.
      destruct (getVertex b 0%Z) as [ vb | | ] eqn:Eb; cbn [bind]; try discriminate.
      intros Hs; injection Hs as <-. cbn [count set_count set_v0]. split; [ lia | ].
      unfold consistent; cbn [count set_count set_v0 v0 v1 v2].
      repeat split; intros; try lia; assumption.
    + intros Ha Hb.
      destruct (populated_first_vertex a Ha) as [ va -> ].
      destruct (populated_first_vertex b Hb) as [ vb -> ]. cbn [bind]. eauto.
  - apply Z.eqb_neq in E0. split; [ | eauto ].
    intros s' Hs; injection Hs as <-. split; [ lia | assumption ].
Qed.

(** X6: when [GJK] returns, the simplex has one to three vertices and each
    of them holds a pair of support points: [a] and [b] are the vertices of
    the two shapes at [indexA] and [indexB], and [p] is their difference after
    the transforms; provided the vertices the simplex came with did (an empty
    simplex has none). *)
Theorem GJK_keeps_support_data : forall fuel s a xfa b xfb s',
  GJK fuel s a xfa b xfb = Ret s' ->
  consistent a xfa b xfb s ->
  (1 <= count s' <= 3)%Z /\ consistent a xfa b xfb s'.
Proof.
  intros fuel s a xfa b xfb s' Hrun H. unfold GJK in Hrun.
  assert (Hc : (0 <= count s <= 3)%Z).
  { destruct (Z_le_dec 0 (count s)) as [ H0 | H0 ];
      [ destruct (Z_le_dec (count s) 3) as [ H3 | H3 ]; [ lia | ] | ].
    - exfalso. unfold GJK_seed in Hrun.
      destruct (count s =? 0)%Z eqn:E0; [ apply Z.eqb_eq in E0; lia | ].
      cbn [bind] in Hrun. destruct fuel as [ | fuel ]; [ discriminate Hrun | ].
      cbn [GJK_loop] in Hrun. unfold GJK_turn, old_indices in Hrun.
      destruct (count s) as [ | [ [ | | ] | [ | | ] | ] | ]; try lia; discriminate Hrun.
    - exfalso. unfold GJK_seed in Hrun.
      destruct (count s =? 0)%Z eqn:E0; [ apply Z.eqb_eq in E0; lia | ].
      cbn [bind] in Hrun. destruct fuel as [ | fuel ]; [ discriminate Hrun | ].
      cbn [GJK_loop] in Hrun. unfold GJK_turn, old_indices in Hrun.
      destruct (count s) as [ | | ]; try lia; discriminate Hrun. }
  destruct (GJK_seed_keeps a xfa b xfb s Hc H) as [ K _ ].
  destruct (GJK_seed a xfa b xfb s) as [ s0 | | ]; cbn [bind] in Hrun; try discriminate Hrun.
  destruct (K s0 eq_refl) as [ R0 C0 ].
  now apply (proj1 (GJK_loop_keeps fuel a xfa b xfb s0 R0 C0)).
Qed.

Lemma GJK_keeps_support_data_witness :
  exists s', GJK 10 zero_Simplex (box 0 0) identity (unit_circle 3 0) identity = Ret s'
    /\ (1 <= count s' <= 3)%Z
    /\ consistent (box 0 0) identity (unit_circle 3 0) identity s'.
Proof.
  eexists. split; [ vm_compute; reflexivity | ].
  apply (GJK_keeps_support_data 10 zero_Simplex (box 0 0) identity (unit_circle 3 0) identity).
  - vm_compute; reflexivity.
  - unfold consistent. cbn [count zero_Simplex]. repeat split; intros; lia.
Defined.

(** X7: on circles and polygons with at least one point, [Distance] never
    panics: it returns a number, or the main loop of GJK does not end within
    the fuel (C4). *)
Theorem Distance_does_not_panic : forall fuel a xfa b xfb,
  populated a = true -> populated b = true ->
  (exists d, Distance fuel a xfa b xfb = Ret d) \/ Distance fuel a xfa b xfb = OutOfFuel.
Proof.
  intros fuel a xfa b xfb Ha Hb. unfold Distance, GJK.
  assert (Hz : consistent a xfa b xfb zero_Simplex).
  { unfold consistent. cbn [count zero_Simplex]. repeat split; intros; lia. }
  destruct (GJK_seed_keeps a xfa b xfb zero_Simplex ltac:(cbn; lia) Hz) as [ K R ].
  destruct (R Ha Hb) as [ s0 Hs0 ]. rewrite Hs0. cbn [bind].
  destruct (K s0 Hs0) as [ R0 C0 ].
  destruct (GJK_loop_keeps fuel a xfa b xfb s0 R0 C0) as [ K1 R1 ].
  destruct (R1 Ha Hb) as [ [ s1 Hs1 ] | Hout ].
  - rewrite Hs1. cbn [bind]. left.
    destruct (K1 s1 Hs1) as [ Rc _ ]. unfold ClosestPoint.
    assert (E : count s1 = 1%Z \/ count s1 = 2%Z \/ count s1 = 3%Z) by lia.
    destruct E as [ E | [ E | E ] ]; rewrite E; cbn [bind]; eauto.
  - rewrite Hout. right. reflexivity.
Qed.

Lemma Distance_does_not_panic_witness :
  (exists d, Distance 10 (box 0 0) identity (unit_circle 3 0) identity = Ret d)
  \/ Distance 10 (box 0 0) identity (unit_circle 3 0) identity = OutOfFuel.
Proof.
  apply (Distance_does_not_panic 10 (box 0 0) identity (unit_circle 3 0) identity);
    reflexivity.
Defined.

Lemma sqrt_not_negative : forall x : float, (sqrt x <? 0) = false.
Proof.
  intros x. rewrite ltb_spec, sqrt_spec. change (Prim2SF 0) with (S754_zero false).
  unfold SF64sqrt, SFsqrt.
  destruct (Prim2SF x) as [ s | [ | ] | | [ | ] m e ]; try reflexivity.
  destruct (SFsqrt_core_binary prec emax (Z.pos m) e) as [ [ mz ez ] lz ].
  apply SFltb_nonneg_zero with (s := false).
  pose proof (binary_round_aux_sign false mz ez lz) as H. cbn zeta in H. tauto.
Qed.

(** X8: a distance that [Distance] returns is never negative (it is a
    square root: zero, positive, +Inf or NaN). *)
Theorem Distance_is_not_negative : forall fuel a xfa b xfb d,
  Distance fuel a xfa b xfb = Ret d -> (d <? 0) = false.
Proof.
  intros fuel a xfa b xfb d. unfold Distance.
  destruct (GJK fuel zero_Simplex a xfa b xfb) as [ s | | ]; cbn [bind]; try discriminate.
  destruct (ClosestPoint s) as [ p | | ]; cbn [bind]; try discriminate.
  intros H; injection H as <-. apply sqrt_not_negative.
Qed.

Lemma Distance_is_not_negative_witness :
  (3 <? 0) = false.
Proof.
  apply (Distance_is_not_negative 1 (unit_circle 0 0) identity (unit_circle 3 0) identity 3).
  vm_compute; reflexivity.
Defined.

(** X9: [Distance] panics when a shape has no vertex to offer, in either
    position: index out of range for a polygon without points, a nil
    dereference for a nil [Shape] (where [Collide] returns nil, C9). *)
Theorem Distance_without_vertices_panics : forall fuel normals xfa xfb other,
  populated other = true ->
  Distance fuel (ShapePolygon (mkPolygon [] normals)) xfa other xfb = Panic IndexOutOfRange
  /\ Distance fuel other xfa (ShapePolygon (mkPolygon [] normals)) xfb = Panic IndexOutOfRange
  /\ Distance fuel ShapeNil xfa other xfb = Panic NilDereference
  /\ Distance fuel other xfa ShapeNil xfb = Panic NilDereference.
Proof.
  intros fuel normals xfa xfb other H.
  destruct (populated_first_vertex other H) as [ v Hv ].
  unfold Distance, GJK, GJK_seed. cbn [count zero_Simplex Z.eqb].
  rewrite Hv. repeat split; reflexivity.
Qed.

Lemma Distance_without_vertices_panics_witness :
  Distance 5 (ShapePolygon (mkPolygon [] [])) identity (unit_circle 0 0) identity
    = Panic IndexOutOfRange
  /\ Distance 5 (unit_circle 0 0) identity (ShapePolygon (mkPolygon [] [])) identity
    = Panic IndexOutOfRange
  /\ Distance 5 ShapeNil identity (unit_circle 0 0) identity = Panic NilDereference
  /\ Distance 5 (unit_circle 0 0) identity ShapeNil identity = Panic NilDereference.
Proof.
  apply (Distance_without_vertices_panics 5 [] identity identity (unit_circle 0 0)).
  reflexivity.
Defined.

(** *** math.go *)

(** math.go *)
Lemma eqb_zero_inv : forall x : float, (x =? 0) = true -> exists s, Prim2SF x = S754_zero s.
Proof.
  intros x. rewrite eqb_spec. change (Prim2SF 0) with (S754_zero false).
  destruct (Prim2SF x) as [ s | [ | ] | | [ | ] m e ]; cbn; try discriminate. eauto.
Qed.

(** X10: [Normalize] returns a vector for which [IsZero] holds as it is,
    the sign of each zero kept: it does not divide by the zero length. *)
Theorem Normalize_of_zero : forall p, IsZero p = true -> Normalize p = p.
Proof.
  intros p H. unfold IsZero in H. apply andb_true_iff in H as [ Hx Hy ].
  apply eqb_zero_inv in Hx as [ sx Hx ]. apply eqb_zero_inv in Hy as [ sy Hy ].
  unfold Normalize, Length. cbv zeta.
  assert (E : (sqrt (X p * X p + Y p * Y p) =? 0) = true).
  { rewrite eqb_spec, sqrt_spec, add_spec, !mul_spec, Hx, Hy.
    destruct sx, sy; reflexivity. }
  now rewrite E.
Qed.

Lemma Normalize_of_zero_witness : Normalize (Pt 0 (-0)) = Pt 0 (-0).
Proof. apply (Normalize_of_zero (Pt 0 (-0))). reflexivity. Defined.

Lemma SFmul_comm : forall x y, SFmul prec emax x y = SFmul prec emax y x.
Proof.
  intros [ sx | sx | | sx mx ex ] [ sy | sy | | sy my ey ]; cbn;
    rewrite ?(xorb_comm sx sy); try reflexivity.
  now rewrite (Pos.mul_comm mx my), (Z.add_comm ex ey).
Qed.

Lemma mul_comm : forall a b : float, a * b = b * a.
Proof. intros a b. apply Prim2SF_inj. rewrite !mul_spec. apply SFmul_comm. Qed.

(** X11: in binary64 [Dot] is symmetric, exactly, and [Cross] is
    antisymmetric: [Cross p q] is [- Cross q p] (either zero for the other, or
    both NaN). *)
Theorem Dot_symmetric_Cross_antisymmetric : forall p q,
  Dot p q = Dot q p /\ same (Cross p q) (- Cross q p) = true.
Proof.
  intros p q. split.
  - unfold Dot. now rewrite (mul_comm (X p)), (mul_comm (Y p)).
  - apply same_spec, opv_opp_r. unfold Cross.
    rewrite (mul_comm (X q)), (mul_comm (Y q)).
    apply sub_swap; apply eqv_refl.
Qed.

(** *** Collide *)

(** The index after [i] on a closed polygon of [n] vertices. *)
Lemma next_index_range : forall (i n : Z),
  (0 <= i < n)%Z -> (0 <= (if (i + 1 =? n)%Z then 0 else i + 1) < n)%Z.
Proof. intros i n H. destruct (Z.eqb_spec (i + 1) n); lia. Qed.

Lemma face_scan_range : forall rest a center radius i separation normalIndex,
  (0 <= i)%Z -> (i + len rest <= len (Normals a))%Z ->
  (0 <= normalIndex < Z.max 1 i)%Z ->
  exists found, face_scan a center radius rest i separation normalIndex = Ret found
    /\ forall s k, found = Some (s, k) -> (0 <= k < Z.max 1 (i + len rest))%Z.
Proof.
  unfold len. induction rest as [ | pt rest IH ];
    intros a center radius i separation normalIndex Hi Hn Hk; cbn [face_scan length].
  - eexists; split; [ reflexivity | ]. intros s k H; injection H as <- <-. lia.
  - cbn [length] in Hn. rewrite Nat2Z.inj_succ in *.
    destruct (index_in_range _ (Normals a) i) as [ ni Eni ]; [ unfold len; lia | ].
    rewrite Eni. cbn [bind]. cbv zeta.
    destruct (radius <? _).
    + eexists; split; [ reflexivity | discriminate ].
    + destruct (separation <? _).
      * destruct (IH a center radius (i + 1)%Z (Dot ni (Sub center pt)) i)
          as (found & E & R); try lia.
        exists found; split; [ exact E | ]. intros s k H. specialize (R s k H). lia.
      * destruct (IH a center radius (i + 1)%Z separation normalIndex)
          as (found & E & R); try lia.
        exists found; split; [ exact E | ]. intros s k H. specialize (R s k H). lia.
Qed.

Lemma CollidePolygonAndCircle_returns : forall a xfa b xfb,
  well_formed (ShapePolygon a) = true -> (0 < len (Points a))%Z ->
  exists c, CollidePolygonAndCircle a xfa b xfb = Ret c.
Proof.
  intros a xfa b xfb Hw Hne. cbn [well_formed] in Hw. apply Nat.eqb_eq in Hw.
  unfold CollidePolygonAndCircle. cbv zeta.
  destruct (face_scan_range (Points a) a
              (Transform_MulT xfa (Add (Center b) (Position xfb))) (Radius b) 0
              (- MaxFloat64) 0) as (found & -> & R); try (unfold len in *; lia).
  cbn [bind]. destruct found as [ [ separation normalIndex ] | ]; [ | eauto ].
  specialize (R separation normalIndex eq_refl).
  assert (Ri : (0 <= normalIndex < len (Points a))%Z) by lia.
  pose proof (next_index_range normalIndex (len (Points a)) Ri) as Rj.
  destruct (index_in_range _ (Points a) _ Ri) as [ v1 -> ].
  destruct (index_in_range _ (Points a) _ Rj) as [ v2 -> ].
  destruct (index_in_range _ (Normals a) normalIndex) as [ nn -> ]; [ unfold len in *; lia | ].
  cbn [bind].
  repeat match goal with
         | |- context [ if ?c then _ else _ ] => destruct c
         end; eauto.
Qed.

Lemma separation_scan_range : forall rest a xfa b xfb i bestIndex maxSeparation,
  (0 <= i)%Z -> (i + len rest <= len (Normals a))%Z ->
  (0 <= bestIndex < Z.max 1 i)%Z ->
  exists e s, separation_scan a xfa b xfb rest i bestIndex maxSeparation = Ret (e, s)
    /\ (0 <= e < Z.max 1 (i + len rest))%Z.
Proof.
  unfold len. induction rest as [ | pt rest IH ];
    intros a xfa b xfb i bestIndex maxSeparation Hi Hn Hk; cbn [separation_scan length].
  - do 2 eexists; split; [ reflexivity | lia ].
  - cbn [length] in Hn. rewrite Nat2Z.inj_succ in *.
    destruct (index_in_range _ (Normals a) i) as [ ni Eni ]; [ unfold len; lia | ].
    rewrite Eni. cbn [bind]. cbv zeta.
    destruct (maxSeparation <? _).
    + destruct (IH a xfa b xfb (i + 1)%Z i
                  (deepest (Rotation_MulT (Rotation_of xfb) (Rotation_Mul (Rotation_of xfa) ni))
                     (Transform_MulT xfb (Transform_Mul xfa pt)) (Points b) MaxFloat64))
        as (e & s & E & R); try lia.
      exists e, s; split; [ exact E | lia ].
    + destruct (IH a xfa b xfb (i + 1)%Z bestIndex maxSeparation) as (e & s & E & R); try lia.
      exists e, s; split; [ exact E | lia ].
Qed.

Lemma findMaxSeparation_range : forall a xfa b xfb,
  well_formed (ShapePolygon a) = true ->
  exists e s, findMaxSeparation a xfa b xfb = Ret (e, s)
    /\ (0 <= e < Z.max 1 (len (Points a)))%Z.
Proof.
  intros a xfa b xfb Hw. cbn [well_formed] in Hw. apply Nat.eqb_eq in Hw.
  unfold findMaxSeparation.
  destruct (separation_scan_range (Points a) a xfa b xfb 0 0 (- MaxFloat64))
    as (e & s & E & R); try (unfold len in *; lia).
  exists e, s. split; [ exact E | lia ].
Qed.

Lemma incident_scan_range : forall normal rest i best minDot,
  (0 <= i)%Z -> (0 <= best < Z.max 1 i)%Z ->
  (0 <= incident_scan normal rest i best minDot < Z.max 1 (i + len rest))%Z.
Proof.
  intros normal rest. unfold len.
  induction rest as [ | ni rest IH ]; intros i best minDot Hi Hb; cbn [incident_scan length].
  - lia.
  - rewrite Nat2Z.inj_succ. cbv zeta. destruct (_ <? minDot).
    + specialize (IH (i + 1)%Z i (Dot normal ni)). lia.
    + specialize (IH (i + 1)%Z best minDot). lia.
Qed.

(** What [clip] does to a segment of two points, case by case. *)
Lemma clip_pair : forall n c e0 e1,
  let d1 := Dot n e0 - c in
  let d2 := Dot n e1 - c in
  let x := Add e0 (Mul (Sub e1 e0) (d1 / (d1 - d2))) in
  clip n c [e0; e1]
  = Ret (if d1 <=? 0
         then if d2 <=? 0 then (2%Z, [e0; e1])
              else if d1 * d2 <? 0 then (2%Z, [e0; x]) else (1%Z, [e0; e1])
         else if d2 <=? 0
              then if d1 * d2 <? 0 then (2%Z, [e1; x]) else (1%Z, [e1; e1])
              else if d1 * d2 <? 0 then (1%Z, [x; e1]) else (0%Z, [e0; e1])).
Proof.
  intros n c e0 e1 d1 d2 x.
  pose proof (clip_conditions_exclusive d1 d2) as Hex.
  unfold clip.
  change (index [e0; e1] 0%Z) with (Ret e0).
  change (index [e0; e1] 1%Z) with (Ret e1).
  cbn [bind nth]. fold d1 d2. fold x.
  destruct (d1 <=? 0) eqn:H1; destruct (d2 <=? 0) eqn:H2;
    destruct (d1 * d2 <? 0) eqn:H3; try discriminate Hex;
    cbn [bind out_set fst snd skipn Z.add Pos.add]; reflexivity.
Qed.

Lemma clip_pair_returns : forall n c e0 e1,
  exists sp o0 o1, clip n c [e0; e1] = Ret (sp, [o0; o1]).
Proof.
  intros n c e0 e1. rewrite clip_pair. cbv zeta.
  repeat match goal with
         | |- context [ if ?c then _ else _ ] => destruct c
         end; eauto.
Qed.

Lemma clip_incident_returns : forall a xfa b xfb edge flip,
  well_formed (ShapePolygon a) = true -> well_formed (ShapePolygon b) = true ->
  (0 < len (Points b))%Z -> (0 <= edge < len (Points a))%Z ->
  exists c, clip_incident a xfa b xfb edge flip = Ret c.
Proof.
  intros a xfa b xfb edge flip Hwa Hwb Hb He.
  cbn [well_formed] in Hwa, Hwb. apply Nat.eqb_eq in Hwa, Hwb.
  unfold clip_incident, findIncidentEdge. cbv zeta.
  destruct (index_in_range _ (Normals a) edge) as [ normal -> ]; [ unfold len in *; lia | ].
  cbn [bind].
  set (i := incident_scan _ (Normals b) 0 0 MaxFloat64).
  assert (Ri : (0 <= i < len (Points b))%Z).
  { pose proof (incident_scan_range
                  (Rotation_MulT (Rotation_of xfb) (Rotation_Mul (Rotation_of xfa) normal))
                  (Normals b) 0 0 MaxFloat64) as R.
    fold i in R. unfold len in *. lia. }
  pose proof (next_index_range i (len (Points b)) Ri) as Rj.
  destruct (index_in_range _ (Points b) _ Ri) as [ pi -> ].
  destruct (index_in_range _ (Points b) _ Rj) as [ pj -> ].
  cbn [bind].
  pose proof (next_index_range edge (len (Points a)) He) as Rj'.
  destruct (index_in_range _ (Points a) _ He) as [ v1 -> ].
  destruct (index_in_range _ (Points a) _ Rj') as [ v2 -> ].
  cbn [bind].
  match goal with
  | |- context [ clip ?n ?c [?e0; ?e1] ] =>
      destruct (clip_pair_returns n c e0 e1) as (n1 & o0 & o1 & ->)
  end.
  cbn [bind]. destruct (n1 <? 2)%Z; [ eauto | ].
  match goal with
  | |- context [ clip ?n ?c [?e0; ?e1] ] =>
      destruct (clip_pair_returns n c e0 e1) as (n2 & q0 & q1 & ->)
  end.
  cbn [bind]. destruct (n2 <? 2)%Z; [ eauto | ].
  change (index [q0; q1] 0%Z) with (Ret q0).
  change (index [q0; q1] 1%Z) with (Ret q1).
  cbn [bind].
  match goal with
  | |- context [ if ?c =? 0 then _ else _ ] => destruct (c =? 0)
  end; eauto.
Qed.

Lemma CollidePolygons_returns : forall a xfa b xfb,
  well_formed (ShapePolygon a) = true -> well_formed (ShapePolygon b) = true ->
  (0 < len (Points a))%Z -> (0 < len (Points b))%Z ->
  exists c, CollidePolygons a xfa b xfb = Ret c.
Proof.
  intros a xfa b xfb Hwa Hwb Ha Hb. unfold CollidePolygons.
  destruct (findMaxSeparation_range a xfa b xfb Hwa) as (eA & sA & -> & RA).
  cbn [bind]. destruct (0 <=? sA); [ eauto | ].
  destruct (findMaxSeparation_range b xfb a xfa Hwb) as (eB & sB & -> & RB).
  cbn [bind]. destruct (0 <=? sB); [ eauto | ].
  destruct (sA <? sB); apply clip_incident_returns; try assumption; lia.
Qed.

(** X12: [Collide] never panics on circles and on polygons that have at
    least one point and as many normals as points: every index it computes
    (the best face, the vertex after it, the incident edge, the clip output)
    is in range. *)
Theorem Collide_does_not_panic : forall a xfa b xfb,
  well_formed a = true -> well_formed b = true ->
  populated a = true -> populated b = true ->
  exists c, Collide a xfa b xfb = Ret c.
Proof.
  intros [ ca | pa | oa | ] xfa [ cb | pb | ob | ] xfb Hwa Hwb Ha Hb;
    try discriminate Ha; try discriminate Hb; cbn [Collide populated] in *;
    try apply Z.ltb_lt in Ha; try apply Z.ltb_lt in Hb.
  - eauto.
  - unfold CollideCircleAndPolygon.
    destruct (CollidePolygonAndCircle_returns pb xfb ca xfa Hwb Hb) as [ c -> ].
    cbn [bind]. eauto.
  - now apply CollidePolygonAndCircle_returns.
  - now apply CollidePolygons_returns.
Qed.

Lemma Collide_does_not_panic_witness :
  exists c, Collide (box 0 0) identity wedge identity = Ret c.
Proof.
  apply (Collide_does_not_panic (box 0 0) identity wedge identity); reflexivity.
Defined.

Lemma ltb_leb_asym : forall a b : float, (a <? b) = true -> (b <=? a) = false.
Proof.
  intros a b. rewrite ltb_spec, leb_spec. unfold SFltb, SFleb.
  rewrite (SFcompare_antisym (Prim2SF a)).
  destruct (SFcompare (Prim2SF a) (Prim2SF b)) as [ [ | | ] | ]; cbn; congruence.
Qed.

Lemma SFltb_zero_inv : forall x,
  SFltb (S754_zero false) x = true ->
  x = S754_infinity false \/ exists m e, x = S754_finite false m e.
Proof.
  intros [ s | [ | ] | | [ | ] m e ]; cbn; try discriminate; eauto.
Qed.

Lemma SFleb_zero_nonneg_inv : forall x,
  SFleb (S754_zero false) x = true ->
  (exists s, x = S754_zero s) \/ x = S754_infinity false
  \/ exists m e, x = S754_finite false m e.
Proof.
  intros [ s | [ | ] | | [ | ] m e ]; cbn; try discriminate; eauto.
Qed.

(** The product of two floats that are [> 0] is never [< 0]. *)
Lemma mul_pos_pos : forall d1 d2 : float,
  (0 <? d1) = true -> (0 <? d2) = true -> (d1 * d2 <? 0) = false.
Proof.
  intros d1 d2. rewrite !ltb_spec, mul_spec.
  change (Prim2SF 0) with (S754_zero false).
  intros H1 H2. apply SFltb_zero_inv in H1. apply SFltb_zero_inv in H2.
  unfold SF64mul.
  destruct H1 as [ -> | (m1 & e1 & ->) ]; destruct H2 as [ -> | (m2 & e2 & ->) ];
    try reflexivity.
  cbn. apply SFltb_nonneg_zero with (s := false).
  pose proof (binary_round_aux_sign false (Zpos (Pos.mul m1 m2)) (Z.add e1 e2) loc_Exact) as H.
  cbn zeta in H. tauto.
Qed.

Lemma leb_opp_nonneg : forall x : float, (x <=? 0) = true -> (0 <=? - x) = true.
Proof.
  intros x. rewrite !leb_spec, opp_spec. change (Prim2SF 0) with (S754_zero false).
  intros H. apply SFleb_zero_inv in H.
  destruct H as [ (s & ->) | [ -> | (m & e & ->) ] ]; reflexivity.
Qed.

Lemma math_Max_nonneg : forall x y : float,
  (0 <=? x) = true -> (0 <=? y) = true -> (0 <=? math_Max x y) = true.
Proof.
  intros x y Hx Hy. unfold math_Max.
  destruct ((x =? infinity) || (y =? infinity)); [ reflexivity | ].
  destruct (is_nan x || is_nan y) eqn:En.
  - exfalso. unfold is_nan in En. rewrite !eqb_spec in En. rewrite leb_spec in Hx, Hy.
    change (Prim2SF 0) with (S754_zero false) in Hx, Hy.
    apply SFleb_zero_nonneg_inv in Hx, Hy.
    destruct Hx as [ (s & Hx) | [ Hx | (m & e & Hx) ] ];
      destruct Hy as [ (s' & Hy) | [ Hy | (m' & e' & Hy) ] ];
      rewrite Hx, Hy in En; unfold SFeqb in En;
      rewrite ?SFcompare_refl in En by discriminate; discriminate En.
  - destruct ((x =? 0) && (x =? y)); [ destruct (get_sign x); assumption | ].
    destruct (y <? x); assumption.
Qed.

Lemma nonneg_nonzero_pos : forall x : float,
  (0 <=? x) = true -> (x =? 0) = false -> (0 <? x) = true.
Proof.
  intros x. rewrite leb_spec, eqb_spec, ltb_spec. change (Prim2SF 0) with (S754_zero false).
  intros H. apply SFleb_zero_nonneg_inv in H.
  destruct H as [ (s & ->) | [ -> | (m & e & ->) ] ]; cbn; congruence.
Qed.

Ltac step_in H :=
  match type of H with
  | context [ bind ?c _ ] =>
      lazymatch c with
      | context [ bind ] => fail
      | _ => destruct c as [ ? | ? | ]; cbn [bind] in H; try discriminate H
      end
  end.

Lemma clip_incident_depth : forall a xfa b xfb edge flip c,
  clip_incident a xfa b xfb edge flip = Ret (Some c) -> (0 <? Depth c) = true.
Proof.
  intros a xfa b xfb edge flip c H. unfold clip_incident in H. cbv zeta in H.
  do 4 step_in H.
  match goal with p : (Z * list Point)%type |- _ => destruct p as [ n1 e1 ] end.
  destruct (n1 <? 2)%Z; [ discriminate H | ].
  step_in H.
  match goal with p : (Z * list Point)%type |- _ => destruct p as [ n2 e2 ] end.
  destruct (n2 <? 2)%Z; [ discriminate H | ].
  do 2 step_in H.
  match type of H with
  | (if ?o =? 0 then _ else _) = _ =>
      destruct (o =? 0) eqn:Ez; [ discriminate H | ];
      injection H as <-; cbn [Depth];
      apply nonneg_nonzero_pos; [ | exact Ez ]
  end.
  clear Ez.
  match goal with
  | |- (0 <=? (if ?c1 then math_Max ?o ?m else ?o')) = true =>
      assert (Ho : (0 <=? o) = true);
      [ | destruct c1 eqn:E1; [ apply math_Max_nonneg; [ exact Ho | now apply leb_opp_nonneg ]
                               | exact Ho ] ]
  end.
  match goal with
  | |- (0 <=? (if ?c0 then _ else _)) = true =>
      destruct c0 eqn:E0; [ now apply leb_opp_nonneg | reflexivity ]
  end.
Qed.

(** X13: a contact that [CollidePolygons] returns has a depth greater than
    zero (never zero, negative or NaN); [CollideCircles] reports [d - r],
    which is negative on overlap (C2). *)
Theorem CollidePolygons_depth_is_positive : forall a xfa b xfb c,
  CollidePolygons a xfa b xfb = Ret (Some c) -> (0 <? Depth c) = true.
Proof.
  intros a xfa b xfb c H. unfold CollidePolygons in H.
  step_in H. match goal with p : (Z * float)%type |- _ => destruct p as [ eA sA ] end.
  destruct (0 <=? sA); [ discriminate H | ].
  step_in H. match goal with p : (Z * float)%type |- _ => destruct p as [ eB sB ] end.
  destruct (0 <=? sB); [ discriminate H | ].
  destruct (sA <? sB); eapply clip_incident_depth; exact H.
Qed.

Lemma CollidePolygons_depth_is_positive_witness : (0 <? 0.5) = true.
Proof.
  apply (CollidePolygons_depth_is_positive (Rect 0 0 2 2) identity (Rect 1.5 1.5 2 2) identity
           (mkCollision (Pt 1 (-0)) 0.5)).
  vm_compute; reflexivity.
Defined.

(** X14: [clip] keeps a segment whose two end points are on or behind the
    plane: it returns 2 and leaves the segment as it is. *)
Theorem clip_keeps_segment_behind_plane : forall n c e0 e1,
  (Dot n e0 - c <=? 0) = true -> (Dot n e1 - c <=? 0) = true ->
  clip n c [e0; e1] = Ret (2%Z, [e0; e1]).
Proof.
  intros n c e0 e1 H1 H2. rewrite clip_pair. cbv zeta. now rewrite H1, H2.
Qed.

Lemma clip_keeps_segment_behind_plane_witness :
  clip (Pt 1 0) 2 [Pt 0 0; Pt 1 5] = Ret (2%Z, [Pt 0 0; Pt 1 5]).
Proof.
  apply (clip_keeps_segment_behind_plane (Pt 1 0) 2 (Pt 0 0) (Pt 1 5)); reflexivity.
Defined.

(** X15: [clip] drops a segment whose two end points are in front of the
    plane: it returns 0 (and leaves the slice as it is). *)
Theorem clip_drops_segment_in_front : forall n c e0 e1,
  (0 <? Dot n e0 - c) = true -> (0 <? Dot n e1 - c) = true ->
  clip n c [e0; e1] = Ret (0%Z, [e0; e1]).
Proof.
  intros n c e0 e1 H1 H2. rewrite clip_pair. cbv zeta.
  rewrite (ltb_leb_asym _ _ H1), (ltb_leb_asym _ _ H2), (mul_pos_pos _ _ H1 H2).
  reflexivity.
Qed.

Lemma clip_drops_segment_in_front_witness :
  clip (Pt 1 0) 2 [Pt 3 0; Pt 4 5] = Ret (0%Z, [Pt 3 0; Pt 4 5]).
Proof.
  apply (clip_drops_segment_in_front (Pt 1 0) 2 (Pt 3 0) (Pt 4 5)); reflexivity.
Defined.

(** Against a polygon without points every edge separates by [MaxFloat64]. *)
Lemma separation_scan_no_points : forall rest a xfa b xfb i bestIndex maxSeparation e s,
  Points b = [] ->
  maxSeparation = - MaxFloat64 \/ maxSeparation = MaxFloat64 ->
  separation_scan a xfa b xfb rest i bestIndex maxSeparation = Ret (e, s) ->
  s = maxSeparation \/ s = MaxFloat64.
Proof.
  induction rest as [ | pt rest IH ]; intros a xfa b xfb i bestIndex maxSeparation e s Hb Hm;
    cbn [separation_scan].
  - intros H; injection H as <- <-. now left.
  - destruct (index (Normals a) i) as [ n | | ]; cbn [bind]; try discriminate.
    cbv zeta. rewrite Hb. cbn [deepest].
    destruct (maxSeparation <? MaxFloat64) eqn:E.
    + intros H. apply IH in H; [ | assumption | now right ]. destruct H; now right.
    + intros H. apply IH in H; [ | assumption | assumption ]. exact H.
Qed.

Lemma findMaxSeparation_no_points : forall a xfa b xfb,
  well_formed (ShapePolygon a) = true -> (0 < len (Points a))%Z -> Points b = [] ->
  exists e, findMaxSeparation a xfa b xfb = Ret (e, MaxFloat64).
Proof.
  intros a xfa b xfb Hw Hne Hb.
  destruct (findMaxSeparation_range a xfa b xfb Hw) as (e & s & E & _).
  exists e. rewrite E. do 2 f_equal.
  unfold findMaxSeparation in E.
  destruct (Points a) as [ | pt rest ]; [ cbn in Hne; lia | ].
  cbn [separation_scan] in E.
  destruct (index (Normals a) 0%Z) as [ n | | ]; cbn [bind] in E; try discriminate E.
  cbv zeta in E. rewrite Hb in E. cbn [deepest] in E.
  change (- MaxFloat64 <? MaxFloat64) with true in E.
  apply separation_scan_no_points in E; [ | assumption | now right ].
  destruct E; assumption.
Qed.

(** X16: a polygon without points collides with no polygon that has points:
    against it every edge separates by [math.MaxFloat64], so [CollidePolygons]
    returns nil, in either order. *)
Theorem Collide_polygon_without_points : forall normals p xfa xfb,
  well_formed (ShapePolygon p) = true -> (0 < len (Points p))%Z ->
  Collide (ShapePolygon (mkPolygon [] normals)) xfa (ShapePolygon p) xfb = Ret None
  /\ Collide (ShapePolygon p) xfa (ShapePolygon (mkPolygon [] normals)) xfb = Ret None.
Proof.
  intros normals p xfa xfb Hw Hne. cbn [Collide]. unfold CollidePolygons. split.
  - change (findMaxSeparation (mkPolygon [] normals) xfa p xfb) with (Ret (0%Z, - MaxFloat64)).
    cbn [bind]. change (0 <=? - MaxFloat64) with false. cbv iota.
    destruct (findMaxSeparation_no_points p xfb (mkPolygon [] normals) xfa Hw Hne eq_refl)
      as [ e -> ].
    reflexivity.
  - destruct (findMaxSeparation_no_points p xfa (mkPolygon [] normals) xfb Hw Hne eq_refl)
      as [ e -> ].
    reflexivity.
Qed.

Lemma Collide_polygon_without_points_witness :
  Collide (ShapePolygon (mkPolygon [] [])) identity (box 0 0) identity = Ret None
  /\ Collide (box 0 0) identity (ShapePolygon (mkPolygon [] [])) identity = Ret None.
Proof.
  apply (Collide_polygon_without_points [] (Rect 0 0 2 2) identity identity); reflexivity.
Defined.

(** X17: against a circle, or against another polygon without points, a
    polygon without points makes [Collide] panic (index out of range), in
    either order. *)
Theorem Collide_without_points_panics : forall normals normals' c xfa xfb,
  Collide (ShapePolygon (mkPolygon [] normals)) xfa (ShapeCircle c) xfb
    = Panic IndexOutOfRange
  /\ Collide (ShapeCircle c) xfa (ShapePolygon (mkPolygon [] normals)) xfb
    = Panic IndexOutOfRange
  /\ Collide (ShapePolygon (mkPolygon [] normals)) xfa
             (ShapePolygon (mkPolygon [] normals')) xfb
    = Panic IndexOutOfRange.
Proof.
  intros normals normals' c xfa xfb. repeat split; try reflexivity.
  cbn [Collide]. unfold CollidePolygons.
  change (findMaxSeparation (mkPolygon [] normals) xfa (mkPolygon [] normals') xfb)
    with (Ret (0%Z, - MaxFloat64)).
  change (findMaxSeparation (mkPolygon [] normals') xfb (mkPolygon [] normals) xfa)
    with (Ret (0%Z, - MaxFloat64)).
  cbn [bind]. change (0 <=? - MaxFloat64) with false.
  change (- MaxFloat64 <? - MaxFloat64) with false. cbv iota.
  unfold clip_incident, findIncidentEdge. cbn [Normals Points].
  destruct (index normals 0%Z) as [ n | | ] eqn:En; cbn [bind].
  - cbv zeta.
    set (i := incident_scan _ normals' 0 0 MaxFloat64).
    assert (E : index (@nil Point) i = Panic IndexOutOfRange).
    { unfold index. destruct (i <? 0)%Z; [ reflexivity | ]. now destruct (Z.to_nat i). }
    rewrite E. reflexivity.
  - unfold index in En. destruct normals; cbn in En; try discriminate En.
    injection En as <-. reflexivity.
  - unfold index in En. destruct normals; discriminate En.
Qed.

(** [deepest] returns its start value or something less. *)
Lemma deepest_below_start : forall n v rest d,
  deepest n v rest d = d \/ (deepest n v rest d <? d) = true.
Proof.
  intros n v rest. induction rest as [ | p rest IH ]; intros d; cbn [deepest].
  - now left.
  - cbv zeta. destruct (Dot n (Sub p v) <? d) eqn:E; [ | apply IH ].
    right. destruct (IH (Dot n (Sub p v))) as [ -> | H ]; [ exact E | ].
    eapply ltb_trans; eassumption.
Qed.

Lemma ltb_irrefl : forall x : float, (x <? x) = false.
Proof.
  intros x. destruct (x <? x) eqn:E; [ | reflexivity ]. now rewrite (ltb_asym _ _ E) in E.
Qed.

Lemma deepest_is_least : forall n v rest d q,
  In q rest -> (Dot n (Sub q v) <? deepest n v rest d) = false.
Proof.
  intros n v rest. induction rest as [ | p rest IH ]; intros d q Hq; [ destruct Hq | ].
  cbn [deepest]. cbv zeta.
  destruct (Dot n (Sub p v) <? d) eqn:E; destruct Hq as [ <- | Hq ]; try now apply IH.
  - destruct (deepest_below_start n v rest (Dot n (Sub p v))) as [ -> | H ];
      [ apply ltb_irrefl | now apply ltb_asym ].
  - destruct (deepest_below_start n v rest d) as [ -> | H ]; [ exact E | ].
    eapply not_ltb_lower; eassumption.
Qed.

Lemma index_range : forall (A : Type) (s : list A) (i : Z) (x : A),
  index s i = Ret x -> (0 <= i < len s)%Z.
Proof.
  intros A s i x. unfold index, len. destruct (i <? 0)%Z eqn:E; [ discriminate | ].
  apply Z.ltb_ge in E.
  destruct (nth_error s (Z.to_nat i)) eqn:En; [ | discriminate ].
  intros _. assert (Hlt : (Z.to_nat i < length s)%nat).
  { apply nth_error_Some. congruence. }
  lia.
Qed.

Lemma index_middle : forall (A : Type) (seen rest : list A) (x : A),
  index (seen ++ x :: rest) (len seen) = Ret x.
Proof.
  intros A seen rest x. unfold index, len.
  destruct (Z.of_nat (length seen) <? 0)%Z eqn:E; [ apply Z.ltb_lt in E; lia | ].
  rewrite Nat2Z.id, nth_error_app2 by lia. now rewrite Nat.sub_diag.
Qed.

(** The outer loop of [findMaxSeparation] over [pts = seen ++ rest]. *)
Lemma separation_scan_greatest : forall rest seen a xfa b xfb i bestIndex maxSeparation e s,
  i = len seen ->
  (forall k n v, (0 <= k < i)%Z -> index (Normals a) k = Ret n ->
     index (seen ++ rest) k = Ret v ->
     (maxSeparation <? edge_separation xfa b xfb n v) = false) ->
  ((maxSeparation = - MaxFloat64 /\ bestIndex = 0%Z)
   \/ exists n v, index (Normals a) bestIndex = Ret n /\ index (seen ++ rest) bestIndex = Ret v
                  /\ maxSeparation = edge_separation xfa b xfb n v) ->
  separation_scan a xfa b xfb rest i bestIndex maxSeparation = Ret (e, s) ->
  (forall k n v, index (Normals a) k = Ret n -> index (seen ++ rest) k = Ret v ->
     (s <? edge_separation xfa b xfb n v) = false)
  /\ ((s = - MaxFloat64 /\ e = 0%Z)
      \/ exists n v, index (Normals a) e = Ret n /\ index (seen ++ rest) e = Ret v
                     /\ s = edge_separation xfa b xfb n v).
Proof.
  induction rest as [ | pt rest IH ];
    intros seen a xfa b xfb i bestIndex maxSeparation e s Hi Hseen Hbest;
    cbn [separation_scan].
  - intros H; injection H as <- <-. split; [ | exact Hbest ].
    intros k n v Hn Hv. apply (Hseen k n v); try assumption.
    apply index_range in Hv. rewrite app_nil_r in Hv. lia.
  - assert (Eapp : seen ++ pt :: rest = (seen ++ [pt]) ++ rest) by now rewrite <- app_assoc.
    assert (Hlen : len (seen ++ [pt]) = (i + 1)%Z).
    { unfold len in *. rewrite length_app. cbn [length]. lia. }
    assert (Hpt : index (seen ++ pt :: rest) i = Ret pt) by (subst i; apply index_middle).
    destruct (index (Normals a) i) as [ n | | ] eqn:En; cbn [bind]; try discriminate.
    cbv zeta. fold (edge_separation xfa b xfb n pt).
    destruct (maxSeparation <? edge_separation xfa b xfb n pt) eqn:E; intros H.
    + rewrite Eapp. apply (IH (seen ++ [pt]) a xfa b xfb (i + 1)%Z i
                             (edge_separation xfa b xfb n pt) e s); rewrite <- ?Eapp;
        try assumption; try (now symmetry).
      * intros k n' v' Hk Hn' Hv'. destruct (Z.eq_dec k i) as [ -> | Hne ].
        -- rewrite En in Hn'. rewrite Hpt in Hv'. injection Hn' as <-. injection Hv' as <-.
           apply ltb_irrefl.
        -- eapply not_ltb_raise; [ exact E | ]. apply (Hseen k n' v'); try assumption. lia.
      * right. exists n, pt. auto.
    + rewrite Eapp. apply (IH (seen ++ [pt]) a xfa b xfb (i + 1)%Z bestIndex
                             maxSeparation e s); rewrite <- ?Eapp;
        try assumption; try (now symmetry).
      intros k n' v' Hk Hn' Hv'. destruct (Z.eq_dec k i) as [ -> | Hne ].
      * rewrite En in Hn'. rewrite Hpt in Hv'. injection Hn' as <-. injection Hv' as <-.
        exact E.
      * apply (Hseen k n' v'); try assumption. lia.
Qed.

(** X18: [findMaxSeparation] returns the greatest edge separation: no edge
    of [a] has a greater one; the separation of an edge is one that no point
    of [b] goes below; and the index returned is that of an edge with the
    separation returned, or 0 with [-math.MaxFloat64] when no edge has a
    greater separation than that. *)
Theorem findMaxSeparation_is_greatest : forall a xfa b xfb e s,
  findMaxSeparation a xfa b xfb = Ret (e, s) ->
  (forall k n v, index (Normals a) k = Ret n -> index (Points a) k = Ret v ->
     (s <? edge_separation xfa b xfb n v) = false
     /\ forall q, In q (Points b) ->
          (Dot (Rotation_MulT (Rotation_of xfb) (Rotation_Mul (Rotation_of xfa) n))
               (Sub q (Transform_MulT xfb (Transform_Mul xfa v)))
           <? edge_separation xfa b xfb n v) = false)
  /\ ((s = - MaxFloat64 /\ e = 0%Z)
      \/ exists n v, index (Normals a) e = Ret n /\ index (Points a) e = Ret v
                     /\ s = edge_separation xfa b xfb n v).
Proof.
  intros a xfa b xfb e s H. unfold findMaxSeparation in H.
  destruct (separation_scan_greatest (Points a) [] a xfa b xfb 0 0 (- MaxFloat64) e s)
    as [ G1 G2 ]; try assumption; try reflexivity.
  - intros k n v Hk. lia.
  - left. split; reflexivity.
  - cbn [app] in *. split; [ | exact G2 ].
    intros k n v Hn Hv. split; [ now apply (G1 k n v) | ].
    intros q Hq. unfold edge_separation. now apply deepest_is_least.
Qed.

Lemma findMaxSeparation_is_greatest_witness :
  (forall k n v, index (Normals (Rect 0 0 2 2)) k = Ret n ->
     index (Points (Rect 0 0 2 2)) k = Ret v ->
     (-0.5 <? edge_separation identity (Rect 1.5 1.5 2 2) identity n v) = false
     /\ forall q, In q (Points (Rect 1.5 1.5 2 2)) ->
          (Dot (Rotation_MulT (Rotation_of identity) (Rotation_Mul (Rotation_of identity) n))
               (Sub q (Transform_MulT identity (Transform_Mul identity v)))
           <? edge_separation identity (Rect 1.5 1.5 2 2) identity n v) = false)
  /\ ((-0.5 = - MaxFloat64 /\ 1%Z = 0%Z)
      \/ exists n v, index (Normals (Rect 0 0 2 2)) 1%Z = Ret n
                     /\ index (Points (Rect 0 0 2 2)) 1%Z = Ret v
                     /\ -0.5 = edge_separation identity (Rect 1.5 1.5 2 2) identity n v).
Proof.
  apply (findMaxSeparation_is_greatest (Rect 0 0 2 2) identity (Rect 1.5 1.5 2 2) identity
           1%Z (-0.5)).
  vm_compute; reflexivity.
Defined.

(** *** The simplex cache *)

Lemma vertex_eta : forall x,
  mkVertex (v_a x) (v_b x) (v_p x) (v_u x) (v_indexA x) (v_indexB x) = x.
Proof. now intros []. Qed.

Lemma set_count_same : forall s, set_count s (count s) = s.
Proof. now intros []. Qed.

Lemma set_v0_same : forall s, set_v0 s (v0 s) = s.
Proof. now intros []. Qed.

Lemma set_v1_same : forall s, set_v1 s (v1 s) = s.
Proof. now intros []. Qed.

Lemma set_v2_same : forall s, set_v2 s (v2 s) = s.
Proof. now intros []. Qed.

(** One iteration of the loop of [ReadCache] on a vertex that is consistent
    and whose indices the cache holds leaves the simplex as it is. *)
Lemma read_vertices_step : forall todo i s cache a xfa b xfb x,
  v_get s i = Ret x -> v_set s i x = Ret s ->
  int3_get (c_indexA cache) i = Ret (v_indexA x) ->
  int3_get (c_indexB cache) i = Ret (v_indexB x) ->
  vertex_consistent a xfa b xfb x ->
  read_vertices (S todo) i s cache a xfa b xfb
  = read_vertices todo (i + 1)%Z s cache a xfa b xfb.
Proof.
  intros todo i s cache a xfa b xfb x Hg Hs Hia Hib (Ha & Hb & Hp).
  cbn [read_vertices]. rewrite Hg. cbn [bind]. rewrite Hia, Hib. cbn [bind].
  rewrite Ha, Hb. cbn [bind]. rewrite <- Hp, vertex_eta, Hs. reflexivity.
Qed.



(** *** The separation function and the time of impact *)

(** X20: the indices [MinSeparation] returns are indices [Evaluate]
    accepts, at any transforms: the -1 it returns for the shape whose face
    carries the axis is never used to index that shape. *)
Theorem Evaluate_accepts_MinSeparation : forall fcn xfa xfb indexA indexB s xfa' xfb',
  MinSeparation fcn xfa xfb = Ret (indexA, indexB, s) ->
  (kind fcn = axisFaceA -> indexA = (-1)%Z)
  /\ (kind fcn = axisFaceB -> indexB = (-1)%Z)
  /\ exists s', Evaluate fcn indexA xfa' indexB xfb' = Ret s'.
Proof.
  intros fcn xfa xfb indexA indexB s xfa' xfb' H.
  unfold MinSeparation in H. unfold Evaluate.
  destruct (kind fcn); cbv zeta in H.
  - destruct (getSupport (shapeA fcn) _) as [ ia | | ]; cbn [bind] in H; try discriminate H.
    destruct (getVertex (shapeA fcn) ia) as [ va | | ] eqn:Ea; cbn [bind] in H;
      try discriminate H.
    destruct (getSupport (shapeB fcn) _) as [ ib | | ]; cbn [bind] in H; try discriminate H.
    destruct (getVertex (shapeB fcn) ib) as [ vb | | ] eqn:Eb; cbn [bind] in H;
      try discriminate H.
    injection H as <- <- <-. rewrite Ea, Eb. cbn [bind].
    repeat split; try discriminate. eauto.
  - destruct (getSupport (shapeB fcn) _) as [ ib | | ]; cbn [bind] in H; try discriminate H.
    destruct (getVertex (shapeB fcn) ib) as [ vb | | ] eqn:Eb; cbn [bind] in H;
      try discriminate H.
    injection H as <- <- <-. rewrite Eb. cbn [bind].
    repeat split; try discriminate. eauto.
  - destruct (getSupport (shapeA fcn) _) as [ ia | | ]; cbn [bind] in H; try discriminate H.
    destruct (getVertex (shapeA fcn) ia) as [ va | | ] eqn:Ea; cbn [bind] in H;
      try discriminate H.
    injection H as <- <- <-. rewrite Ea. cbn [bind].
    repeat split; try discriminate. eauto.
Qed.

Lemma Evaluate_accepts_MinSeparation_witness :
  (kind (mkSeparation axisFaceA (box 0 0) (unit_circle 3 0.5) (Pt 1 0) (Pt 1 0)) = axisFaceA
   -> (-1)%Z = (-1)%Z)
  /\ (kind (mkSeparation axisFaceA (box 0 0) (unit_circle 3 0.5) (Pt 1 0) (Pt 1 0)) = axisFaceB
      -> 0%Z = (-1)%Z)
  /\ exists s', Evaluate (mkSeparation axisFaceA (box 0 0) (unit_circle 3 0.5) (Pt 1 0) (Pt 1 0))
                  (-1) identity 0 (identity_at (Pt (-1) 0)) = Ret s'.
Proof.
  apply (Evaluate_accepts_MinSeparation
           (mkSeparation axisFaceA (box 0 0) (unit_circle 3 0.5) (Pt 1 0) (Pt 1 0))
           identity identity (-1)%Z 0%Z 2 identity (identity_at (Pt (-1) 0))).
  vm_compute; reflexivity.
Defined.

Lemma SFopp_unbounded : forall x, sf_unbounded x -> sf_unbounded (SFopp x).
Proof. intros [ s | s | | s m e ]; cbn; auto. Qed.

Lemma SFadd_unbounded_l : forall x y, sf_unbounded x -> sf_unbounded (SFadd prec emax x y).
Proof.
  intros [ sx | sx | | sx mx ex ] [ sy | sy | | sy my ey ]; cbn; try tauto.
  destruct sx, sy; cbn; auto.
Qed.

Lemma SFadd_unbounded_r : forall x y, sf_unbounded y -> sf_unbounded (SFadd prec emax x y).
Proof. intros x y H. rewrite SFadd_comm. now apply SFadd_unbounded_l. Qed.

Lemma SFmul_unbounded_l : forall x y, sf_unbounded x -> sf_unbounded (SFmul prec emax x y).
Proof. intros [ sx | sx | | sx mx ex ] [ sy | sy | | sy my ey ]; cbn; tauto. Qed.

Lemma SFmul_unbounded_r : forall x y, sf_unbounded y -> sf_unbounded (SFmul prec emax x y).
Proof. intros x y H. rewrite SFmul_comm. now apply SFmul_unbounded_l. Qed.

Lemma add_unbounded_l : forall x y : float, unbounded x -> unbounded (x + y).
Proof. unfold unbounded; intros; rewrite add_spec; now apply SFadd_unbounded_l. Qed.

Lemma add_unbounded_r : forall x y : float, unbounded y -> unbounded (x + y).
Proof. unfold unbounded; intros; rewrite add_spec; now apply SFadd_unbounded_r. Qed.

Lemma sub_unbounded_l : forall x y : float, unbounded x -> unbounded (x - y).
Proof.
  unfold unbounded; intros; rewrite sub_spec. unfold SF64sub. rewrite SFsub_add.
  now apply SFadd_unbounded_l.
Qed.

Lemma sub_unbounded_r : forall x y : float, unbounded y -> unbounded (x - y).
Proof.
  unfold unbounded; intros; rewrite sub_spec. unfold SF64sub. rewrite SFsub_add.
  now apply SFadd_unbounded_r, SFopp_unbounded.
Qed.

Lemma mul_unbounded_l : forall x y : float, unbounded x -> unbounded (x * y).
Proof. unfold unbounded; intros; rewrite mul_spec; now apply SFmul_unbounded_l. Qed.

Lemma mul_unbounded_r : forall x y : float, unbounded y -> unbounded (x * y).
Proof. unfold unbounded; intros; rewrite mul_spec; now apply SFmul_unbounded_r. Qed.

Lemma is_finite_unbounded : forall x : float, is_finite x = false -> unbounded x.
Proof.
  intros x. unfold is_finite, is_nan, is_infinity, unbounded.
  rewrite !eqb_spec, abs_spec. change (Prim2SF infinity) with (S754_infinity false).
  destruct (Prim2SF x) as [ s | s | | s m e ]; cbn; try discriminate; auto.
  unfold SFeqb. cbn. rewrite Z.compare_refl, Pos.compare_cont_refl.
  destruct s; discriminate.
Qed.

Lemma unbounded_not_near : forall s c tol : float,
  unbounded s -> (abs (s - c) <? tol) = false.
Proof.
  intros s c tol H. apply (sub_unbounded_l s c) in H. unfold unbounded in H.
  rewrite ltb_spec, abs_spec.
  destruct (Prim2SF (s - c)) as [ sg | sg | | sg m e ]; cbn in H |- *; try tauto.
  destruct (Prim2SF tol) as [ st | [ | ] | | [ | ] mt et ]; reflexivity.
Qed.

Lemma GetTransform_unbounded : forall math_Sincos sweep t,
  unbounded t -> punbounded (Position (GetTransform math_Sincos sweep t)).
Proof.
  intros math_Sincos sweep t H. unfold GetTransform, NewTransform. cbn [Position].
  split; cbn [X Y Add Mul]; apply add_unbounded_r, mul_unbounded_r, H.
Qed.

Lemma Transform_Mul_unbounded : forall xf p,
  punbounded (Position xf) -> punbounded (Transform_Mul xf p).
Proof.
  intros xf p [ Hx Hy ]. unfold Transform_Mul.
  split; cbn [X Y Add]; now apply add_unbounded_r.
Qed.

Lemma Dot_unbounded_l : forall p q, punbounded p -> unbounded (Dot p q).
Proof. intros p q [ Hx Hy ]. unfold Dot. now apply add_unbounded_l, mul_unbounded_l. Qed.

Lemma Sub_unbounded_l : forall p q, punbounded p -> punbounded (Sub p q).
Proof. intros p q [ Hx Hy ]. split; cbn [X Y Sub]; now apply sub_unbounded_l. Qed.

Lemma Sub_unbounded_r : forall p q, punbounded q -> punbounded (Sub p q).
Proof. intros p q [ Hx Hy ]. split; cbn [X Y Sub]; now apply sub_unbounded_r. Qed.

(** The separation at a transform of [A] at an unbounded position is
    unbounded. *)
Lemma Evaluate_unbounded : forall fcn indexA xfa indexB xfb s,
  punbounded (Position xfa) ->
  Evaluate fcn indexA xfa indexB xfb = Ret s -> unbounded s.
Proof.
  intros fcn indexA xfa indexB xfb s Hxf. unfold Evaluate.
  destruct (kind fcn); cbv zeta.
  - destruct (getVertex (shapeA fcn) indexA) as [ va | | ]; cbn [bind]; try discriminate.
    destruct (getVertex (shapeB fcn) indexB) as [ vb | | ]; cbn [bind]; try discriminate.
    intros H; injection H as <-.
    now apply Dot_unbounded_l, Sub_unbounded_r, Transform_Mul_unbounded.
  - destruct (getVertex (shapeB fcn) indexB) as [ vb | | ]; cbn [bind]; try discriminate.
    intros H; injection H as <-.
    now apply Dot_unbounded_l, Sub_unbounded_r, Transform_Mul_unbounded.
  - destruct (getVertex (shapeA fcn) indexA) as [ va | | ]; cbn [bind]; try discriminate.
    intros H; injection H as <-.
    now apply Dot_unbounded_l, Sub_unbounded_l, Transform_Mul_unbounded.
Qed.

(** The root finder accepts finite times only. *)
Lemma root_finder_finite : forall math_Sincos todo j fcn indexA indexB sweepA sweepB
    a1 a2 s1 s2 t,
  root_finder math_Sincos todo j fcn indexA indexB sweepA sweepB a1 a2 s1 s2 = Ret (Some t) ->
  is_finite t = true.
Proof.
  intros math_Sincos todo. induction todo as [ | todo IH ];
    intros j fcn indexA indexB sweepA sweepB a1 a2 s1 s2 t; cbn [root_finder];
    [ discriminate | ].
  cbv zeta.
  set (t' := if negb (Z.land j 1 =? 0)%Z then _ else _).
  destruct (Evaluate fcn indexA (GetTransform math_Sincos sweepA t') indexB
              (GetTransform math_Sincos sweepB t')) as [ s | | ] eqn:Es; cbn [bind];
    try discriminate.
  destruct (abs (s - target) <? tolerance) eqn:Enear.
  - intros H; injection H as <-.
    destruct (is_finite t') eqn:Ef; [ reflexivity | ].
    apply is_finite_unbounded in Ef.
    apply Evaluate_unbounded in Es; [ | now apply GetTransform_unbounded ].
    rewrite (unbounded_not_near s target tolerance Es) in Enear. discriminate Enear.
  - destruct (target <? s); apply IH.
Qed.

Lemma resolve_finite : forall math_Sincos todo fcn sweepA sweepB t1 t2 t,
  is_finite t1 = true -> is_finite t2 = true ->
  resolve math_Sincos todo fcn sweepA sweepB t1 t2 = Ret (Next t) ->
  is_finite t = true.
Proof.
  intros math_Sincos todo. induction todo as [ | todo IH ];
    intros fcn sweepA sweepB t1 t2 t Ht1 Ht2; cbn [resolve];
    [ intros H; now injection H as <- | ].
  cbv zeta.
  destruct (MinSeparation fcn _ _) as [ [ [ indexA indexB ] s2 ] | | ]; cbn [bind];
    try discriminate.
  destruct (target_plus_tolerance <? s2); [ discriminate | ].
  destruct (target_minus_tolerance <? s2); [ intros H; now injection H as <- | ].
  destruct (Evaluate fcn indexA _ indexB _) as [ s1 | | ]; cbn [bind]; try discriminate.
  destruct (s1 <? target_minus_tolerance); [ discriminate | ].
  destruct (s1 <=? target_plus_tolerance); [ discriminate | ].
  destruct (root_finder math_Sincos 50 0 fcn indexA indexB sweepA sweepB t1 t2 s1 s2)
    as [ [ t' | ] | | ] eqn:Er; cbn [bind]; try discriminate.
  - apply IH; [ exact Ht1 | ]. eapply root_finder_finite; exact Er.
  - apply IH; assumption.
Qed.

Lemma toi_loop_finite : forall math_Sincos todo fuel simplex cache a sweepA b sweepB t1 t s',
  is_finite t1 = true ->
  toi_loop math_Sincos todo fuel simplex cache a sweepA b sweepB t1 = Ret (t, s') ->
  is_finite t = true.
Proof.
  intros math_Sincos todo. induction todo as [ | todo IH ];
    intros fuel simplex cache a sweepA b sweepB t1 t s' Ht1; cbn [toi_loop].
  - intros H; now injection H as <- <-.
  - cbv zeta.
    destruct (ReadCache simplex cache a _ b _) as [ s1 | | ]; cbn [bind]; try discriminate.
    destruct (GJK fuel s1 a _ b _) as [ s2 | | ]; cbn [bind]; try discriminate.
    destruct (WriteCache s2 cache) as [ cache' | | ]; cbn [bind]; try discriminate.
    destruct (ClosestPoint s2) as [ p | | ]; cbn [bind]; try discriminate.
    destruct (Length p <=? 0); [ intros H; injection H as <- <-; reflexivity | ].
    destruct (Length p <? target_plus_tolerance); [ intros H; now injection H as <- <- | ].
    destruct (init (newSeparation a b) cache' _ _) as [ fcn | | ]; cbn [bind];
      try discriminate.
    destruct (resolve math_Sincos 20 fcn sweepA sweepB t1 1) as [ [ | | t2 ] | | ] eqn:Er;
      cbn [bind]; try discriminate.
    + intros H; injection H as <- <-; reflexivity.
    + intros H; now injection H as <- <-.
    + apply IH. eapply resolve_finite; [ exact Ht1 | | exact Er ]. reflexivity.
Qed.

(** X21: a time that [TimeOfImpact] returns is a finite number, never NaN
    or an infinity, whatever the shapes, the sweeps (NaN and infinite
    coordinates included) and the values of [math.Sincos]: the root finder
    accepts a time only when the separation there is within [tolerance] of
    [target], and at a time that is not finite the separation is not finite
    either. *)
Theorem TimeOfImpact_is_finite : forall math_Sincos fuel simplex a sweepA b sweepB t s',
  TimeOfImpact math_Sincos fuel simplex a sweepA b sweepB = Ret (t, s') ->
  is_finite t = true.
Proof.
  intros math_Sincos fuel simplex a sweepA b sweepB t s' H. unfold TimeOfImpact in H.
  eapply toi_loop_finite; [ | exact H ]. reflexivity.
Qed.

Lemma TimeOfImpact_is_finite_witness : is_finite 0.24975 = true.
Proof.
  eapply (TimeOfImpact_is_finite Sincos_unrotated 20 zero_Simplex
            (ShapePolygon (Rect 0 0 10 10)) (still (Pt 50 50))
            (ShapePolygon (Rect 0 0 30 20)) (slide (Pt 20 50) (Pt 60 50)) 0.24975).
  vm_compute; reflexivity.
Defined.

Lemma read_vertices_valid : forall todo i s cache a xfa b xfb,
  cache_valid a b cache -> (0 <= i)%Z -> (i + Z.of_nat todo <= c_count cache)%Z ->
  consistent a xfa b xfb (set_count s i) ->
  exists s', read_vertices todo i s cache a xfa b xfb = Ret s'
    /\ count s' = count s
    /\ consistent a xfa b xfb (set_count s' (i + Z.of_nat todo)).
Proof.
  induction todo as [ | todo IH ]; intros i s cache a xfa b xfb Hv Hi Hn Hc;
    cbn [read_vertices].
  - exists s. rewrite Z.add_0_r. auto.
  - rewrite Nat2Z.inj_succ in *.
    destruct Hv as [ Hr Hidx ].
    destruct (Hidx i ltac:(lia)) as (ia & ib & va & vb & Eia & Eib & Eva & Evb).
    assert (Ei : i = 0%Z \/ i = 1%Z \/ i = 2%Z) by lia.
    assert (Eget : exists v, v_get s i = Ret v).
    { unfold v_get. destruct Ei as [ -> | [ -> | -> ] ]; eauto. }
    destruct Eget as [ v -> ]. cbn [bind]. rewrite Eia, Eib. cbn [bind].
    rewrite Eva, Evb. cbn [bind].
    set (x := mkVertex va vb _ (v_u v) ia ib).
    assert (Cx : vertex_consistent a xfa b xfb x) by (repeat split; assumption).
    assert (Eset : exists s1, v_set s i x = Ret s1 /\ count s1 = count s
               /\ consistent a xfa b xfb (set_count s1 (i + 1))).
    { destruct Hc as (C0 & C1 & C2). unfold v_set.
      destruct Ei as [ -> | [ -> | -> ] ]; eexists; (split; [ reflexivity | ]);
        (split; [ reflexivity | ]); unfold consistent in *;
        cbn [count set_count set_v0 set_v1 set_v2 v0 v1 v2 Z.add Pos.add] in *;
        repeat split; intros; try lia; try apply Cx;
        try (apply C0; lia); try (apply C1; lia). }
    destruct Eset as (s1 & -> & Ec1 & Cs1). cbn [bind].
    destruct (IH (i + 1)%Z s1 cache a xfa b xfb (conj Hr Hidx)) as (s' & E' & Ec' & Cs');
      try lia; try assumption.
    exists s'. split; [ exact E' | ]. split; [ congruence | ].
    replace (i + Z.succ (Z.of_nat todo))%Z with (i + 1 + Z.of_nat todo)%Z by lia.
    exact Cs'.
Qed.

Lemma ReadCache_valid : forall s cache a xfa b xfb,
  cache_valid a b cache ->
  exists s', ReadCache s cache a xfa b xfb = Ret s'
    /\ (0 <= count s' <= 3)%Z /\ consistent a xfa b xfb s'.
Proof.
  intros s cache a xfa b xfb Hv. unfold ReadCache. cbv zeta.
  pose proof (proj1 Hv) as Hr.
  destruct (read_vertices_valid (Z.to_nat (count (set_count s (c_count cache)))) 0
              (set_count s (c_count cache)) cache a xfa b xfb Hv) as (s1 & -> & Ec & Cs);
    cbn [count set_count]; try lia.
  { unfold consistent. cbn [count set_count]. repeat split; intros; lia. }
  cbn [bind]. cbn [count set_count] in Ec, Cs.
  rewrite Z2Nat.id in Cs by lia. cbn [Z.add] in Cs.
  assert (Cs1 : consistent a xfa b xfb s1).
  { unfold consistent in *. cbn [count set_count v0 v1 v2] in Cs. now rewrite Ec. }
  destruct (1 <? count s1)%Z eqn:E1.
  - apply Z.ltb_lt in E1.
    assert (Em : exists m, Metric s1 = Ret m).
    { unfold Metric. assert (E : count s1 = 2%Z \/ count s1 = 3%Z) by lia.
      destruct E as [ -> | -> ]; eauto. }
    destruct Em as [ m -> ]. cbn [bind].
    destruct ((m <? 0.5 * metric cache) || (2 * metric cache <? m) || (m <? 0.0001)).
    + eexists; split; [ reflexivity | ]. cbn [count set_count]. split; [ lia | ].
      unfold consistent. cbn [count set_count]. repeat split; intros; lia.
    + exists s1. split; [ reflexivity | ]. split; [ lia | exact Cs1 ].
  - exists s1. split; [ reflexivity | ]. split; [ lia | exact Cs1 ].
Qed.

Lemma WriteCache_valid : forall s cache a xfa b xfb,
  (1 <= count s <= 3)%Z -> consistent a xfa b xfb s ->
  exists cache', WriteCache s cache = Ret cache'
    /\ cache_valid a b cache' /\ (1 <= c_count cache')%Z.
Proof.
  intros s cache a xfa b xfb Hc (C0 & C1 & C2). unfold WriteCache.
  destruct cache as [ mc cc [ [ a0 a1 ] a2 ] [ [ b0 b1 ] b2 ] ].
  assert (E : count s = 1%Z \/ count s = 2%Z \/ count s = 3%Z) by lia.
  assert (Em : exists m, Metric s = Ret m).
  { unfold Metric. destruct E as [ -> | [ -> | -> ] ]; eauto. }
  destruct Em as [ m -> ]. cbn [bind c_indexA c_indexB].
  destruct E as [ E | [ E | E ] ]; rewrite E in *;
    [ change (Z.to_nat 1) with 1%nat
    | change (Z.to_nat 2) with 2%nat
    | change (Z.to_nat 3) with 3%nat ];
    cbn [write_indices v_get bind int3_set c_indexA c_indexB metric c_count Z.add Pos.add
         Pos.succ];
    (eexists; split; [ reflexivity | ]); (split; [ | cbn [c_count]; lia ]);
    unfold cache_valid; cbn [c_count c_indexA c_indexB]; (split; [ lia | ]);
    intros i Hi;
    [ assert (Ei : i = 0%Z) by lia
    | assert (Ei : i = 0%Z \/ i = 1%Z) by lia
    | assert (Ei : i = 0%Z \/ i = 1%Z \/ i = 2%Z) by lia ].
  - subst i. destruct (C0 ltac:(lia)) as (Ha & Hb & _).
    do 4 eexists. repeat split; try reflexivity; eassumption.
  - destruct Ei as [ -> | -> ];
      [ destruct (C0 ltac:(lia)) as (Ha & Hb & _) | destruct (C1 ltac:(lia)) as (Ha & Hb & _) ];
      do 4 eexists; repeat split; try reflexivity; eassumption.
  - destruct Ei as [ -> | [ -> | -> ] ];
      [ destruct (C0 ltac:(lia)) as (Ha & Hb & _)
      | destruct (C1 ltac:(lia)) as (Ha & Hb & _)
      | destruct (C2 ltac:(lia)) as (Ha & Hb & _) ];
      do 4 eexists; repeat split; try reflexivity; eassumption.
Qed.

Lemma init_returns : forall a b cache xfa xfb,
  cache_valid a b cache -> (1 <= c_count cache)%Z ->
  exists fcn, init (newSeparation a b) cache xfa xfb = Ret fcn
    /\ shapeA fcn = a /\ shapeB fcn = b.
Proof.
  intros a b cache xfa xfb [ Hr Hidx ] Hc. unfold init, newSeparation. cbn [shapeA shapeB local].
  destruct (c_indexA cache) as [ [ a0 a1 ] a2 ] eqn:EA.
  destruct (c_indexB cache) as [ [ b0 b1 ] b2 ] eqn:EB.
  destruct (Hidx 0%Z ltac:(lia)) as (ia & ib & va & vb & Eia & Eib & Eva & Evb).
  cbn [int3_get] in Eia, Eib. injection Eia as <-. injection Eib as <-.
  destruct (c_count cache =? 1)%Z eqn:E1.
  - rewrite Eva, Evb. cbn [bind]. eexists; repeat split.
  - apply Z.eqb_neq in E1.
    destruct (Hidx 1%Z ltac:(lia)) as (ia' & ib' & va' & vb' & Eia' & Eib' & Eva' & Evb').
    cbn [int3_get] in Eia', Eib'. injection Eia' as <-. injection Eib' as <-.
    destruct (a0 =? a1)%Z.
    + rewrite Evb, Evb'. cbn [bind]. rewrite Eva. cbn [bind]. cbv zeta.
      eexists; repeat split.
    + rewrite Eva, Eva'. cbn [bind]. rewrite Evb. cbn [bind]. cbv zeta.
      eexists; repeat split.
Qed.

Lemma MinSeparation_returns : forall fcn xfa xfb,
  populated (shapeA fcn) = true -> populated (shapeB fcn) = true ->
  exists indexA indexB s, MinSeparation fcn xfa xfb = Ret (indexA, indexB, s).
Proof.
  intros fcn xfa xfb Ha Hb. unfold MinSeparation.
  destruct (kind fcn); cbv zeta.
  - destruct (populated_getSupport _ (Rotation_MulT (Rotation_of xfa) (s_axis fcn)) Ha)
      as (ia & va & -> & Eva).
    cbn [bind]. rewrite Eva. cbn [bind].
    destruct (populated_getSupport _ (Rotation_MulT (Rotation_of xfb) (Neg (s_axis fcn))) Hb)
      as (ib & vb & -> & Evb).
    cbn [bind]. rewrite Evb. cbn [bind]. eauto.
  - match goal with
    | |- context [ getSupport (shapeB fcn) ?d ] =>
        destruct (populated_getSupport _ d Hb) as (ib & vb & -> & Evb)
    end.
    cbn [bind]. rewrite Evb. cbn [bind]. eauto.
  - match goal with
    | |- context [ getSupport (shapeA fcn) ?d ] =>
        destruct (populated_getSupport _ d Ha) as (ia & va & -> & Eva)
    end.
    cbn [bind]. rewrite Eva. cbn [bind]. eauto.
Qed.

(** The indices [MinSeparation] returns are indices [Evaluate] accepts. *)
Lemma Evaluate_after_MinSeparation : forall fcn xfa xfb indexA indexB s xfa' xfb',
  MinSeparation fcn xfa xfb = Ret (indexA, indexB, s) ->
  exists s', Evaluate fcn indexA xfa' indexB xfb' = Ret s'.
Proof.
  intros fcn xfa xfb indexA indexB s xfa' xfb' H.
  unfold MinSeparation in H. unfold Evaluate.
  destruct (kind fcn); cbv zeta in H.
  - destruct (getSupport (shapeA fcn) _) as [ ia | | ]; cbn [bind] in H; try discriminate H.
    destruct (getVertex (shapeA fcn) ia) as [ va | | ] eqn:Ea; cbn [bind] in H;
      try discriminate H.
    destruct (getSupport (shapeB fcn) _) as [ ib | | ]; cbn [bind] in H; try discriminate H.
    destruct (getVertex (shapeB fcn) ib) as [ vb | | ] eqn:Eb; cbn [bind] in H;
      try discriminate H.
    injection H as <- <- <-. rewrite Ea, Eb. cbn [bind]. eauto.
  - destruct (getSupport (shapeB fcn) _) as [ ib | | ]; cbn [bind] in H; try discriminate H.
    destruct (getVertex (shapeB fcn) ib) as [ vb | | ] eqn:Eb; cbn [bind] in H;
      try discriminate H.
    injection H as <- <- <-. rewrite Eb. cbn [bind]. eauto.
  - destruct (getSupport (shapeA fcn) _) as [ ia | | ]; cbn [bind] in H; try discriminate H.
    destruct (getVertex (shapeA fcn) ia) as [ va | | ] eqn:Ea; cbn [bind] in H;
      try discriminate H.
    injection H as <- <- <-. rewrite Ea. cbn [bind]. eauto.
Qed.

Lemma root_finder_returns : forall math_Sincos todo j fcn indexA indexB sweepA sweepB
    a1 a2 s1 s2,
  (forall xfa xfb, exists s, Evaluate fcn indexA xfa indexB xfb = Ret s) ->
  exists r, root_finder math_Sincos todo j fcn indexA indexB sweepA sweepB a1 a2 s1 s2 = Ret r.
Proof.
  intros math_Sincos todo. induction todo as [ | todo IH ];
    intros j fcn indexA indexB sweepA sweepB a1 a2 s1 s2 He; cbn [root_finder];
    [ eauto | ].
  cbv zeta.
  set (t' := if negb (Z.land j 1 =? 0)%Z then _ else _).
  destruct (He (GetTransform math_Sincos sweepA t') (GetTransform math_Sincos sweepB t'))
    as [ s -> ].
  cbn [bind]. destruct (abs (s - target) <? tolerance); [ eauto | ].
  destruct (target <? s); now apply IH.
Qed.

Lemma resolve_returns : forall math_Sincos todo fcn sweepA sweepB t1 t2,
  populated (shapeA fcn) = true -> populated (shapeB fcn) = true ->
  exists r, resolve math_Sincos todo fcn sweepA sweepB t1 t2 = Ret r.
Proof.
  intros math_Sincos todo. induction todo as [ | todo IH ];
    intros fcn sweepA sweepB t1 t2 Ha Hb; cbn [resolve]; [ eauto | ].
  cbv zeta.
  destruct (MinSeparation_returns fcn (GetTransform math_Sincos sweepA t2)
              (GetTransform math_Sincos sweepB t2) Ha Hb) as (indexA & indexB & s2 & Em).
  rewrite Em. cbn [bind].
  destruct (target_plus_tolerance <? s2); [ eauto | ].
  destruct (target_minus_tolerance <? s2); [ eauto | ].
  pose proof (fun xfa xfb => Evaluate_after_MinSeparation _ _ _ _ _ _ xfa xfb Em) as He.
  destruct (He (GetTransform math_Sincos sweepA t1) (GetTransform math_Sincos sweepB t1))
    as [ s1 -> ].
  cbn [bind].
  destruct (s1 <? target_minus_tolerance); [ eauto | ].
  destruct (s1 <=? target_plus_tolerance); [ eauto | ].
  destruct (root_finder_returns math_Sincos 50 0 fcn indexA indexB sweepA sweepB t1 t2 s1 s2 He)
    as [ r -> ].
  cbn [bind]. now apply IH.
Qed.

Lemma toi_loop_returns : forall math_Sincos todo fuel simplex cache a sweepA b sweepB t1,
  populated a = true -> populated b = true -> cache_valid a b cache ->
  (exists r, toi_loop math_Sincos todo fuel simplex cache a sweepA b sweepB t1 = Ret r)
  \/ toi_loop math_Sincos todo fuel simplex cache a sweepA b sweepB t1 = OutOfFuel.
Proof.
  intros math_Sincos todo. induction todo as [ | todo IH ];
    intros fuel simplex cache a sweepA b sweepB t1 Ha Hb Hv; cbn [toi_loop]; [ eauto | ].
  cbv zeta.
  set (xfa := GetTransform math_Sincos sweepA t1).
  set (xfb := GetTransform math_Sincos sweepB t1).
  destruct (ReadCache_valid simplex cache a xfa b xfb Hv) as (s1 & -> & R1 & C1).
  cbn [bind]. unfold GJK.
  destruct (GJK_seed_keeps a xfa b xfb s1 R1 C1) as [ K0 R0 ].
  destruct (R0 Ha Hb) as [ s0 Es0 ]. rewrite Es0. cbn [bind].
  destruct (K0 s0 Es0) as [ Rs0 Cs0 ].
  destruct (GJK_loop_keeps fuel a xfa b xfb s0 Rs0 Cs0) as [ K2 R2 ].
  destruct (R2 Ha Hb) as [ [ s2 Es2 ] | Eout ]; [ | rewrite Eout; now right ].
  rewrite Es2. cbn [bind].
  destruct (K2 s2 Es2) as [ Rs2 Cs2 ].
  destruct (WriteCache_valid s2 cache a xfa b xfb Rs2 Cs2) as (cache' & -> & Hv' & Hc').
  cbn [bind].
  assert (Ep : exists p, ClosestPoint s2 = Ret p).
  { unfold ClosestPoint.
    assert (E : count s2 = 1%Z \/ count s2 = 2%Z \/ count s2 = 3%Z) by lia.
    destruct E as [ -> | [ -> | -> ] ]; eauto. }
  destruct Ep as [ p -> ]. cbn [bind].
  destruct (Length p <=? 0); [ eauto | ].
  destruct (Length p <? target_plus_tolerance); [ eauto | ].
  destruct (init_returns a b cache' xfa xfb Hv' Hc') as (fcn & -> & EA & EB).
  cbn [bind].
  destruct (resolve_returns math_Sincos 20 fcn sweepA sweepB t1 1) as [ r -> ];
    try (rewrite ?EA, ?EB; assumption).
  cbn [bind]. destruct r as [ | | t1' ]; [ eauto | eauto | ].
  now apply IH.
Qed.

(** X22: [TimeOfImpact] never panics on circles and on polygons with at least
    one point, whatever simplex the caller hands in and whatever
    [math.Sincos] computes: it returns a time, or the main loop of [GJK] does
    not end within the fuel.  The indices the cache carries from [WriteCache]
    to [init] are indices of vertices, and [Evaluate] is only called with
    indices [MinSeparation] returned. *)
Theorem TimeOfImpact_does_not_panic : forall math_Sincos fuel simplex a sweepA b sweepB,
  populated a = true -> populated b = true ->
  (exists t s', TimeOfImpact math_Sincos fuel simplex a sweepA b sweepB = Ret (t, s'))
  \/ TimeOfImpact math_Sincos fuel simplex a sweepA b sweepB = OutOfFuel.
Proof.
  intros math_Sincos fuel simplex a sweepA b sweepB Ha Hb. unfold TimeOfImpact.
  destruct (toi_loop_returns math_Sincos 100 fuel simplex zero_SimplexCache a sweepA b sweepB 0
              Ha Hb) as [ [ [ t s' ] E ] | E ].
  - unfold cache_valid. cbn [c_count zero_SimplexCache]. split; [ lia | intros i Hi; lia ].
  - left. eauto.
  - now right.
Qed.

Lemma TimeOfImpact_does_not_panic_witness :
  (exists t s', TimeOfImpact Sincos_unrotated 20 zero_Simplex
                  (ShapePolygon (Rect 0 0 10 10)) (still (Pt 50 50))
                  (ShapePolygon (Rect 0 0 30 20)) (slide (Pt 20 50) (Pt 60 50)) = Ret (t, s'))
  \/ TimeOfImpact Sincos_unrotated 20 zero_Simplex
       (ShapePolygon (Rect 0 0 10 10)) (still (Pt 50 50))
       (ShapePolygon (Rect 0 0 30 20)) (slide (Pt 20 50) (Pt 60 50)) = OutOfFuel.
Proof.
  apply (TimeOfImpact_does_not_panic Sincos_unrotated 20 zero_Simplex
           (ShapePolygon (Rect 0 0 10 10)) (still (Pt 50 50))
           (ShapePolygon (Rect 0 0 30 20)) (slide (Pt 20 50) (Pt 60 50))); reflexivity.
Defined.

(** *** Separating edges and faces *)

(** From [x <= e] and [s], a number, not less than [e]: [x <= s]. *)
Lemma leb_not_ltb : forall x e s : float,
  (x <=? e) = true -> (s <? e) = false -> (exists k, fkey s = Some k) ->
  (x <=? s) = true.
Proof.
  intros x e s Hxe Hse [ ks Hs ].
  apply leb_key in Hxe as (kx & ke & Hx & He & Hle).
  apply leb_key. exists kx, ks. repeat split; try assumption.
  destruct (key_total ks ke) as [ Hlt | [ -> | Hgt ] ].
  - exfalso. assert (E : (s <? e) = true) by (apply ltb_key; eauto).
    rewrite E in Hse. discriminate Hse.
  - exact Hle.
  - left. destruct Hle as [ Hle | -> ]; [ eapply key_lt_trans; eassumption | exact Hgt ].
Qed.

Lemma deepest_is_a_number : forall n v rest,
  exists k, fkey (deepest n v rest MaxFloat64) = Some k.
Proof.
  intros n v rest. destruct (deepest_below_start n v rest MaxFloat64) as [ -> | H ].
  - eexists. vm_compute. reflexivity.
  - apply ltb_key in H as (a & b & Ha & _). eauto.
Qed.

Lemma findMaxSeparation_is_a_number : forall a xfa b xfb e s,
  findMaxSeparation a xfa b xfb = Ret (e, s) -> exists k, fkey s = Some k.
Proof.
  intros a xfa b xfb e s H.
  destruct (separation_scan_greatest (Points a) [] a xfa b xfb 0 0 (- MaxFloat64) e s)
    as [ _ [ [ -> _ ] | (n & v & _ & _ & ->) ] ]; try assumption; try reflexivity.
  - intros k n v Hk. lia.
  - left. split; reflexivity.
  - eexists. vm_compute. reflexivity.
  - apply deepest_is_a_number.
Qed.

(** X23: when some edge of [a] has every point of [b] on or beyond it
    (edge separation not below zero), or some edge of [b] has every point of
    [a] so, [CollidePolygons] returns nil: a separating edge rules out a
    contact. *)
Theorem CollidePolygons_separating_edge : forall a xfa b xfb,
  well_formed (ShapePolygon a) = true -> well_formed (ShapePolygon b) = true ->
  (exists i n v, index (Normals a) i = Ret n /\ index (Points a) i = Ret v
                 /\ (0 <=? edge_separation xfa b xfb n v) = true)
  \/ (exists i n v, index (Normals b) i = Ret n /\ index (Points b) i = Ret v
                    /\ (0 <=? edge_separation xfb a xfa n v) = true) ->
  CollidePolygons a xfa b xfb = Ret None.
Proof.
  intros a xfa b xfb Hwa Hwb Hsep. unfold CollidePolygons.
  destruct (findMaxSeparation_range a xfa b xfb Hwa) as (eA & sA & EA & _).
  destruct (findMaxSeparation_range b xfb a xfa Hwb) as (eB & sB & EB & _).
  rewrite EA. cbn [bind].
  destruct (0 <=? sA) eqn:PA; [ reflexivity | ].
  rewrite EB. cbn [bind].
  destruct (0 <=? sB) eqn:PB; [ reflexivity | ].
  exfalso. destruct Hsep as [ (i & n & v & Hn & Hv & Hpos) | (i & n & v & Hn & Hv & Hpos) ].
  - destruct (separation_scan_greatest (Points a) [] a xfa b xfb 0 0 (- MaxFloat64) eA sA)
      as [ G _ ]; try assumption; try reflexivity.
    + intros k n' v' Hk. lia.
    + left. split; reflexivity.
    + cbn [app] in G. specialize (G i n v Hn Hv).
      rewrite (leb_not_ltb _ _ _ Hpos G (findMaxSeparation_is_a_number _ _ _ _ _ _ EA)) in PA.
      discriminate PA.
  - destruct (separation_scan_greatest (Points b) [] b xfb a xfa 0 0 (- MaxFloat64) eB sB)
      as [ G _ ]; try assumption; try reflexivity.
    + intros k n' v' Hk. lia.
    + left. split; reflexivity.
    + cbn [app] in G. specialize (G i n v Hn Hv).
      rewrite (leb_not_ltb _ _ _ Hpos G (findMaxSeparation_is_a_number _ _ _ _ _ _ EB)) in PB.
      discriminate PB.
Qed.

Lemma CollidePolygons_separating_edge_witness :
  CollidePolygons (Rect 0 0 2 2) identity (Rect 3 0 2 2) identity = Ret None.
Proof.
  apply (CollidePolygons_separating_edge (Rect 0 0 2 2) identity (Rect 3 0 2 2) identity);
    try reflexivity.
  left. exists 1%Z, (Pt 1 (-0)), (Pt 1 (-1)). repeat split; vm_compute; reflexivity.
Defined.

(** The face loop ends early when a face not yet visited has the circle's
    centre further out than the radius. *)
Lemma face_scan_early_out : forall rest seen a center radius i separation normalIndex k n v,
  i = len seen -> (i <= k)%Z ->
  index (Normals a) k = Ret n -> index (seen ++ rest) k = Ret v ->
  (radius <? Dot n (Sub center v)) = true ->
  (forall j, (i <= j < i + len rest)%Z -> exists nj, index (Normals a) j = Ret nj) ->
  face_scan a center radius rest i separation normalIndex = Ret None.
Proof.
  induction rest as [ | pt rest IH ];
    intros seen a center radius i separation normalIndex k n v Hi Hk Hn Hv Hout Hnorm;
    cbn [face_scan].
  - exfalso. apply index_range in Hv. rewrite app_nil_r in Hv. lia.
  - assert (Eapp : seen ++ pt :: rest = (seen ++ [pt]) ++ rest) by now rewrite <- app_assoc.
    assert (Hlen : len (seen ++ [pt]) = (i + 1)%Z).
    { unfold len in *. rewrite length_app. cbn [length]. lia. }
    assert (Hpt : index (seen ++ pt :: rest) i = Ret pt) by (subst i; apply index_middle).
    destruct (Hnorm i) as [ ni Eni ].
    { unfold len. cbn [length]. lia. }
    rewrite Eni. cbn [bind]. cbv zeta.
    destruct (radius <? Dot ni (Sub center pt)) eqn:E; [ reflexivity | ].
    assert (Hne : k <> i).
    { intros ->. rewrite Eni in Hn. rewrite Hpt in Hv. injection Hn as <-. injection Hv as <-.
      rewrite E in Hout. discriminate Hout. }
    assert (Hnorm' : forall j, (i + 1 <= j < i + 1 + len rest)%Z ->
                       exists nj, index (Normals a) j = Ret nj).
    { intros j Hj. apply Hnorm. unfold len in *. cbn [length]. lia. }
    rewrite Eapp in Hv.
    destruct (separation <? Dot ni (Sub center pt));
      apply (IH (seen ++ [pt]) a center radius (i + 1)%Z _ _ k n v);
      try assumption; try (now symmetry); lia.
Qed.

(** X24: when the circle's centre, taken to the polygon's frame as the code
    does, lies further than the radius beyond some face of the polygon, the
    polygon and the circle do not collide, in either argument order. *)
Theorem CollidePolygonAndCircle_separating_face : forall a xfa b xfb i n v,
  well_formed (ShapePolygon a) = true ->
  index (Normals a) i = Ret n -> index (Points a) i = Ret v ->
  (Radius b <? Dot n (Sub (Transform_MulT xfa (Add (Center b) (Position xfb))) v)) = true ->
  CollidePolygonAndCircle a xfa b xfb = Ret None
  /\ CollideCircleAndPolygon b xfb a xfa = Ret None.
Proof.
  intros a xfa b xfb i n v Hw Hn Hv Hout.
  cbn [well_formed] in Hw. apply Nat.eqb_eq in Hw.
  assert (E : CollidePolygonAndCircle a xfa b xfb = Ret None).
  { unfold CollidePolygonAndCircle. cbv zeta.
    rewrite (face_scan_early_out (Points a) [] a _ (Radius b) 0 (- MaxFloat64) 0 i n v);
      try assumption; try reflexivity.
    - apply index_range in Hv. lia.
    - intros j Hj. apply index_in_range. unfold len in *. lia. }
  split; [ exact E | ]. unfold CollideCircleAndPolygon. now rewrite E.
Qed.

Lemma CollidePolygonAndCircle_separating_face_witness :
  CollidePolygonAndCircle (Rect 0 0 2 2) identity (mkCircle (Pt 3 0) 1) identity = Ret None
  /\ CollideCircleAndPolygon (mkCircle (Pt 3 0) 1) identity (Rect 0 0 2 2) identity = Ret None.
Proof.
  apply (CollidePolygonAndCircle_separating_face (Rect 0 0 2 2) identity (mkCircle (Pt 3 0) 1)
           identity 1%Z (Pt 1 (-0)) (Pt 1 (-1))); vm_compute; reflexivity.
Defined.
